(** * mytorch: a reverse-mode autograd engine (tensor.h, tensor.cc)

    A shallow embedding of the [Tensor] class of [src/tensor.h] and of the
    driver of [src/tensor.cc].

    - [xt::xarray<double>] is modelled by module [XArray]: lists of IEEE
      binary64 numbers (Rocq's primitive [float]), with xtensor's
      broadcasting of one-element operands and its resizing computed
      assignment.
    - [std::shared_ptr<Tensor>] is an index into an arena ([heap]).  The
      callable of an operator holds shared pointers to its node and to both
      operands, so a node of a graph is never freed and the arena only
      grows; a [std::weak_ptr] that cannot be locked is an index outside
      the arena.
    - the [std::function<void()>] stored in [_backward] is one of the three
      lambdas of the source, kept with the pointers it captures ([closure]).
    - member functions are computations in a state-and-failure monad [M]
      over the arena; a failure is a C++ exception ([xt::broadcast_error])
      or undefined behaviour.
    - the recursion of [build_topo] is bounded by a fuel, which
      [topo_order_total] shows is never exhausted.
    - [backward_log] is [backward] together with the record of the calls
      of callables that its last loop makes; [fire_log_run] shows that the
      record does not change the run. *)

From Stdlib Require Import ZArith Floats.
From stdpp Require Import base option list gmap strings.

Local Open Scope float_scope.
Local Open Scope nat_scope.

(** ** The array collaborator *)

Module XArray.

(** A one-dimensional [xt::xarray<double>]: its elements in order.  Every
    array the sources build ([{2.0}], [{3.0}], [{-1.0}], [{scalar}]) is of
    this kind. *)
Definition xarray : Type := list float.

(** [a.shape()], which for one dimension is the number of elements. *)
Definition shape (a : xarray) : nat := length a.

(** [xt::zeros<double>(shape)] and [xt::ones<double>(shape)]. *)
Definition zeros (n : nat) : xarray := replicate n 0%float.
Definition ones (n : nat) : xarray := replicate n 1%float.

(** xtensor's [broadcast_shape] on two one-dimensional shapes: extent 1
    stretches to the other extent, different extents otherwise throw
    [broadcast_error]. *)
Definition broadcast_shape (n m : nat) : option nat :=
  if n =? 1 then Some m
  else if m =? 1 then Some n
  else if n =? m then Some n
  else None.

(** An elementwise binary [xfunction] evaluated into a container. *)
Definition broadcast (f : float → float → float) (a b : xarray)
  : option xarray :=
  if length a =? length b then Some (zip_with f a b)
  else match a, b with
       | [x], _ => Some (map (f x) b)
       | _, [y] => Some (map (λ x, f x y) a)
       | _, _ => None
       end.

(** [a + b] and [a * b]. *)
Definition add : xarray → xarray → option xarray := broadcast PrimFloat.add.
Definition mul : xarray → xarray → option xarray := broadcast PrimFloat.mul.

(** [lhs += rhs], xtensor's [computed_assign (lhs + rhs)]: the sum is
    evaluated with broadcasting and when its shape is larger than the
    shape of [lhs], [lhs] is replaced by a container of that larger
    shape.  When the shape of the sum is smaller (extent 1 against extent
    0) xtensor reads outside [rhs]; that case is a failure here. *)
Definition add_assign (lhs rhs : xarray) : option xarray :=
  match add lhs rhs with
  | Some s => if length s <? length lhs then None else Some s
  | None => None
  end.

(** [a == b] elementwise with IEEE comparison, all elements equal. *)
Definition eqb (a b : xarray) : bool :=
  (length a =? length b) && forallb (λ p, PrimFloat.eqb p.1 p.2) (zip a b).

End XArray.

Import XArray.

(** ** The data model *)

(** A [std::shared_ptr<Tensor>]: the identity of a node. *)
Abbreviation ptr := nat.

(** The callable stored in [_backward]: the default lambda of the
    constructors, or the lambda of [operator+] or [operator*] with its
    captures [out, self, other]. *)
Inductive closure : Type :=
  | Noop
  | AddBackward (out self other : ptr)
  | MulBackward (out self other : ptr).

Record Tensor : Type := mkTensor {
  data : xarray;
  grad : xarray;
  _backward : closure;
  _prev : list ptr;
  _op : string
}.

Definition set_grad (g : xarray) (t : Tensor) : Tensor :=
  {| data := data t; grad := g; _backward := _backward t;
     _prev := _prev t; _op := _op t |}.

Definition set_backward (f : closure) (t : Tensor) : Tensor :=
  {| data := data t; grad := grad t; _backward := f;
     _prev := _prev t; _op := _op t |}.

(** All nodes allocated so far, by address. *)
Abbreviation heap := (list Tensor).

(** ** Computations over the arena *)

Definition M (A : Type) : Type := heap → option (A * heap).

Definition ret {A} (a : A) : M A := λ h, Some (a, h).

Definition bind {A B} (m : M A) (k : A → M B) : M B :=
  λ h, match m h with
       | Some (a, h') => k a h'
       | None => None
       end.

Notation "x <~ m ;; k" := (bind m (λ x, k))
  (at level 100, m at next level, k at level 200, right associativity).
Notation "m ;;; k" := (bind m (λ _, k))
  (at level 100, k at level 200, right associativity).

(** The result of an array operation that may throw. *)
Definition lift {A} (o : option A) : M A :=
  λ h, match o with Some a => Some (a, h) | None => None end.

(** [*p]. *)
Definition deref (p : ptr) : M Tensor :=
  λ h, match h !! p with Some t => Some (t, h) | None => None end.

(** [std::make_shared<Tensor>(...)]. *)
Definition make_shared (t : Tensor) : M ptr :=
  λ h, Some (length h, h ++ [t]).

(** An assignment to a field of [*p]. *)
Definition modify (p : ptr) (f : Tensor → Tensor) : M unit :=
  λ h, match h !! p with
       | Some t => Some (tt, <[p := f t]> h)
       | None => None
       end.

Fixpoint for_each {A} (l : list A) (body : A → M unit) : M unit :=
  match l with
  | [] => ret tt
  | a :: l' => body a ;;; for_each l' body
  end.

(** ** Constructors *)

(** [Tensor(const xt::xarray<double>& data)]. *)
Definition Tensor_leaf (d : xarray) : Tensor :=
  {| data := d; grad := zeros (shape d); _backward := Noop;
     _prev := []; _op := "" |}.

(** [Tensor(data, children, op)]. *)
Definition Tensor_node (d : xarray) (children : list ptr) (op : string)
  : Tensor :=
  {| data := d; grad := zeros (shape d); _backward := Noop;
     _prev := children; _op := op |}.

(** [Tensor::create]. *)
Definition create (d : xarray) : M ptr := make_shared (Tensor_leaf d).

(** ** Operators *)

(** [operator+(const std::shared_ptr<Tensor>& other)]. *)
Definition operator_add (self other : ptr) : M ptr :=
  s <~ deref self ;;
  o <~ deref other ;;
  out_data <~ lift (XArray.add (data s) (data o)) ;;
  out <~ make_shared (Tensor_node out_data [self; other] "+") ;;
  modify out (set_backward (AddBackward out self other)) ;;;
  ret out.

(** [operator*(const std::shared_ptr<Tensor>& other)]. *)
Definition operator_mul (self other : ptr) : M ptr :=
  s <~ deref self ;;
  o <~ deref other ;;
  out_data <~ lift (XArray.mul (data s) (data o)) ;;
  out <~ make_shared (Tensor_node out_data [self; other] "*") ;;
  modify out (set_backward (MulBackward out self other)) ;;;
  ret out.

(** Unary [operator-()]. *)
Definition operator_neg (self : ptr) : M ptr :=
  minus_one <~ create [(-1)%float] ;;
  operator_mul self minus_one.

(** [operator+(double scalar)]. *)
Definition operator_add_scalar (self : ptr) (scalar : float) : M ptr :=
  scalarTensor <~ create [scalar] ;;
  operator_add self scalarTensor.

(** ** The backward rules *)

(** [self->grad += v] for a node [p]. *)
Definition accumulate (p : ptr) (v : xarray) : M unit :=
  t <~ deref p ;;
  g <~ lift (add_assign (grad t) v) ;;
  modify p (set_grad g).

(** A call of the stored callable. *)
Definition call (f : closure) : M unit :=
  match f with
  | Noop => ret tt
  | AddBackward out self other =>
      o <~ deref out ;;
      accumulate self (grad o) ;;;
      o <~ deref out ;;
      accumulate other (grad o)
  | MulBackward out self other =>
      o <~ deref out ;;
      t <~ deref other ;;
      v <~ lift (XArray.mul (grad o) (data t)) ;;
      accumulate self v ;;;
      o <~ deref out ;;
      s <~ deref self ;;
      v <~ lift (XArray.mul (grad o) (data s)) ;;
      accumulate other v
  end.

(** ** The backward pass *)

(** The loop over [v->_prev] inside [build_topo]: every child whose
    [weak_ptr] can be locked is visited by [visit], in order. *)
Fixpoint for_children
    (visit : ptr → gset ptr * list ptr → option (gset ptr * list ptr))
    (h : heap) (children : list ptr) (st : gset ptr * list ptr)
    : option (gset ptr * list ptr) :=
  match children with
  | [] => Some st
  | child :: rest =>
      match h !! child with
      | Some _ =>
          match visit child st with
          | Some st' => for_children visit h rest st'
          | None => None
          end
      | None => for_children visit h rest st
      end
  end.

(** The local lambda [build_topo] of [backward], on the pair of its
    captured variables [visited] and [topo].  The recursion of the source is
    bounded here by [fuel], the nesting depth of calls still allowed;
    [None] means the bound was reached. *)
Fixpoint build_topo (fuel : nat) (h : heap) (v : ptr)
    (st : gset ptr * list ptr) : option (gset ptr * list ptr) :=
  match fuel with
  | 0 => None
  | S fuel' =>
      if decide (v ∈ st.1) then Some st
      else
        match
          for_children (build_topo fuel' h) h
            (from_option _prev [] (h !! v)) ({[v]} ∪ st.1, st.2)
        with
        | Some st' => Some (st'.1, st'.2 ++ [v])
        | None => None
        end
  end.

(** The order [topo] that [backward] builds for [this] in [h]. *)
Definition topo_order (h : heap) (this : ptr) : option (list ptr) :=
  snd <$> build_topo (S (length h)) h this (∅, []).

(** The body of the last loop of [backward]: the call of [_backward] of
    the node [v] that the iterator is at. *)
Definition fire (v : ptr) : M unit :=
  t <~ deref v ;; call (_backward t).

(** The seeding statement of [backward]:
    [this->grad = xt::ones<double>(this->data.shape())]. *)
Definition seed (this : ptr) : M unit :=
  t <~ deref this ;;
  modify this (set_grad (ones (shape (data t)))).

(** [backward()]. *)
Definition backward (this : ptr) : M unit :=
  λ h, (topo <~ lift (topo_order h this) ;;
        seed this ;;;
        for_each (reverse topo) fire) h.

(** ** The driver of tensor.cc *)

(** [main], up to the printing: the pointers [x], [y], [z], [w]. *)
Definition main : M (ptr * ptr * ptr * ptr) :=
  x <~ create [2%float] ;;
  y <~ create [3%float] ;;
  z <~ operator_add x y ;;
  w <~ operator_mul z x ;;
  backward w ;;;
  ret (x, y, z, w).

Definition grad_of (h : heap) (p : ptr) : option xarray := grad <$> h !! p.
Definition data_of (h : heap) (p : ptr) : option xarray := data <$> h !! p.

(** ** Vocabulary of the statements *)

(** What the operators establish for the node at address [i]: a default
    callable has no dependency; the callable of an operator captures the
    node itself as [out] and its two operands, which are the dependency
    list in order and were allocated before it. *)
Definition node_wf (i : ptr) (t : Tensor) : Prop :=
  match _backward t with
  | Noop => _prev t = []
  | AddBackward out self other | MulBackward out self other =>
      out = i ∧ _prev t = [self; other] ∧ self < i ∧ other < i
  end.

(** A graph as the operators build it. *)
Definition wf (h : heap) : Prop :=
  ∀ i t, h !! i = Some t → node_wf i t.

(** The graphs a client can reach: the empty arena, then [create], the
    operators on nodes of the graph, and [backward]. *)
Inductive built : heap → Prop :=
  | built_empty : built []
  | built_create (d : xarray) h p h' :
      built h → create d h = Some (p, h') → built h'
  | built_add self other h p h' :
      built h → operator_add self other h = Some (p, h') → built h'
  | built_mul self other h p h' :
      built h → operator_mul self other h = Some (p, h') → built h'
  | built_neg self h p h' :
      built h → is_Some (h !! self) →
      operator_neg self h = Some (p, h') → built h'
  | built_add_scalar self (x : float) h p h' :
      built h → is_Some (h !! self) →
      operator_add_scalar self x h = Some (p, h') → built h'
  | built_backward root h h' :
      built h → backward root h = Some (tt, h') → built h'.

(** [c] is a live dependency of [u]. *)
Definition dep (h : heap) (u c : ptr) : Prop :=
  ∃ t, h !! u = Some t ∧ c ∈ _prev t ∧ is_Some (h !! c).

(** The subgraph that [backward] walks from a root. *)
Definition reachable (h : heap) : ptr → ptr → Prop := rtc (dep h).

(** In [order] every node comes strictly after each of its dependencies. *)
Definition deps_before (h : heap) (order : list ptr) : Prop :=
  ∀ j u c, order !! j = Some u → dep h u c →
           ∃ i, i < j ∧ order !! i = Some c.

(** What holds of [visited] and [topo] between two calls of [build_topo]
    on nodes below [bound]: the order has no duplicate, its nodes are
    marked, every marked node below [bound] is already in the order, and
    the order respects the dependencies. *)
Record topo_ok (h : heap) (bound : nat) (st : gset ptr * list ptr) : Prop := {
  ok_nodup : NoDup st.2;
  ok_visited : ∀ u, u ∈ st.2 → u ∈ st.1;
  ok_done : ∀ u, u < bound → u ∈ st.1 → u ∈ st.2;
  ok_order : deps_before h st.2
}.

(** What a call of [build_topo] on [v] (or the loop over the children
    [cs] of [v]) adds to a state [st]: the nodes [new], appended to the
    order and marked, each of them reached from one of [roots]. *)
Definition extends (h : heap) (roots : list ptr)
    (st : gset ptr * list ptr) (new : list ptr)
    (res : option (gset ptr * list ptr)) : Prop :=
  res = Some (st.1 ∪ list_to_set new, st.2 ++ new)
  ∧ (∀ u, u ∈ new → ∃ c, c ∈ roots ∧ is_Some (h !! c) ∧ reachable h c u)
  ∧ (∀ c, c ∈ roots → is_Some (h !! c) → c ∈ st.2 ++ new)
  ∧ NoDup (st.2 ++ new)
  ∧ deps_before h (st.2 ++ new).

(** The number of nodes of the arena that are not marked in [visited]. *)
Definition unvisited (h : heap) (visited : gset ptr) : nat :=
  length (filter (λ i, i ∉ visited) (seq 0 (length h))).


(** A leaf with a zero gradient, as [create] makes it. *)
Definition fresh_leaf (h : heap) (p : ptr) (d : xarray) : Prop :=
  ∃ t, h !! p = Some t ∧ data t = d ∧ grad t = zeros (shape d)
       ∧ _backward t = Noop ∧ _prev t = [].

(** No element of the array is a NaN (every finite array is such). *)
Definition no_nan (a : xarray) : Prop :=
  Forall (λ x, is_nan x = false) a.

(** [2 * a], scalar times array. *)
Definition twice (a : xarray) : xarray := map (λ x, (2 * x)%float) a.

(** Negation as the specification words it: the product of the operand
    and a new leaf that holds the one-element array [-1]. *)
Definition negate_spec (a : ptr) : M ptr :=
  λ h, match h !! a with
       | None => None
       | Some ta =>
           let m := length h in
           let out := S (length h) in
           Some (out,
                 h ++ [ {| data := [(-1)%float]; grad := [0%float];
                           _backward := Noop; _prev := []; _op := "" |};
                        {| data := map (λ x, (x * -1)%float) (data ta);
                           grad := zeros (length (data ta));
                           _backward := MulBackward out a m;
                           _prev := [a; m]; _op := "*" |} ])
       end.

(** The statement that a second [backward] doubles every gradient of the
    subgraph of the root. *)
Definition second_call_doubles : Prop :=
  ∀ (h h1 h2 : heap) (root v : ptr) (g1 g2 : xarray),
    wf h →
    backward root h = Some (tt, h1) →
    backward root h1 = Some (tt, h2) →
    reachable h root v →
    grad_of h1 v = Some g1 →
    grad_of h2 v = Some g2 →
    XArray.eqb g2 (twice g1) = true.

(** The statement that gradient and value have one shape in every node. *)
Definition grad_shape_inv (h : heap) : Prop :=
  ∀ p t, h !! p = Some t → shape (grad t) = shape (data t).

(** A scalar added to a three-element leaf, then [backward]: the pointers
    of the leaf and of the sum. *)
Definition scalar_add_scenario : M (ptr * ptr) :=
  x <~ create [1%float; 2%float; 3%float] ;;
  s <~ operator_add_scalar x 5%float ;;
  backward s ;;;
  ret (x, s).

(** The gradient of an operand after the rule of a sum, and after the
    rule of a product, when all shapes agree: [g += out] and
    [g += out * d]. *)
Definition push_add (g out : xarray) : xarray := zip_with PrimFloat.add g out.
Definition push_mul (g out d : xarray) : xarray :=
  zip_with PrimFloat.add g (zip_with PrimFloat.mul out d).

(** The graph of [main] before [backward]: [x], [y], [z = x + y] and
    [w = z * x] at addresses 0 to 3. *)
Definition build_main : M (ptr * ptr * ptr * ptr) :=
  x <~ create [2%float] ;;
  y <~ create [3%float] ;;
  z <~ operator_add x y ;;
  w <~ operator_mul z x ;;
  ret (x, y, z, w).

Definition main_graph : heap :=
  [ Tensor_leaf [2%float];
    Tensor_leaf [3%float];
    {| data := [5%float]; grad := [0%float];
       _backward := AddBackward 2 0 1; _prev := [0; 1]; _op := "+" |};
    {| data := [10%float]; grad := [0%float];
       _backward := MulBackward 3 2 0; _prev := [2; 0]; _op := "*" |} ].

(** [main_graph] with the gradients [gx], [gy], [gz], [gw]. *)
Definition main_with (gx gy gz gw : float) : heap :=
  [ set_grad [gx] (Tensor_leaf [2%float]);
    set_grad [gy] (Tensor_leaf [3%float]);
    {| data := [5%float]; grad := [gz];
       _backward := AddBackward 2 0 1; _prev := [0; 1]; _op := "+" |};
    {| data := [10%float]; grad := [gw];
       _backward := MulBackward 3 2 0; _prev := [2; 0]; _op := "*" |} ].

(** The square of a leaf that holds [3.0], then [backward]. *)
Definition square_scenario : M ptr :=
  x <~ create [3%float] ;;
  p <~ operator_mul x x ;;
  backward p ;;;
  ret x.

(** Everything of a node but its gradient. *)
Definition skeleton (t : Tensor) : xarray * closure * list ptr * string :=
  (data t, _backward t, _prev t, _op t).

(** Two arenas hold the same graph: the same nodes at the same addresses,
    equal in everything but the gradients. *)
Definition same_graph (h h' : heap) : Prop :=
  skeleton <$> h = skeleton <$> h'.

(** Every value and every gradient of the arena has [n] elements. *)
Definition uniform (n : nat) (h : heap) : Prop :=
  ∀ p t, h !! p = Some t → shape (data t) = n ∧ shape (grad t) = n.

(** [g += c] for each [c] of [cs] in turn. *)
Fixpoint add_all (g : xarray) (cs : list xarray) : option xarray :=
  match cs with
  | [] => Some g
  | c :: cs' =>
      match add_assign g c with
      | Some g' => add_all g' cs'
      | None => None
      end
  end.

(** The arrays that a call of the callable [f] adds to the gradient of
    [v], in order, when the gradient of the node of [f] is [G]. *)
Definition pushes (h : heap) (f : closure) (G : xarray) (v : ptr)
  : list xarray :=
  match f with
  | Noop => []
  | AddBackward _ self other =>
      (if decide (self = v) then [G] else [])
      ++ (if decide (other = v) then [G] else [])
  | MulBackward _ self other =>
      (if decide (self = v)
       then option_list (data_of h other ≫= XArray.mul G) else [])
      ++ (if decide (other = v)
          then option_list (data_of h self ≫= XArray.mul G) else [])
  end.

(** Two calls of [backward] on the node that [build] returns from the
    empty arena: the arena after the first and after the second call. *)
Definition backward_twice (build : M ptr) : option (heap * heap) :=
  match build [] with
  | Some (r, h0) =>
      match backward r h0 with
      | Some (_, h1) =>
          match backward r h1 with
          | Some (_, h2) => Some (h1, h2)
          | None => None
          end
      | None => None
      end
  | None => None
  end.

(** The square of a leaf that holds [[3.0]], before [backward]. *)
Definition square_graph : heap :=
  [ Tensor_leaf [3%float];
    {| data := [9%float]; grad := [0%float];
       _backward := MulBackward 1 0 0; _prev := [0; 0]; _op := "*" |} ].

(** The product of a three-element leaf and a one-element leaf, before
    [backward]. *)
Definition stretch_graph : heap :=
  [ Tensor_leaf [1%float; 2%float; 3%float];
    Tensor_leaf [5%float];
    {| data := [5%float; 10%float; 15%float];
       grad := [0%float; 0%float; 0%float];
       _backward := MulBackward 2 0 1; _prev := [0; 1]; _op := "*" |} ].






(** ** Binary64 arithmetic *)

(** The record that [shr] starts from for an exact mantissa. *)
Definition exact (m : positive) : shr_record :=
  {| shr_m := Z.pos m; shr_r := false; shr_s := false |}.

(** The number 2 in the specification format. *)
Definition SF_two : spec_float := S754_finite false 4503599627370496 (-51).

(** The double of a finite number: the next exponent for a normal number
    (an infinity at the top of the range), the doubled mantissa for a
    subnormal one. *)
Definition SF_double (s : bool) (m : positive) (e : Z) : spec_float :=
  if (Z.pos (digits2_pos m) =? prec)%Z
  then if (e + 1 <=? emax - prec)%Z
       then S754_finite s m (e + 1) else S754_infinity s
  else S754_finite s m~0 e.

(** The mantissa that [binary_round_aux] rounds to after a right shift by
    [k] binary digits: to nearest, ties to even. *)
Definition round_shift (M : Z) (k : nat) : Z :=
  let r := Nat.iter k shr_1 {| shr_m := M; shr_r := false; shr_s := false |} in
  round_nearest_even (shr_m r) (loc_of_shr_record r).

(** The last step of [binary_round_aux]: the rounded mantissa [n] at
    exponent [e] is brought back into the format. *)
Definition finish (s : bool) (n e : Z) : spec_float :=
  let '(mrs, e') := shr_fexp prec emax n e loc_Exact in
  match shr_m mrs with
  | Z0 => S754_zero s
  | Zpos m => if (e' <=? emax - prec)%Z then S754_finite s m e'
              else S754_infinity s
  | Zneg _ => S754_nan
  end.

(** * Facts about binary64 arithmetic *)

Section Binary64.

(** The iterator of the specification, as iteration over [nat]. *)
Lemma iter_pos_nat {A} (f : A → A) (p : positive) (x : A) :
  SpecFloat.iter_pos f p x = Nat.iter (Pos.to_nat p) f x.
Proof.
  revert x. induction p as [p IH | p IH |]; intros x; cbn [SpecFloat.iter_pos].
  - rewrite !IH, Pos2Nat.inj_xI.
    replace (S (2 * Pos.to_nat p))
      with (Pos.to_nat p + (Pos.to_nat p + 1)) by lia.
    rewrite !Nat.iter_add. reflexivity.
  - rewrite !IH, Pos2Nat.inj_xO.
    replace (2 * Pos.to_nat p) with (Pos.to_nat p + Pos.to_nat p) by lia.
    rewrite Nat.iter_add. reflexivity.
  - reflexivity.
Qed.

(** Shifting right what was shifted left loses nothing. *)
Lemma shr_1_iter_xO (k : nat) (m : positive) :
  Nat.iter k shr_1 (exact (Nat.iter k xO m)) = exact m.
Proof.
  induction k as [|k IH]; [reflexivity|].
  rewrite Nat.iter_succ_r. simpl. exact IH.
Qed.

(** A left shift by [k] adds [k] binary digits. *)
Lemma digits2_iter_xO (k : nat) (m : positive) :
  Z.pos (digits2_pos (Nat.iter k xO m))
  = (Z.pos (digits2_pos m) + Z.of_nat k)%Z.
Proof.
  induction k as [|k IH]; simpl Nat.iter; [lia|].
  simpl digits2_pos. lia.
Qed.

(** The alignment step on a canonical mantissa shifted left by [k]. *)
Lemma shr_fexp_exact (k : nat) (m : positive) (e : Z) :
  fexp prec emax (Z.pos (digits2_pos m) + e) = e →
  shr_fexp prec emax (Z.pos (Nat.iter k xO m)) (e - Z.of_nat k) loc_Exact
  = (exact m, e).
Proof.
  intros Hc. unfold shr_fexp. simpl Zdigits2. rewrite digits2_iter_xO.
  replace (Z.pos (digits2_pos m) + Z.of_nat k + (e - Z.of_nat k))%Z
    with (Z.pos (digits2_pos m) + e)%Z by lia.
  rewrite Hc.
  replace (e - (e - Z.of_nat k))%Z with (Z.of_nat k) by lia.
  destruct k as [|k].
  - simpl. f_equal. lia.
  - unfold shr. change (Z.of_nat (S k)) with (Z.pos (Pos.of_succ_nat k)).
    cbv beta iota.
    rewrite iter_pos_nat, SuccNat2Pos.id_succ.
    change (shr_record_of_loc (Z.pos (Nat.iter (S k) xO m)) loc_Exact)
      with (exact (Nat.iter (S k) xO m)).
    rewrite shr_1_iter_xO. f_equal. lia.
Qed.

(** Rounding is exact on [m * 2^k] at exponent [e - k] when [m] at [e]
    is canonical. *)
Lemma round_exact (s : bool) (k : nat) (m : positive) (e : Z) :
  fexp prec emax (Z.pos (digits2_pos m) + e) = e →
  binary_round_aux prec emax s (Z.pos (Nat.iter k xO m)) (e - Z.of_nat k)
    loc_Exact
  = if (e <=? emax - prec)%Z then S754_finite s m e else S754_infinity s.
Proof.
  intros Hc. unfold binary_round_aux. rewrite shr_fexp_exact by exact Hc.
  cbn [exact shr_m loc_of_shr_record shr_r shr_s round_nearest_even].
  pose proof (shr_fexp_exact 0 m e Hc) as H0. simpl Nat.iter in H0.
  replace (e - Z.of_nat 0)%Z with e in H0 by lia. rewrite H0.
  reflexivity.
Qed.

(** What validity says of a finite number. *)
Lemma valid_finite (s : bool) (m : positive) (e : Z) :
  valid_binary (S754_finite s m e) = true →
  fexp prec emax (Z.pos (digits2_pos m) + e) = e
  ∧ (e <=? emax - prec)%Z = true.
Proof.
  unfold SpecFloat.valid_binary, bounded, canonical_mantissa.
  intros [H1 H2]%andb_prop. split; [|exact H2]. by apply Z.eqb_eq.
Qed.

(** [1 * x] is [x], for every binary64 number. *)
Lemma mul_1_l (x : float) : (1 * x)%float = x.
Proof.
  apply Prim2SF_inj. rewrite mul_spec.
  pose proof (Prim2SF_valid x) as Hv.
  change (Prim2SF 1) with (S754_finite false 4503599627370496 (-52)).
  destruct (Prim2SF x) as [s | s | | s m e]; try reflexivity.
  apply valid_finite in Hv as [Hc Hb].
  unfold SF64mul, SFmul.
  change (4503599627370496 * m)%positive with (Nat.iter 52 xO m).
  replace (-52 + e)%Z with (e - Z.of_nat 52)%Z by lia.
  rewrite round_exact by exact Hc. rewrite Hb. reflexivity.
Qed.

(** A canonical mantissa is normal (full precision) or subnormal. *)
Lemma fexp_cases (m : positive) (e : Z) :
  fexp prec emax (Z.pos (digits2_pos m) + e) = e →
  (Z.pos (digits2_pos m) =? prec)%Z = true
    ∧ fexp prec emax (Z.pos (digits2_pos m) + (e + 1)) = (e + 1)%Z
  ∨ (Z.pos (digits2_pos m) =? prec)%Z = false
    ∧ fexp prec emax (Z.pos (digits2_pos m~0) + e) = e.
Proof.
  simpl digits2_pos. unfold fexp, SpecFloat.emin, prec, emax. lia.
Qed.

(** [x + x] for a finite [x]. *)
Lemma SFadd_diag_finite (s : bool) (m : positive) (e : Z) :
  valid_binary (S754_finite s m e) = true →
  SF64add (S754_finite s m e) (S754_finite s m e) = SF_double s m e.
Proof.
  intros [Hc Hb]%valid_finite.
  unfold SF64add, SFadd, SF_double.
  rewrite Z.min_id.
  unfold shl_align at 1 2. rewrite Z.sub_diag. cbn [fst].
  replace (cond_Zopp s (Z.pos m) + cond_Zopp s (Z.pos m))%Z
    with (cond_Zopp s (Z.pos m~0)) by (destruct s; simpl; lia).
  replace (binary_normalize prec emax (cond_Zopp s (Z.pos m~0)) e false)
    with (binary_round prec emax s m~0 e) by (by destruct s).
  unfold binary_round, shl_align.
  destruct (fexp_cases m e Hc) as [[-> Hc'] | [-> Hc']].
  - replace (Z.pos (digits2_pos m~0) + e)%Z
      with (Z.pos (digits2_pos m) + (e + 1))%Z by (simpl digits2_pos; lia).
    rewrite Hc'. replace (e + 1 - e)%Z with 1%Z by lia. cbv beta iota.
    change (Z.pos m~0) with (Z.pos (Nat.iter 1 xO m)).
    replace e with (e + 1 - Z.of_nat 1)%Z at 1 by lia.
    by rewrite round_exact.
  - rewrite Hc', Z.sub_diag. cbv beta iota.
    change (Z.pos m~0) with (Z.pos (Nat.iter 0 xO (m~0)%positive)) at 1.
    replace e with (e - Z.of_nat 0)%Z at 1 by lia.
    by rewrite round_exact, Hb.
Qed.

(** [2 * x] for a finite [x]. *)
Lemma SFmul_two_finite (s : bool) (m : positive) (e : Z) :
  valid_binary (S754_finite s m e) = true →
  SF64mul SF_two (S754_finite s m e) = SF_double s m e.
Proof.
  intros [Hc Hb]%valid_finite.
  unfold SF64mul, SFmul, SF_two, SF_double.
  change (xorb false s) with s.
  destruct (fexp_cases m e Hc) as [[-> Hc'] | [-> Hc']].
  - change (4503599627370496 * m)%positive with (Nat.iter 52 xO m).
    replace (-51 + e)%Z with (e + 1 - Z.of_nat 52)%Z by lia.
    by rewrite round_exact.
  - change (4503599627370496 * m)%positive
      with (Nat.iter 51 xO (m~0)%positive).
    replace (-51 + e)%Z with (e - Z.of_nat 51)%Z by lia.
    by rewrite round_exact, Hb.
Qed.

(** The double of a finite number is not a NaN. *)
Lemma SFeqb_double (s : bool) (m : positive) (e : Z) :
  SFeqb (SF_double s m e) (SF_double s m e) = true.
Proof.
  unfold SF_double.
  repeat case_match; unfold SFeqb, SFcompare;
    rewrite ?Z.compare_refl, ?Pos.compare_cont_refl; by destruct s.
Qed.

(** [0 + 1 * x == x] unless [x] is a NaN. *)
Lemma add_0_mul_1 (x : float) :
  (0 + 1 * x =? x)%float = negb (is_nan x).
Proof.
  rewrite mul_1_l. unfold is_nan. rewrite negb_involutive.
  rewrite !FloatAxioms.eqb_spec, add_spec.
  change (Prim2SF 0) with (S754_zero false).
  destruct (Prim2SF x) as [s | s | | s m e]; try reflexivity; by destruct s.
Qed.

(** [(0 + 1 * x) + 1 * x == 2 * x] unless [x] is a NaN. *)
Lemma add_twice_eqb (x : float) :
  is_nan x = false → (0 + 1 * x + 1 * x =? 2 * x)%float = true.
Proof.
  rewrite mul_1_l. unfold is_nan.
  rewrite !FloatAxioms.eqb_spec, !add_spec, mul_spec.
  pose proof (Prim2SF_valid x) as Hv.
  change (Prim2SF 0) with (S754_zero false).
  change (Prim2SF 2) with SF_two.
  destruct (Prim2SF x) as [s | s | | s m e]; try (by destruct s); try done.
  intros _.
  change (SF64add (S754_zero false) (S754_finite s m e))
    with (S754_finite s m e).
  rewrite SFadd_diag_finite, SFmul_two_finite by exact Hv.
  apply SFeqb_double.
Qed.

(** [(0 + 1 * x) + 1 * x] is the double of [0 + 1 * x]. *)
Lemma add_twice_double (x : float) :
  (0 + 1 * x + 1 * x)%float = (2 * (0 + 1 * x))%float.
Proof.
  rewrite mul_1_l. apply Prim2SF_inj.
  rewrite mul_spec, !add_spec.
  pose proof (Prim2SF_valid x) as Hv.
  change (Prim2SF 0) with (S754_zero false).
  change (Prim2SF 2) with SF_two.
  destruct (Prim2SF x) as [s | s | | s m e]; try (by destruct s); try done.
  change (SF64add (S754_zero false) (S754_finite s m e))
    with (S754_finite s m e).
  by rewrite SFadd_diag_finite, SFmul_two_finite.
Qed.

End Binary64.

(** * Facts about the array collaborator *)

Section Arrays.

Implicit Types (a b : xarray) (f : float → float → float).

Lemma broadcast_same f a b :
  length a = length b → broadcast f a b = Some (zip_with f a b).
Proof.
  intros Hl. unfold broadcast. by rewrite Hl, Nat.eqb_refl.
Qed.

Lemma broadcast_one_r f a (y : float) :
  broadcast f a [y] = Some (map (λ x, f x y) a).
Proof.
  unfold broadcast. destruct a as [|x [|x' a]]; reflexivity.
Qed.

Lemma broadcast_one_l f (x : float) b :
  broadcast f [x] b = Some (map (f x) b).
Proof.
  unfold broadcast. destruct b as [|y [|y' b]]; reflexivity.
Qed.

Lemma broadcast_length f a b c :
  broadcast f a b = Some c →
  broadcast_shape (length a) (length b) = Some (length c).
Proof.
  unfold broadcast, broadcast_shape.
  destruct (length a =? length b) eqn:Hab.
  - apply Nat.eqb_eq in Hab. intros [= <-].
    rewrite length_zip_with, <- Hab, Nat.min_id.
    by repeat case_match.
  - destruct a as [|x [|x' a]], b as [|y [|y' b]];
      intros [= <-]; simpl in *; try done;
      by rewrite ?length_map.
Qed.

Lemma add_assign_same a b :
  length a = length b →
  add_assign a b = Some (zip_with PrimFloat.add a b).
Proof.
  intros Hl. unfold add_assign, XArray.add.
  rewrite broadcast_same by done.
  rewrite length_zip_with, <- Hl, Nat.min_id, Nat.ltb_irrefl. done.
Qed.

Lemma mul_same a b :
  length a = length b → XArray.mul a b = Some (zip_with PrimFloat.mul a b).
Proof. apply broadcast_same. Qed.

Lemma zip_with_replicate_l f (c : float) b :
  zip_with f (replicate (length b) c) b = map (f c) b.
Proof. induction b as [|y b IH]; simpl; [done | by rewrite IH]. Qed.

Lemma length_zeros n : length (zeros n) = n.
Proof. apply length_replicate. Qed.

Lemma length_ones n : length (ones n) = n.
Proof. apply length_replicate. Qed.

Lemma eqb_map_l (g : float → float) b :
  Forall (λ y, PrimFloat.eqb (g y) y = true) b →
  XArray.eqb (map g b) b = true.
Proof.
  intros Hall. unfold XArray.eqb.
  rewrite length_map, Nat.eqb_refl. simpl.
  induction Hall as [|y b Hy _ IH]; simpl; [done|].
  by rewrite Hy, IH.
Qed.

Lemma eqb_map2 (g k : float → float) a :
  Forall (λ y, PrimFloat.eqb (g y) (k y) = true) a →
  XArray.eqb (map g a) (map k a) = true.
Proof.
  intros Hall. unfold XArray.eqb.
  rewrite !length_map, Nat.eqb_refl. simpl.
  induction Hall as [|y b Hy _ IH]; simpl; [done|].
  by rewrite Hy, IH.
Qed.

End Arrays.

(** * The operators as equations *)

Section Operators.

Implicit Types (h : heap) (t : Tensor) (p self other : ptr).

Lemma insert_snoc h t t' : <[length h := t']> (h ++ [t]) = h ++ [t'].
Proof.
  rewrite insert_app_r_alt by lia. by rewrite Nat.sub_diag.
Qed.

Lemma lookup_snoc h t : (h ++ [t]) !! length h = Some t.
Proof. rewrite lookup_app_r by lia. by rewrite Nat.sub_diag. Qed.

Lemma create_eq (d : xarray) h :
  create d h = Some (length h, h ++ [Tensor_leaf d]).
Proof. reflexivity. Qed.

Lemma operator_add_eq self other h :
  operator_add self other h =
    s ← h !! self; o ← h !! other; d ← XArray.add (data s) (data o);
    Some (length h,
          h ++ [ {| data := d; grad := zeros (shape d);
                    _backward := AddBackward (length h) self other;
                    _prev := [self; other]; _op := "+" |} ]).
Proof.
  unfold operator_add, bind, deref, lift, make_shared, modify, ret.
  destruct (h !! self) as [s|]; [|done].
  destruct (h !! other) as [o|]; [|done]. simpl.
  destruct (XArray.add (data s) (data o)) as [d|]; [|done]. simpl.
  by rewrite lookup_snoc, insert_snoc.
Qed.

Lemma operator_mul_eq self other h :
  operator_mul self other h =
    s ← h !! self; o ← h !! other; d ← XArray.mul (data s) (data o);
    Some (length h,
          h ++ [ {| data := d; grad := zeros (shape d);
                    _backward := MulBackward (length h) self other;
                    _prev := [self; other]; _op := "*" |} ]).
Proof.
  unfold operator_mul, bind, deref, lift, make_shared, modify, ret.
  destruct (h !! self) as [s|]; [|done].
  destruct (h !! other) as [o|]; [|done]. simpl.
  destruct (XArray.mul (data s) (data o)) as [d|]; [|done]. simpl.
  by rewrite lookup_snoc, insert_snoc.
Qed.

Lemma operator_neg_eq self h :
  operator_neg self h = operator_mul self (length h) (h ++ [Tensor_leaf [(-1)%float]]).
Proof. reflexivity. Qed.

Lemma operator_add_scalar_eq self (x : float) h :
  operator_add_scalar self x h
  = operator_add self (length h) (h ++ [Tensor_leaf [x]]).
Proof. reflexivity. Qed.

End Operators.

(** * The graph invariant *)

Section Invariant.

Implicit Types (h : heap) (t : Tensor) (p self other : ptr).

Lemma wf_nil : wf [].
Proof. intros i t Hi. by destruct i. Qed.

Lemma wf_snoc h t : wf h → node_wf (length h) t → wf (h ++ [t]).
Proof.
  intros Hwf Ht i t' Hi.
  apply lookup_app_Some in Hi as [Hi | [Hge Hi]]; [by apply Hwf|].
  apply list_lookup_singleton_Some in Hi as [Hi ->].
  replace i with (length h) by lia. done.
Qed.

Lemma wf_lookup_lt h i t c :
  wf h → h !! i = Some t → c ∈ _prev t → c < i.
Proof.
  intros Hwf Hi Hc. specialize (Hwf i t Hi). unfold node_wf in Hwf.
  destruct (_backward t) as [|out self other|out self other].
  - rewrite Hwf in Hc. by apply elem_of_nil in Hc.
  - destruct Hwf as (_ & Hp & ? & ?). rewrite Hp in Hc.
    apply elem_of_cons in Hc as [-> | Hc]; [done|].
    by apply list_elem_of_singleton in Hc as ->.
  - destruct Hwf as (_ & Hp & ? & ?). rewrite Hp in Hc.
    apply elem_of_cons in Hc as [-> | Hc]; [done|].
    by apply list_elem_of_singleton in Hc as ->.
Qed.

Lemma wf_set_grad h p t (g : xarray) :
  wf h → h !! p = Some t → wf (<[p := set_grad g t]> h).
Proof.
  intros Hwf Hp i t' Hi.
  destruct (decide (i = p)) as [-> | Hne].
  - rewrite list_lookup_insert_eq in Hi by (by eapply lookup_lt_Some).
    injection Hi as <-. by apply Hwf in Hp.
  - rewrite list_lookup_insert_ne in Hi by done. by apply Hwf.
Qed.

Lemma create_wf (d : xarray) h p h' :
  wf h → create d h = Some (p, h') → wf h'.
Proof.
  intros Hwf [= <- <-]. by apply wf_snoc.
Qed.

Lemma operator_add_wf self other h p h' :
  wf h → operator_add self other h = Some (p, h') → wf h'.
Proof.
  intros Hwf. rewrite operator_add_eq. intros Heq.
  destruct (h !! self) as [s|] eqn:Hs; [|done].
  destruct (h !! other) as [o|] eqn:Ho; [|done]. simpl in Heq.
  destruct (XArray.add (data s) (data o)) as [d|]; [|done].
  injection Heq as <- <-. apply wf_snoc; [done|].
  apply lookup_lt_Some in Hs, Ho. by repeat split.
Qed.

Lemma operator_mul_wf self other h p h' :
  wf h → operator_mul self other h = Some (p, h') → wf h'.
Proof.
  intros Hwf. rewrite operator_mul_eq. intros Heq.
  destruct (h !! self) as [s|] eqn:Hs; [|done].
  destruct (h !! other) as [o|] eqn:Ho; [|done]. simpl in Heq.
  destruct (XArray.mul (data s) (data o)) as [d|]; [|done].
  injection Heq as <- <-. apply wf_snoc; [done|].
  apply lookup_lt_Some in Hs, Ho. by repeat split.
Qed.

Lemma operator_neg_wf self h p h' :
  wf h → operator_neg self h = Some (p, h') → wf h'.
Proof.
  intros Hwf. rewrite operator_neg_eq. apply operator_mul_wf.
  by apply wf_snoc.
Qed.

Lemma operator_add_scalar_wf self (x : float) h p h' :
  wf h → operator_add_scalar self x h = Some (p, h') → wf h'.
Proof.
  intros Hwf. rewrite operator_add_scalar_eq. apply operator_add_wf.
  by apply wf_snoc.
Qed.

End Invariant.

(** * The topological order *)

Section Topological.

Implicit Types (h : heap) (st : gset ptr * list ptr) (v u c : ptr).

Lemma dep_lt h u c : wf h → dep h u c → c < u.
Proof. intros Hwf (t & Hu & Hc & _). by eapply wf_lookup_lt. Qed.

Lemma reachable_le h u v : wf h → reachable h u v → v ≤ u.
Proof.
  intros Hwf. induction 1 as [|u c v Hd _ IH]; [done|].
  apply (dep_lt h u c Hwf) in Hd. lia.
Qed.

Lemma topo_ok_empty h bound : topo_ok h bound (∅, []).
Proof.
  split; simpl.
  - constructor.
  - intros u Hu. by apply elem_of_nil in Hu.
  - intros u _ Hu. by apply elem_of_empty in Hu.
  - intros j u c Hj. by rewrite lookup_nil in Hj.
Qed.

Lemma topo_ok_mono h bound bound' st :
  bound' ≤ bound → topo_ok h bound st → topo_ok h bound' st.
Proof.
  intros Hle [H1 H2 H3 H4]. split; try done.
  intros u Hu. apply H3. lia.
Qed.

Lemma topo_ok_extend h bound st new :
  topo_ok h bound st →
  NoDup (st.2 ++ new) → deps_before h (st.2 ++ new) →
  topo_ok h bound (st.1 ∪ list_to_set new, st.2 ++ new).
Proof.
  intros [H1 H2 H3 H4] Hnd Hord. split; simpl; try done.
  - intros u [Hu | Hu]%elem_of_app.
    + apply elem_of_union_l. by apply H2.
    + apply elem_of_union_r. by apply elem_of_list_to_set.
  - intros u Hlt [Hu | Hu]%elem_of_union.
    + apply elem_of_app. left. by apply H3.
    + apply elem_of_app. right. by apply elem_of_list_to_set in Hu.
Qed.

Lemma topo_ok_mark h v st :
  topo_ok h (S v) st → topo_ok h v ({[v]} ∪ st.1, st.2).
Proof.
  intros [H1 H2 H3 H4]. split; simpl; try done.
  - intros u Hu. apply elem_of_union_r. by apply H2.
  - intros u Hlt [Hu | Hu]%elem_of_union.
    + apply elem_of_singleton in Hu. lia.
    + apply H3; [lia | done].
Qed.

Lemma extends_nil h roots st :
  topo_ok h 0 st → (∀ c, c ∈ roots → is_Some (h !! c) → c ∈ st.2) →
  extends h roots st [] (Some st).
Proof.
  intros [H1 H2 H3 H4] Hin. unfold extends.
  rewrite app_nil_r, list_to_set_nil, (right_id_L ∅ (∪)).
  destruct st as [vis order]. repeat split; try done.
  intros u Hu. by apply elem_of_nil in Hu.
Qed.

(** The loop over the children, for any [visit] that behaves on the
    nodes below [v]. *)
Lemma for_children_ok h v visit :
  wf h →
  (∀ c st, c < v → is_Some (h !! c) → topo_ok h (S c) st →
           ∃ new, extends h [c] st new (visit c st)) →
  ∀ cs st, (∀ c, c ∈ cs → c < v) → topo_ok h v st →
           ∃ new, extends h cs st new (for_children visit h cs st).
Proof.
  intros Hwf Hvisit cs.
  induction cs as [|c cs IH]; intros st Hcs Hok.
  { exists []. apply extends_nil.
    - eapply topo_ok_mono; [|done]. lia.
    - intros c Hc. by apply elem_of_nil in Hc. }
  assert (Hcs' : ∀ c', c' ∈ cs → c' < v).
  { intros c' Hc'. apply Hcs. by apply elem_of_cons; right. }
  assert (Hcv : c < v) by (apply Hcs; apply elem_of_cons; by left).
  cbn [for_children]. destruct (h !! c) as [tc|] eqn:Hc.
  - destruct (Hvisit c st Hcv) as (new1 & -> & Hr1 & Hin1 & Hnd1 & Hord1).
    { by rewrite Hc. }
    { eapply topo_ok_mono; [|done]. lia. }
    destruct (IH (st.1 ∪ list_to_set new1, st.2 ++ new1) Hcs')
      as (new2 & Hres & Hr2 & Hin2 & Hnd2 & Hord2).
    { by apply topo_ok_extend. }
    cbn [fst snd] in *. rewrite <- (assoc_L (++)) in Hin2, Hnd2, Hord2.
    exists (new1 ++ new2). unfold extends.
    rewrite Hres, list_to_set_app_L, (assoc_L (∪)), (assoc_L (++)).
    rewrite <- (assoc_L (++)).
    repeat split; try done.
    + intros u [Hu | Hu]%elem_of_app.
      * destruct (Hr1 u Hu) as (c' & Hc'%list_elem_of_singleton & ? & ?).
        exists c'. split; [by apply elem_of_cons; left | done].
      * destruct (Hr2 u Hu) as (c' & ? & ? & ?).
        exists c'. split; [by apply elem_of_cons; right | done].
    + intros c' [-> | Hc']%elem_of_cons Hsome.
      * rewrite (assoc_L (++)). apply elem_of_app. left.
        apply Hin1; [by apply list_elem_of_singleton | done].
      * by apply Hin2.
  - destruct (IH st Hcs' Hok) as (new & Hres & Hr & Hin & Hnd & Hord).
    exists new. unfold extends. repeat split; try done.
    + intros u Hu. destruct (Hr u Hu) as (c' & ? & ? & ?).
      exists c'. split; [by apply elem_of_cons; right | done].
    + intros c' [-> | Hc']%elem_of_cons Hsome.
      * rewrite Hc in Hsome. by destruct Hsome.
      * by apply Hin.
Qed.

(** A call of [build_topo] on a node of the graph, with enough fuel. *)
Lemma build_topo_ok fuel h :
  wf h →
  ∀ v st, v < fuel → is_Some (h !! v) → topo_ok h (S v) st →
          ∃ new, extends h [v] st new (build_topo fuel h v st).
Proof.
  intros Hwf. induction fuel as [|fuel IH]; intros v st Hfuel Hv Hok; [lia|].
  cbn [build_topo]. destruct (decide (v ∈ st.1)) as [Hin | Hnin].
  { exists []. apply extends_nil.
    - eapply topo_ok_mono; [|done]. lia.
    - intros c ->%list_elem_of_singleton _.
      apply (ok_done _ _ _ Hok); [lia | done]. }
  destruct Hv as [t Ht]. rewrite Ht. cbn [from_option].
  destruct (for_children_ok h v (build_topo fuel h) Hwf) with
    (cs := _prev t) (st := ({[v]} ∪ st.1, st.2))
    as (new & Hres & Hr & Hcin & Hnd & Hord).
  { intros c st' Hc. apply IH. lia. }
  { intros c Hc. by eapply wf_lookup_lt. }
  { by apply topo_ok_mark. }
  rewrite Hres. cbn [fst snd] in *.
  assert (Hlt : ∀ u, u ∈ new → u < v).
  { intros u Hu. destruct (Hr u Hu) as (c & Hc & _ & Hcu).
    apply (reachable_le h c u Hwf) in Hcu.
    pose proof (wf_lookup_lt h v t c Hwf Ht Hc). lia. }
  assert (Hfresh : v ∉ st.2 ++ new).
  { intros [Hv | Hv]%elem_of_app.
    - apply Hnin. by apply (ok_visited _ _ _ Hok).
    - apply Hlt in Hv. lia. }
  exists (new ++ [v]). unfold extends.
  rewrite list_to_set_app_L, list_to_set_singleton_L, !(assoc_L (++)).
  repeat split.
  - do 2 f_equal. apply set_eq. intros x. rewrite !elem_of_union. tauto.
  - intros u [Hu | ->%list_elem_of_singleton]%elem_of_app.
    + destruct (Hr u Hu) as (c & Hc & Hsome & Hcu).
      exists v. split; [by apply list_elem_of_singleton|].
      split; [by rewrite Ht|].
      eapply rtc_l; [|done]. by exists t.
    + exists v. split; [by apply list_elem_of_singleton|].
      split; [by rewrite Ht | apply rtc_refl].
  - intros c ->%list_elem_of_singleton _.
    apply elem_of_app. right. by apply list_elem_of_singleton.
  - apply NoDup_app. split; [done|]. split.
    + intros u Hu ->%list_elem_of_singleton. done.
    + apply NoDup_singleton.
  - intros j u c Hj Hd.
    destruct (decide (j < length (st.2 ++ new))) as [Hlen | Hlen].
    + rewrite lookup_app_l in Hj by done.
      destruct (Hord j u c Hj Hd) as (i & Hi & Hic).
      exists i. split; [done|]. rewrite lookup_app_l by lia. done.
    + rewrite lookup_app_r in Hj by lia.
      apply list_lookup_singleton_Some in Hj as [Hj0 <-].
      destruct Hd as (t' & Ht' & Hc & Hsome).
      rewrite Ht in Ht'. injection Ht' as <-.
      specialize (Hcin c Hc Hsome).
      apply list_elem_of_lookup in Hcin as [i Hi].
      exists i. pose proof (lookup_lt_Some _ _ _ Hi).
      split; [lia|]. by rewrite lookup_app_l.
Qed.

(** The order that [backward] builds. *)
Lemma topo_order_ok h root :
  wf h → is_Some (h !! root) →
  ∃ topo, topo_order h root = Some topo
          ∧ NoDup topo
          ∧ (∀ v, v ∈ topo ↔ reachable h root v)
          ∧ deps_before h topo.
Proof.
  intros Hwf Hroot. unfold topo_order.
  destruct (build_topo_ok (S (length h)) h Hwf root (∅, []))
    as (new & Hres & Hr & Hin & Hnd & Hord).
  { destruct Hroot as [t Ht]. apply lookup_lt_Some in Ht. lia. }
  { done. }
  { apply topo_ok_empty. }
  rewrite Hres. cbn [fst snd fmap option_fmap option_map app] in *.
  exists new. repeat split; try done.
  - intros Hv. destruct (Hr v Hv) as (c & ->%list_elem_of_singleton & _ & ?).
    done.
  - intros Hv. unfold reachable in Hv. revert v Hv.
    apply (rtc_ind_r (λ v, v ∈ new)).
    + apply Hin; [by apply list_elem_of_singleton | done].
    + intros u c _ Hd IH.
      apply list_elem_of_lookup in IH as [j Hj].
      destruct (Hord j u c Hj Hd) as (i & _ & Hi).
      by eapply list_elem_of_lookup_2.
Qed.

End Topological.

(** * Termination of the topological pass *)

Section Totality.
Implicit Types (h : heap) (st : gset ptr * list ptr) (v c : ptr).

Lemma filter_length_mono {A} (P Q : A → Prop)
    `{∀ x, Decision (P x)} `{∀ x, Decision (Q x)} (l : list A) :
  (∀ x, P x → Q x) → length (filter P l) ≤ length (filter Q l).
Proof.
intros HPQ. induction l as [|x l IH]; [done|].
destruct (decide (P x)) as [HP | HP].
- rewrite (filter_cons_True P) by done.
  rewrite (filter_cons_True Q) by auto. cbn. lia.
- rewrite (filter_cons_False P) by done.
  destruct (decide (Q x)).
  + rewrite (filter_cons_True Q) by done. cbn. lia.
  + by rewrite (filter_cons_False Q).
Qed.

Lemma filter_length_lt {A} (P Q : A → Prop)
    `{∀ x, Decision (P x)} `{∀ x, Decision (Q x)} (l : list A) (y : A) :
  (∀ x, P x → Q x) → y ∈ l → Q y → ¬ P y →
  length (filter P l) < length (filter Q l).
Proof.
intros HPQ Hy HQ HP. induction l as [|x l IH]; [by apply elem_of_nil in Hy|].
apply elem_of_cons in Hy as [<- | Hy].
- rewrite (filter_cons_False P), (filter_cons_True Q) by done.
  pose proof (filter_length_mono P Q l HPQ). cbn. lia.
- specialize (IH Hy). destruct (decide (P x)) as [HPx | HPx].
  + rewrite (filter_cons_True P) by done.
    rewrite (filter_cons_True Q) by auto. cbn. lia.
  + rewrite (filter_cons_False P) by done.
    destruct (decide (Q x)).
    * rewrite (filter_cons_True Q) by done. cbn. lia.
    * by rewrite (filter_cons_False Q).
Qed.

Lemma unvisited_mono h (vis vis' : gset ptr) :
  vis ⊆ vis' → unvisited h vis' ≤ unvisited h vis.
Proof.
intros Hsub. apply filter_length_mono. intros x Hx Hin. by apply Hx, Hsub.
Qed.

Lemma unvisited_mark h (vis : gset ptr) v :
  v < length h → v ∉ vis → unvisited h ({[v]} ∪ vis) < unvisited h vis.
Proof.
intros Hv Hnin. apply (filter_length_lt _ _ _ v); try done.
- intros x Hx Hin. apply Hx. by apply elem_of_union_r.
- apply elem_of_seq. lia.
- intros Hx. apply Hx. apply elem_of_union_l. by apply elem_of_singleton.
Qed.

(** The loop over the children returns when [visit] does. *)
Lemma for_children_total h visit (bound : nat) :
  (∀ c st, is_Some (h !! c) → unvisited h st.1 ≤ bound →
           ∃ st', visit c st = Some st' ∧ st.1 ⊆ st'.1) →
  ∀ cs st, unvisited h st.1 ≤ bound →
           ∃ st', for_children visit h cs st = Some st' ∧ st.1 ⊆ st'.1.
Proof.
intros Hvisit cs. induction cs as [|c cs IH]; intros st Hst.
{ by exists st. }
cbn [for_children]. destruct (h !! c) as [t|] eqn:Hc; [|by apply IH].
destruct (Hvisit c st) as (st1 & -> & Hsub1); [by rewrite Hc | done |].
destruct (IH st1) as (st2 & Hres & Hsub2).
{ pose proof (unvisited_mono h _ _ Hsub1). lia. }
exists st2. split; [done|]. by etrans.
Qed.

(** [build_topo] returns on every heap when the fuel exceeds the number
    of nodes not yet visited. *)
Lemma build_topo_total fuel h v st :
  unvisited h st.1 < fuel →
  ∃ st', build_topo fuel h v st = Some st' ∧ st.1 ⊆ st'.1.
Proof.
revert v st. induction fuel as [|fuel IH]; intros v st Hfuel; [lia|].
cbn [build_topo]. destruct (decide (v ∈ st.1)) as [Hin | Hnin].
{ by exists st. }
destruct (h !! v) as [t|] eqn:Hv; cbn [from_option for_children].
- pose proof (unvisited_mark h st.1 v (lookup_lt_Some _ _ _ Hv) Hnin) as Hlt.
  remember (unvisited h ({[v]} ∪ st.1)) as k eqn:Hk.
  destruct (for_children_total h (build_topo fuel h) k)
    with (cs := _prev t) (st := ({[v]} ∪ st.1, st.2))
    as (st1 & -> & Hsub).
  { intros c st' _ Hst'. apply IH. lia. }
  { cbn [fst]. lia. }
  eexists. split; [done|]. cbn [fst] in *.
  intros x Hx. apply Hsub. by apply elem_of_union_r.
- eexists. split; [done|]. cbn [fst].
  intros x Hx. by apply elem_of_union_r.
Qed.

(** The first step of [backward] returns on every heap. *)
Lemma topo_order_total h root : is_Some (topo_order h root).
Proof.
unfold topo_order.
destruct (build_topo_total (S (length h)) h root (∅, [])) as (st & -> & _).
- unfold unvisited. cbn [fst]. apply Nat.lt_succ_r.
  etrans; [apply length_filter|]. by rewrite length_seq.
- by eexists.
Qed.
End Totality.

(** * The backward pass *)

Section Backward.

Implicit Types (h : heap) (t : Tensor) (p v root : ptr) (f : closure).

Lemma bind_Some {A B} (m : M A) (k : A → M B) h (r : B * heap) :
  bind m k h = Some r ↔ ∃ a h1, m h = Some (a, h1) ∧ k a h1 = Some r.
Proof.
  unfold bind. split.
  - destruct (m h) as [[a h1]|]; [|done]. intros Hk. by exists a, h1.
  - intros (a & h1 & -> & Hk). done.
Qed.

Lemma deref_Some p h t h' :
  deref p h = Some (t, h') ↔ h !! p = Some t ∧ h' = h.
Proof.
  unfold deref. destruct (h !! p) as [t'|].
  - split; [by intros [= -> ->] | by intros [[= ->] ->]].
  - split; [done | by intros [? _]].
Qed.

Lemma accumulate_Some p (x : xarray) h h' :
  accumulate p x h = Some (tt, h') →
  ∃ t g, h !! p = Some t ∧ add_assign (grad t) x = Some g
         ∧ h' = <[p := set_grad g t]> h.
Proof.
  unfold accumulate.
  intros (t & h1 & [Ht ->]%deref_Some & Hk)%bind_Some.
  apply bind_Some in Hk as (g & h2 & Hg & Hk).
  unfold lift in Hg.
  destruct (add_assign (grad t) x) as [g'|] eqn:Hadd; [|done].
  injection Hg as <- <-. unfold modify in Hk. rewrite Ht in Hk.
  injection Hk as <-. by exists t, g'.
Qed.

(** An accumulation changes one gradient and nothing else. *)
Lemma accumulate_frame p (x : xarray) h h' :
  wf h → accumulate p x h = Some (tt, h') →
  wf h' ∧ ∀ q, q ≠ p → h' !! q = h !! q.
Proof.
  intros Hwf (t & g & Ht & _ & ->)%accumulate_Some. split.
  - by apply wf_set_grad.
  - intros q Hq. by apply list_lookup_insert_ne.
Qed.

(** A callable changes gradients of its two operands only. *)
Lemma call_frame f h h' (self other : ptr) :
  wf h →
  match f with
  | Noop => True
  | AddBackward _ s o | MulBackward _ s o => s = self ∧ o = other
  end →
  call f h = Some (tt, h') →
  wf h' ∧ ∀ q, q ≠ self → q ≠ other → h' !! q = h !! q.
Proof.
  intros Hwf Hf Hcall. destruct f as [|out s o|out s o]; cbn [call] in Hcall.
  - injection Hcall as <-. done.
  - destruct Hf as [-> ->].
    apply bind_Some in Hcall as (to & h1 & [_ ->]%deref_Some & Hcall).
    apply bind_Some in Hcall as ([] & h2 & Hacc1 & Hcall).
    apply bind_Some in Hcall as (to' & h3 & [_ ->]%deref_Some & Hacc2).
    destruct (accumulate_frame _ _ _ _ Hwf Hacc1) as [Hwf2 Hfr1].
    destruct (accumulate_frame _ _ _ _ Hwf2 Hacc2) as [Hwf3 Hfr2].
    split; [done|]. intros q Hs Ho. by rewrite Hfr2, Hfr1.
  - destruct Hf as [-> ->].
    apply bind_Some in Hcall as (to & h1 & [_ ->]%deref_Some & Hcall).
    apply bind_Some in Hcall as (tt1 & h1 & [_ ->]%deref_Some & Hcall).
    apply bind_Some in Hcall as (x1 & h1 & Hl1 & Hcall).
    unfold lift in Hl1. destruct (XArray.mul _ _); [|done].
    injection Hl1 as <- <-.
    apply bind_Some in Hcall as ([] & h2 & Hacc1 & Hcall).
    apply bind_Some in Hcall as (to' & h3 & [_ ->]%deref_Some & Hcall).
    apply bind_Some in Hcall as (ts' & h3 & [_ ->]%deref_Some & Hcall).
    apply bind_Some in Hcall as (x2 & h3 & Hl2 & Hacc2).
    unfold lift in Hl2. destruct (XArray.mul _ _); [|done].
    injection Hl2 as <- <-.
    destruct (accumulate_frame _ _ _ _ Hwf Hacc1) as [Hwf2 Hfr1].
    destruct (accumulate_frame _ _ _ _ Hwf2 Hacc2) as [Hwf3 Hfr2].
    split; [done|]. intros q Hs Ho. by rewrite Hfr2, Hfr1.
Qed.

(** The callable of a node changes nothing at or above the node. *)
Lemma fire_frame v h h' :
  wf h → fire v h = Some (tt, h') →
  wf h' ∧ ∀ q, v ≤ q → h' !! q = h !! q.
Proof.
  intros Hwf (t & h1 & [Ht ->]%deref_Some & Hcall)%bind_Some.
  pose proof (Hwf v t Ht) as Hn. unfold node_wf in Hn.
  destruct (_backward t) as [|out s o|out s o] eqn:Hb.
  - injection Hcall as <-. done.
  - destruct Hn as (_ & _ & Hs & Ho).
    destruct (call_frame (AddBackward out s o) h h' s o Hwf
                (conj eq_refl eq_refl) Hcall) as [Hwf' Hfr].
    split; [done|]. intros q Hq. apply Hfr; lia.
  - destruct Hn as (_ & _ & Hs & Ho).
    destruct (call_frame (MulBackward out s o) h h' s o Hwf
                (conj eq_refl eq_refl) Hcall) as [Hwf' Hfr].
    split; [done|]. intros q Hq. apply Hfr; lia.
Qed.

(** The loop of [backward] over nodes that are not above [root]. *)
Lemma for_each_fire_frame (l : list ptr) root h h' :
  wf h → (∀ v, v ∈ l → v ≤ root) →
  for_each l fire h = Some (tt, h') →
  wf h' ∧ h' !! root = h !! root.
Proof.
  revert h. induction l as [|v l IH]; intros h Hwf Hl Hrun.
  - injection Hrun as <-. done.
  - cbn [for_each] in Hrun.
    apply bind_Some in Hrun as ([] & h1 & Hfire & Hrun).
    destruct (fire_frame v h h1 Hwf Hfire) as [Hwf1 Hfr].
    destruct (IH h1 Hwf1) as [Hwf' Heq]; [|done|].
    { intros u Hu. apply Hl. by apply elem_of_cons; right. }
    split; [done|]. rewrite Heq. apply Hfr, Hl. by apply elem_of_cons; left.
Qed.

Lemma seed_Some root h h' :
  seed root h = Some (tt, h') →
  ∃ t, h !! root = Some t
       ∧ h' = <[root := set_grad (ones (shape (data t))) t]> h.
Proof.
  unfold seed.
  intros (t & h1 & [Ht ->]%deref_Some & Hk)%bind_Some.
  unfold modify in Hk. rewrite Ht in Hk. injection Hk as <-. by exists t.
Qed.

(** [backward] in three steps. *)
Lemma backward_Some root h h' :
  backward root h = Some (tt, h') →
  ∃ topo t,
    topo_order h root = Some topo
    ∧ h !! root = Some t
    ∧ for_each (reverse topo) fire
        (<[root := set_grad (ones (shape (data t))) t]> h) = Some (tt, h').
Proof.
  unfold backward.
  intros (topo & h1 & Hl & Hk)%bind_Some.
  unfold lift in Hl. destruct (topo_order h root) as [topo'|]; [|done].
  injection Hl as <- <-.
  apply bind_Some in Hk as ([] & h2 & (t & Ht & ->)%seed_Some & Hk).
  by exists topo', t.
Qed.

(** After [backward] the root holds the seed, whatever it held before. *)
Lemma backward_root root h h' :
  wf h → backward root h = Some (tt, h') →
  wf h' ∧ ∃ t, h !! root = Some t
               ∧ h' !! root = Some (set_grad (ones (shape (data t))) t).
Proof.
  intros Hwf (topo & t & Htopo & Ht & Hrun)%backward_Some.
  destruct (topo_order_ok h root Hwf) as (topo' & Heq & _ & Hreach & _).
  { by rewrite Ht. }
  rewrite Htopo in Heq. injection Heq as <-.
  destruct (for_each_fire_frame (reverse topo) root _ h'
              (wf_set_grad h root t (ones (shape (data t))) Hwf Ht))
    as [Hwf' Heq]; [|done|].
  { intros v Hv. rewrite elem_of_reverse in Hv.
    apply (reachable_le h root v Hwf). by apply Hreach. }
  split; [done|]. exists t. split; [done|]. rewrite Heq.
  apply list_lookup_insert_eq. by eapply lookup_lt_Some.
Qed.

(** Every graph a client can reach satisfies the invariant. *)
Lemma built_wf h : built h → wf h.
Proof.
induction 1 as [|d h p h' _ IH Hc|a b h p h' _ IH Hc|a b h p h' _ IH Hc
                |a h p h' _ IH _ Hc|a x h p h' _ IH _ Hc|root h h' _ IH Hc].
- apply wf_nil.
- by eapply create_wf.
- by eapply operator_add_wf.
- by eapply operator_mul_wf.
- by eapply operator_neg_wf.
- by eapply operator_add_scalar_wf.
- by destruct (backward_root root h h' IH Hc).
Qed.

End Backward.

(** * A node over two leaves *)

Section Binary.
Implicit Types (h : heap) (t : Tensor) (p v r a b : ptr).

Lemma accumulate_eq p (x g : xarray) h t :
  h !! p = Some t → add_assign (grad t) x = Some g →
  accumulate p x h = Some (tt, <[p := set_grad g t]> h).
Proof.
  intros Ht Hg. unfold accumulate, bind, deref, lift, modify.
  by rewrite Ht, Hg, Ht.
Qed.

Lemma fire_leaf v h t :
  h !! v = Some t → _backward t = Noop → fire v h = Some (tt, h).
Proof.
  intros Ht Hb. unfold fire, bind, deref. by rewrite Ht, Hb.
Qed.

Lemma topo_order_binary h r a b tr ta tb :
  h !! r = Some tr → _prev tr = [a; b] →
  h !! a = Some ta → _prev ta = [] →
  h !! b = Some tb → _prev tb = [] →
  a ≠ r → b ≠ r →
  topo_order h r = Some (if decide (a = b) then [a; r] else [a; b; r]).
Proof.
  intros Hr Hpr Ha Hpa Hb Hpb Har Hbr. unfold topo_order.
  pose proof (lookup_lt_Some _ _ _ Hr) as Hlen.
  destruct (length h) as [|n]; [lia|].
  cbn [build_topo fst snd].
  rewrite decide_False by apply not_elem_of_empty.
  rewrite Hr. cbn [from_option]. rewrite Hpr.
  cbn [for_children build_topo fst snd]. rewrite Ha.
  rewrite decide_False.
  2:{ rewrite elem_of_union, elem_of_singleton.
      intros [? | []%not_elem_of_empty]. done. }
  cbn [from_option]. rewrite Hpa.
  cbn [for_children fst snd app]. rewrite Hb.
  destruct (decide (a = b)) as [-> | Hab].
  - rewrite decide_True; [done|].
    apply elem_of_union_l. by apply elem_of_singleton.
  - rewrite decide_False.
    2:{ rewrite !elem_of_union, !elem_of_singleton.
        intros [? | [? | []%not_elem_of_empty]]; done. }
    cbn [from_option]. rewrite Hpb. done.
Qed.

Lemma call_add_eq h r a b tr ta tb (ga gb : xarray) :
  h !! r = Some tr → h !! a = Some ta → a ≠ r → b ≠ r →
  add_assign (grad ta) (grad tr) = Some ga →
  <[a := set_grad ga ta]> h !! b = Some tb →
  add_assign (grad tb) (grad tr) = Some gb →
  call (AddBackward r a b) h
  = Some (tt, <[b := set_grad gb tb]> (<[a := set_grad ga ta]> h)).
Proof.
  intros Hr Ha Har Hbr Hga Hb Hgb. cbn [call]. unfold bind at 1, deref at 1.
  rewrite Hr. unfold bind at 1.
  rewrite (accumulate_eq a _ ga h ta Ha Hga).
  unfold bind at 1, deref at 1.
  rewrite list_lookup_insert_ne, Hr by done.
  by apply accumulate_eq.
Qed.

Lemma call_mul_eq h r a b tr ta tb0 tb (va vb ga gb : xarray) :
  h !! r = Some tr → h !! a = Some ta → h !! b = Some tb0 →
  a ≠ r → b ≠ r →
  XArray.mul (grad tr) (data tb0) = Some va →
  add_assign (grad ta) va = Some ga →
  <[a := set_grad ga ta]> h !! b = Some tb →
  XArray.mul (grad tr) (data ta) = Some vb →
  add_assign (grad tb) vb = Some gb →
  call (MulBackward r a b) h
  = Some (tt, <[b := set_grad gb tb]> (<[a := set_grad ga ta]> h)).
Proof.
  intros Hr Ha Hb0 Har Hbr Hva Hga Hb Hvb Hgb. cbn [call].
  unfold bind at 1, deref at 1. rewrite Hr.
  unfold bind at 1, deref at 1. rewrite Hb0.
  unfold bind at 1, lift at 1. rewrite Hva.
  unfold bind at 1. rewrite (accumulate_eq a _ ga h ta Ha Hga).
  unfold bind at 1, deref at 1.
  rewrite list_lookup_insert_ne, Hr by done.
  unfold bind at 1, deref at 1.
  rewrite list_lookup_insert_eq by (by eapply lookup_lt_Some).
  unfold bind at 1, lift at 1. cbn [set_grad data]. rewrite Hvb.
  by apply accumulate_eq.
Qed.

(** [backward] from a node over two leaves: the seed, the callable of
    the node, and the two empty callables. *)
Lemma backward_binary h h' r a b tr ta tb :
  h !! r = Some tr → _prev tr = [a; b] →
  h !! a = Some ta → _prev ta = [] →
  h !! b = Some tb → _prev tb = [] →
  a ≠ r → b ≠ r →
  call (_backward tr) (<[r := set_grad (ones (shape (data tr))) tr]> h)
    = Some (tt, h') →
  (∃ t, h' !! a = Some t ∧ _backward t = Noop) →
  (∃ t, h' !! b = Some t ∧ _backward t = Noop) →
  backward r h = Some (tt, h').
Proof.
  intros Hr Hpr Ha Hpa Hb Hpb Har Hbr Hcall (ta' & Ha' & Hna) (tb' & Hb' & Hnb).
  unfold backward. unfold bind at 1, lift.
  rewrite (topo_order_binary h r a b tr ta tb) by done.
  unfold bind at 1, seed, bind at 1, deref, modify.
  rewrite Hr. cbv beta iota. rewrite Hr.
  assert (Hfire : fire r (<[r := set_grad (ones (shape (data tr))) tr]> h)
                  = Some (tt, h')).
  { unfold fire, bind, deref.
    rewrite list_lookup_insert_eq by (by eapply lookup_lt_Some). done. }
  destruct (decide (a = b)) as [-> | Hab].
  - change (reverse [b; r]) with [r; b]. cbn [for_each]. unfold bind.
    rewrite Hfire. by rewrite (fire_leaf b h' ta').
  - change (reverse [a; b; r]) with [r; b; a]. cbn [for_each]. unfold bind.
    rewrite Hfire. rewrite (fire_leaf b h' tb') by done.
    by rewrite (fire_leaf a h' ta').
Qed.

(** The sum of two distinct leaves. *)
Lemma backward_add_distinct h r a b tr ta tb n :
  h !! r = Some tr → _backward tr = AddBackward r a b → _prev tr = [a; b] →
  h !! a = Some ta → _backward ta = Noop → _prev ta = [] →
  h !! b = Some tb → _backward tb = Noop → _prev tb = [] →
  a ≠ b → a ≠ r → b ≠ r →
  length (data tr) = n → length (grad ta) = n → length (grad tb) = n →
  backward r h
  = Some (tt, <[b := set_grad (push_add (grad tb) (ones n)) tb]>
                (<[a := set_grad (push_add (grad ta) (ones n)) ta]>
                   (<[r := set_grad (ones n) tr]> h))).
Proof.
  intros Hr Hfr Hpr Ha Hfa Hpa Hb Hfb Hpb Hab Har Hbr Hn Hna Hnb.
  pose proof (lookup_lt_Some _ _ _ Ha) as Hla.
  pose proof (lookup_lt_Some _ _ _ Hb) as Hlb.
  pose proof (lookup_lt_Some _ _ _ Hr) as Hlr.
  apply (backward_binary h _ r a b tr ta tb); try done.
  - rewrite Hfr. unfold shape. rewrite Hn.
    apply (call_add_eq _ r a b (set_grad (ones n) tr)).
    + by apply list_lookup_insert_eq.
    + by rewrite list_lookup_insert_ne.
    + done.
    + done.
    + apply add_assign_same. cbn. by rewrite length_ones.
    + by rewrite !list_lookup_insert_ne.
    + apply add_assign_same. cbn. by rewrite length_ones.
  - eexists. split.
    + rewrite list_lookup_insert_ne by done.
      apply list_lookup_insert_eq. by rewrite length_insert.
    + done.
  - eexists. split.
    + apply list_lookup_insert_eq. by rewrite !length_insert.
    + done.
Qed.

Lemma push_mul_eq (g out d : xarray) (n : nat) :
  length g = n → length out = n → length d = n →
  ∃ x, XArray.mul out d = Some x ∧ add_assign g x = Some (push_mul g out d).
Proof.
  intros Hg Ho Hd. exists (zip_with PrimFloat.mul out d). split.
  - apply mul_same. congruence.
  - apply add_assign_same. rewrite length_zip_with. lia.
Qed.

(** The product of two distinct leaves. *)
Lemma backward_mul_distinct h r a b tr ta tb n :
  h !! r = Some tr → _backward tr = MulBackward r a b → _prev tr = [a; b] →
  h !! a = Some ta → _backward ta = Noop → _prev ta = [] →
  h !! b = Some tb → _backward tb = Noop → _prev tb = [] →
  a ≠ b → a ≠ r → b ≠ r →
  length (data tr) = n → length (data ta) = n → length (data tb) = n →
  length (grad ta) = n → length (grad tb) = n →
  backward r h
  = Some (tt, <[b := set_grad (push_mul (grad tb) (ones n) (data ta)) tb]>
                (<[a := set_grad (push_mul (grad ta) (ones n) (data tb)) ta]>
                   (<[r := set_grad (ones n) tr]> h))).
Proof.
  intros Hr Hfr Hpr Ha Hfa Hpa Hb Hfb Hpb Hab Har Hbr Hn Hda Hdb Hna Hnb.
  pose proof (lookup_lt_Some _ _ _ Ha) as Hla.
  pose proof (lookup_lt_Some _ _ _ Hb) as Hlb.
  pose proof (lookup_lt_Some _ _ _ Hr) as Hlr.
  destruct (push_mul_eq (grad ta) (ones n) (data tb) n)
    as (va & Hva & Hga); [done | apply length_ones | done |].
  destruct (push_mul_eq (grad tb) (ones n) (data ta) n)
    as (vb & Hvb & Hgb); [done | apply length_ones | done |].
  apply (backward_binary h _ r a b tr ta tb); try done.
  - rewrite Hfr. unfold shape. rewrite Hn.
    apply (call_mul_eq _ r a b (set_grad (ones n) tr) ta tb tb va vb);
      try done.
    + by apply list_lookup_insert_eq.
    + by rewrite list_lookup_insert_ne.
    + by rewrite list_lookup_insert_ne.
    + by rewrite !list_lookup_insert_ne.
  - eexists. split.
    + rewrite list_lookup_insert_ne by done.
      apply list_lookup_insert_eq. by rewrite length_insert.
    + done.
  - eexists. split.
    + apply list_lookup_insert_eq. by rewrite !length_insert.
    + done.
Qed.

(** The product of a leaf with itself. *)
Lemma backward_mul_self h r a tr ta n :
  h !! r = Some tr → _backward tr = MulBackward r a a → _prev tr = [a; a] →
  h !! a = Some ta → _backward ta = Noop → _prev ta = [] →
  a ≠ r →
  length (data tr) = n → length (data ta) = n → length (grad ta) = n →
  backward r h
  = Some (tt, <[a := set_grad
                       (push_mul (push_mul (grad ta) (ones n) (data ta))
                                 (ones n) (data ta)) ta]>
                (<[r := set_grad (ones n) tr]> h)).
Proof.
  intros Hr Hfr Hpr Ha Hfa Hpa Har Hn Hda Hna.
  pose proof (lookup_lt_Some _ _ _ Ha) as Hla.
  pose proof (lookup_lt_Some _ _ _ Hr) as Hlr.
  destruct (push_mul_eq (grad ta) (ones n) (data ta) n)
    as (va & Hva & Hga); [done | apply length_ones | done |].
  destruct (push_mul_eq (push_mul (grad ta) (ones n) (data ta))
              (ones n) (data ta) n)
    as (vb & Hvb & Hgb); [|apply length_ones | done |].
  { unfold push_mul. rewrite !length_zip_with, length_ones. lia. }
  apply (backward_binary h _ r a a tr ta ta); try done.
  - rewrite Hfr. unfold shape. rewrite Hn.
    rewrite (call_mul_eq _ r a a (set_grad (ones n) tr) ta ta
               (set_grad (push_mul (grad ta) (ones n) (data ta)) ta)
               va vb (push_mul (grad ta) (ones n) (data ta))
               (push_mul (push_mul (grad ta) (ones n) (data ta))
                  (ones n) (data ta))); try done.
    + by rewrite list_insert_insert_eq.
    + by apply list_lookup_insert_eq.
    + by rewrite list_lookup_insert_ne.
    + by rewrite list_lookup_insert_ne.
    + apply list_lookup_insert_eq. by rewrite length_insert.
  - eexists. split.
    + apply list_lookup_insert_eq. by rewrite !length_insert.
    + done.
  - eexists. split.
    + apply list_lookup_insert_eq. by rewrite !length_insert.
    + done.
Qed.
End Binary.

(** * One operator over fresh leaves *)

(** Lookups in a heap after a sequence of updates. *)
Ltac heap_lookup :=
  repeat first
    [ rewrite list_lookup_insert_eq by (rewrite ?length_insert; lia)
    | rewrite list_lookup_insert_ne by lia ];
  try done.

Section OneOp.
Implicit Types (h : heap) (t : Tensor) (p v root a b : ptr) (d : xarray).

Lemma push_add_zeros_ones n : push_add (zeros n) (ones n) = ones n.
Proof.
  unfold push_add, zeros, ones.
  induction n as [|n IH]; [done|]. cbn. by rewrite IH.
Qed.

Lemma push_add_ones_ones n :
  push_add (ones n) (ones n) = twice (ones n).
Proof.
  unfold push_add, twice, ones.
  induction n as [|n IH]; [done|]. cbn. by rewrite IH.
Qed.

Lemma push_mul_map (g : float → float) d :
  push_mul (map g d) (ones (length d)) d
  = map (λ x, (g x + 1 * x)%float) d.
Proof.
  unfold push_mul, ones. rewrite zip_with_replicate_l.
  induction d as [|x d IH]; [done|]. cbn. by rewrite IH.
Qed.

Lemma zeros_map d : zeros (length d) = map (λ _, 0%float) d.
Proof.
  unfold zeros. induction d as [|x d IH]; [done|]. cbn. by rewrite IH.
Qed.

(** The sum of two distinct fresh leaves, then [backward] once and
    twice. *)
Lemma add_leaves h a b da db :
  fresh_leaf h a da → fresh_leaf h b db → a ≠ b → shape da = shape db →
  ∃ h0 h1 h2,
    operator_add a b h = Some (length h, h0)
    ∧ backward (length h) h0 = Some (tt, h1)
    ∧ backward (length h) h1 = Some (tt, h2)
    ∧ grad_of h1 (length h) = Some (ones (shape da))
    ∧ grad_of h2 (length h) = Some (ones (shape da))
    ∧ grad_of h1 a = Some (ones (shape da))
    ∧ grad_of h1 b = Some (ones (shape db))
    ∧ grad_of h2 a = Some (twice (ones (shape da)))
    ∧ grad_of h2 b = Some (twice (ones (shape db))).
Proof.
  intros (ta & Ha & Hda & Hga & Hfa & Hpa) (tb & Hb & Hdb & Hgb & Hfb & Hpb)
    Hab Hsh.
  pose proof (lookup_lt_Some _ _ _ Ha) as Hla.
  pose proof (lookup_lt_Some _ _ _ Hb) as Hlb.
  unfold shape in *.
  rewrite operator_add_eq, Ha, Hb. cbn [mbind option_bind].
  rewrite Hda, Hdb. unfold XArray.add. rewrite broadcast_same by done.
  cbn [mbind option_bind].
  remember (length da) as n eqn:Hnd. remember (length h) as r eqn:Hrh.
  set (tr := {| data := zip_with PrimFloat.add da db |}).
  assert (Hn : length (data tr) = n).
  { cbn. rewrite length_zip_with. lia. }
  assert (Har : a ≠ r) by lia. assert (Hbr : b ≠ r) by lia.
  assert (Hr0 : (h ++ [tr]) !! r = Some tr) by (subst r; apply lookup_snoc).
  assert (Ha0 : (h ++ [tr]) !! a = Some ta) by (by rewrite lookup_app_l by lia).
  assert (Hb0 : (h ++ [tr]) !! b = Some tb) by (by rewrite lookup_app_l by lia).
  assert (Hna : length (grad ta) = n) by (rewrite Hga; apply length_zeros).
  assert (Hnb : length (grad tb) = n)
    by (rewrite Hgb, <- Hsh; apply length_zeros).
  eexists _, _, _. split; [reflexivity|].
  rewrite (backward_add_distinct (h ++ [tr]) r a b tr ta tb n
             Hr0 eq_refl eq_refl Ha0 Hfa Hpa Hb0 Hfb Hpb Hab Har Hbr
             Hn Hna Hnb).
  split; [reflexivity|].
  rewrite Hga, Hgb, <- Hsh, push_add_zeros_ones.
  set (h1 := <[b := _]> _).
  assert (Hlen : length (h ++ [tr]) = S r)
    by (rewrite length_app; cbn; lia).
  assert (Hr1 : h1 !! r = Some (set_grad (ones n) tr))
    by (unfold h1; heap_lookup).
  assert (Ha1 : h1 !! a = Some (set_grad (ones n) ta))
    by (unfold h1; heap_lookup).
  assert (Hb1 : h1 !! b = Some (set_grad (ones n) tb))
    by (unfold h1; heap_lookup).
  rewrite (backward_add_distinct h1 r a b _ _ _ n
             Hr1 eq_refl eq_refl Ha1 Hfa Hpa Hb1 Hfb Hpb Hab Har Hbr
             Hn (length_ones n) (length_ones n)).
  split; [reflexivity|]. cbn [grad set_grad].
  rewrite push_add_ones_ones.
  assert (Hlen1 : length h1 = S r)
    by (unfold h1; rewrite !length_insert; done).
  unfold grad_of. repeat split; try (unfold h1); heap_lookup.
Qed.

(** The product of two distinct fresh leaves, then [backward] once and
    twice. *)
Lemma mul_leaves h a b da db :
  fresh_leaf h a da → fresh_leaf h b db → a ≠ b → shape da = shape db →
  ∃ h0 h1 h2,
    operator_mul a b h = Some (length h, h0)
    ∧ backward (length h) h0 = Some (tt, h1)
    ∧ backward (length h) h1 = Some (tt, h2)
    ∧ grad_of h1 (length h) = Some (ones (shape da))
    ∧ grad_of h2 (length h) = Some (ones (shape da))
    ∧ grad_of h1 a = Some (map (λ x, (0 + 1 * x)%float) db)
    ∧ grad_of h1 b = Some (map (λ x, (0 + 1 * x)%float) da)
    ∧ grad_of h2 a = Some (map (λ x, (0 + 1 * x + 1 * x)%float) db)
    ∧ grad_of h2 b = Some (map (λ x, (0 + 1 * x + 1 * x)%float) da).
Proof.
  intros (ta & Ha & Hda & Hga & Hfa & Hpa) (tb & Hb & Hdb & Hgb & Hfb & Hpb)
    Hab Hsh.
  pose proof (lookup_lt_Some _ _ _ Ha) as Hla.
  pose proof (lookup_lt_Some _ _ _ Hb) as Hlb.
  unfold shape in *.
  rewrite operator_mul_eq, Ha, Hb. cbn [mbind option_bind].
  rewrite Hda, Hdb. unfold XArray.mul. rewrite broadcast_same by done.
  cbn [mbind option_bind].
  remember (length da) as n eqn:Hnd. remember (length h) as r eqn:Hrh.
  set (tr := {| data := zip_with PrimFloat.mul da db |}).
  assert (Hn : length (data tr) = n).
  { cbn. rewrite length_zip_with. lia. }
  assert (Har : a ≠ r) by lia. assert (Hbr : b ≠ r) by lia.
  assert (Hr0 : (h ++ [tr]) !! r = Some tr) by (subst r; apply lookup_snoc).
  assert (Ha0 : (h ++ [tr]) !! a = Some ta) by (by rewrite lookup_app_l by lia).
  assert (Hb0 : (h ++ [tr]) !! b = Some tb) by (by rewrite lookup_app_l by lia).
  assert (Hna : length (grad ta) = n) by (rewrite Hga; apply length_zeros).
  assert (Hnb : length (grad tb) = n)
    by (rewrite Hgb, <- Hsh; apply length_zeros).
  assert (Hla' : length (data ta) = n) by congruence.
  assert (Hlb' : length (data tb) = n) by congruence.
  eexists _, _, _. split; [reflexivity|].
  rewrite (backward_mul_distinct (h ++ [tr]) r a b tr ta tb n
             Hr0 eq_refl eq_refl Ha0 Hfa Hpa Hb0 Hfb Hpb Hab Har Hbr
             Hn Hla' Hlb' Hna Hnb).
  split; [reflexivity|].
  rewrite Hga, Hgb, Hda, Hdb.
  assert (Hpma : ∀ g, push_mul (map g da) (ones n) da
                      = map (λ x, (g x + 1 * x)%float) da)
    by (intros g; rewrite Hnd; apply push_mul_map).
  assert (Hpmb : ∀ g, push_mul (map g db) (ones n) db
                      = map (λ x, (g x + 1 * x)%float) db)
    by (intros g; rewrite Hsh; apply push_mul_map).
  assert (Hza : push_mul (zeros n) (ones n) da
                = map (λ x, (0 + 1 * x)%float) da)
    by (rewrite <- Hpma; f_equal; rewrite Hnd; apply zeros_map).
  assert (Hzb : push_mul (zeros n) (ones n) db
                = map (λ x, (0 + 1 * x)%float) db)
    by (rewrite <- Hpmb; f_equal; rewrite Hsh; apply zeros_map).
  rewrite <- Hsh.
  rewrite Hza, Hzb.
  set (h1 := <[b := _]> _).
  assert (Hlen : length (h ++ [tr]) = S r)
    by (rewrite length_app; cbn; lia).
  assert (Hr1 : h1 !! r = Some (set_grad (ones n) tr))
    by (unfold h1; heap_lookup).
  assert (Ha1 : h1 !! a
                = Some (set_grad (map (λ x, (0 + 1 * x)%float) db) ta))
    by (unfold h1; heap_lookup).
  assert (Hb1 : h1 !! b
                = Some (set_grad (map (λ x, (0 + 1 * x)%float) da) tb))
    by (unfold h1; heap_lookup).
  rewrite (backward_mul_distinct h1 r a b _ _ _ n
             Hr1 eq_refl eq_refl Ha1 Hfa Hpa Hb1 Hfb Hpb Hab Har Hbr
             Hn Hla' Hlb').
  2:{ cbn. rewrite length_map. lia. }
  2:{ cbn. by rewrite length_map. }
  split; [reflexivity|]. cbn [grad set_grad data].
  rewrite Hda, Hdb, Hpma, Hpmb.
  assert (Hlen1 : length h1 = S r)
    by (unfold h1; rewrite !length_insert; done).
  unfold grad_of. repeat split; try (unfold h1); heap_lookup.
Qed.

(** The product of a fresh leaf with itself, then [backward]. *)
Lemma square_leaf h a da :
  fresh_leaf h a da →
  ∃ h0 h1,
    operator_mul a a h = Some (length h, h0)
    ∧ backward (length h) h0 = Some (tt, h1)
    ∧ grad_of h1 a = Some (map (λ x, (0 + 1 * x + 1 * x)%float) da).
Proof.
  intros (ta & Ha & Hda & Hga & Hfa & Hpa).
  pose proof (lookup_lt_Some _ _ _ Ha) as Hla.
  unfold shape in *.
  rewrite operator_mul_eq, Ha. cbn [mbind option_bind].
  rewrite Hda. unfold XArray.mul. rewrite broadcast_same by done.
  cbn [mbind option_bind].
  remember (length da) as n eqn:Hnd. remember (length h) as r eqn:Hrh.
  set (tr := {| data := zip_with PrimFloat.mul da da |}).
  assert (Hn : length (data tr) = n).
  { cbn. rewrite length_zip_with. lia. }
  assert (Har : a ≠ r) by lia.
  assert (Hr0 : (h ++ [tr]) !! r = Some tr) by (subst r; apply lookup_snoc).
  assert (Ha0 : (h ++ [tr]) !! a = Some ta) by (by rewrite lookup_app_l by lia).
  assert (Hna : length (grad ta) = n) by (rewrite Hga; apply length_zeros).
  assert (Hla' : length (data ta) = n) by congruence.
  eexists _, _. split; [reflexivity|].
  rewrite (backward_mul_self (h ++ [tr]) r a tr ta n
             Hr0 eq_refl eq_refl Ha0 Hfa Hpa Har Hn Hla' Hna).
  split; [reflexivity|].
  rewrite Hga, Hda.
  assert (Hpma : ∀ g, push_mul (map g da) (ones n) da
                      = map (λ x, (g x + 1 * x)%float) da)
    by (intros g; rewrite Hnd; apply push_mul_map).
  assert (Hza : zeros n = map (λ _, 0%float) da)
    by (rewrite Hnd; apply zeros_map).
  rewrite Hza, !Hpma.
  assert (Hlen : length (h ++ [tr]) = S r)
    by (rewrite length_app; cbn; lia).
  unfold grad_of. heap_lookup.
Qed.
End OneOp.

(** * The properties of the specification *)

Section Claims.

Implicit Types (h : heap) (t : Tensor) (p v root a b : ptr) (d : xarray).



Lemma wf_main_with (gx gy gz gw : float) : wf (main_with gx gy gz gw).
Proof.
  intros i t Hi.
  destruct i as [|[|[|[|i]]]]; cbn in Hi; try done;
    injection Hi as <-; cbn; repeat split; lia.
Qed.

(** The square of the leaf [[3.0]]: its gradient is [[6.0]]. *)
Example square_example :
  ∃ h, square_scenario [] = Some (0, h) ∧ grad_of h 0 = Some [6%float].
Proof. eexists. split; vm_compute; reflexivity. Qed.

End Claims.

(** C1. The scenario of [main]: [x = [2.0]], [y = [3.0]]; building
    [z = x + y] gives the value [[5.0]], building [w = z * x] gives the
    value [[10.0]], and after [backward] on [w] the gradients are
    [w: [1.0]], [z: [2.0]], [y: [2.0]] and [x: [7.0]]. *)
Theorem composed_example :
  build_main [] = Some ((0, 1, 2, 3), main_graph)
  ∧ data_of main_graph 2 = Some [5%float]
  ∧ data_of main_graph 3 = Some [10%float]
  ∧ ∃ h, main [] = Some ((0, 1, 2, 3), h)
         ∧ data_of h 2 = Some [5%float]
         ∧ data_of h 3 = Some [10%float]
         ∧ grad_of h 3 = Some [1%float]
         ∧ grad_of h 2 = Some [2%float]
         ∧ grad_of h 1 = Some [2%float]
         ∧ grad_of h 0 = Some [7%float].
Proof.
  repeat split; try reflexivity.
  exists (main_with 7 2 2 1). repeat split; vm_compute; reflexivity.
Qed.

(** C3, on the failing input.  A scalar added to a three-element leaf:
    after [backward] the one-element node that wraps the scalar holds a
    three-element gradient, so gradient and value differ in shape. *)
Theorem grad_shape_broken :
  ∃ h, scalar_add_scenario [] = Some ((0, 2), h)
       ∧ data_of h 1 = Some [5%float]
       ∧ grad_of h 1 = Some [1%float; 1%float; 1%float]
       ∧ ¬ grad_shape_inv h.
Proof.
  eexists. split; [vm_compute; reflexivity|].
  repeat split. intros Hinv.
  specialize (Hinv 1 _ eq_refl). vm_compute in Hinv. discriminate Hinv.
Qed.

(** C8. For a node [a] of the graph, negation is the product of [a] and
    a new leaf that holds [[-1.0]]: the value is that of [a] times [-1]
    elementwise, the dependencies are [a] and the new leaf in this order,
    and the callable is the one of the product. *)
Theorem negate_is_multiply h a ta :
  h !! a = Some ta →
  operator_neg a h = negate_spec a h
  ∧ operator_neg a h = (m <~ create [(-1)%float] ;; operator_mul a m) h.
Proof.
  intros Ha. split; [|reflexivity].
  rewrite operator_neg_eq, operator_mul_eq. unfold negate_spec.
  pose proof (lookup_lt_Some _ _ _ Ha) as Hlt.
  rewrite (lookup_app_l h _ a) by done.
  rewrite Ha, lookup_snoc. cbn [mbind option_bind Tensor_leaf data].
  unfold XArray.mul. rewrite broadcast_one_r. cbn [mbind option_bind].
  rewrite length_app, <- (assoc_L (++)). cbn [length app].
  unfold shape. rewrite length_map, Nat.add_1_r. reflexivity.
Qed.

Lemma negate_is_multiply_witness :
  main_graph !! 0 = Some (Tensor_leaf [2%float])
  ∧ operator_neg 0 main_graph = negate_spec 0 main_graph
  ∧ operator_neg 0 main_graph
    = (m <~ create [(-1)%float] ;; operator_mul 0 m) main_graph.
Proof.
  split; [reflexivity|].
  apply (negate_is_multiply main_graph 0 (Tensor_leaf [2%float])).
  reflexivity.
Defined.

(** C9. [create] never fails; the new node holds the given array, a
    gradient of zeros of the same shape, no dependency, the empty
    operator tag, and a callable that changes nothing. *)
Theorem leaf_creation d h :
  ∃ t, create d h = Some (length h, h ++ [t])
       ∧ data t = d
       ∧ shape (grad t) = shape d
       ∧ Forall (λ x, x = 0%float) (grad t)
       ∧ _prev t = []
       ∧ _op t = ""
       ∧ (∀ h', call (_backward t) h' = Some (tt, h'))
       ∧ fire (length h) (h ++ [t]) = Some (tt, h ++ [t]).
Proof.
  exists (Tensor_leaf d). repeat split.
  - cbn. unfold shape. apply length_zeros.
  - cbn. apply Forall_forall. intros x Hx.
    by apply elem_of_replicate in Hx as [-> _].
  - unfold fire, bind, deref. by rewrite lookup_snoc.
Qed.

(** C10. When [backward] returns on a graph built by the operators, the
    gradient of the root is the array of ones of the shape of its value,
    whatever the gradient was before; its value is unchanged. *)
Theorem backward_seeds_root h root h' :
  wf h → backward root h = Some (tt, h') →
  ∃ t, h !! root = Some t
       ∧ data_of h' root = Some (data t)
       ∧ grad_of h' root = Some (ones (shape (data t))).
Proof.
  intros Hwf Hb.
  destruct (backward_root root h h' Hwf Hb) as (_ & t & Ht & Ht').
  exists t. unfold data_of, grad_of. rewrite Ht'. done.
Qed.

Lemma backward_seeds_root_witness :
  wf (main_with 7 2 2 1)
  ∧ backward 3 (main_with 7 2 2 1) = Some (tt, main_with 16 6 4 1)
  ∧ ∃ t, main_with 7 2 2 1 !! 3 = Some t
         ∧ data_of (main_with 16 6 4 1) 3 = Some (data t)
         ∧ grad_of (main_with 16 6 4 1) 3 = Some (ones (shape (data t))).
Proof.
  split; [apply wf_main_with|].
  split; [vm_compute; reflexivity|].
  apply (backward_seeds_root (main_with 7 2 2 1) 3 (main_with 16 6 4 1)).
  - apply wf_main_with.
  - vm_compute. reflexivity.
Defined.

(** C6. For two distinct leaves of equal shape with zero gradients, after
    [backward] on their sum the gradient of each is the array of ones of
    the shape of its value. *)
Theorem add_chain_rule h a b da db :
  fresh_leaf h a da → fresh_leaf h b db → a ≠ b → shape da = shape db →
  ∃ r h0 h1,
    operator_add a b h = Some (r, h0)
    ∧ backward r h0 = Some (tt, h1)
    ∧ grad_of h1 a = Some (ones (shape da))
    ∧ grad_of h1 b = Some (ones (shape db)).
Proof.
  intros Ha Hb Hab Hsh.
  destruct (add_leaves h a b da db Ha Hb Hab Hsh)
    as (h0 & h1 & h2 & Hop & Hb1 & _ & _ & _ & Hga & Hgb & _).
  by exists (length h), h0, h1.
Qed.

Lemma add_chain_rule_witness :
  fresh_leaf [Tensor_leaf [2%float]; Tensor_leaf [3%float]] 0 [2%float]
  ∧ fresh_leaf [Tensor_leaf [2%float]; Tensor_leaf [3%float]] 1 [3%float]
  ∧ 0 ≠ 1
  ∧ shape [2%float] = shape [3%float]
  ∧ ∃ r h0 h1,
      operator_add 0 1 [Tensor_leaf [2%float]; Tensor_leaf [3%float]]
        = Some (r, h0)
      ∧ backward r h0 = Some (tt, h1)
      ∧ grad_of h1 0 = Some (ones (shape [2%float]))
      ∧ grad_of h1 1 = Some (ones (shape [3%float])).
Proof.
  assert (H0 : fresh_leaf [Tensor_leaf [2%float]; Tensor_leaf [3%float]]
                 0 [2%float]) by (by eexists).
  assert (H1 : fresh_leaf [Tensor_leaf [2%float]; Tensor_leaf [3%float]]
                 1 [3%float]) by (by eexists).
  repeat split; try done.
  apply (add_chain_rule _ 0 1 [2%float] [3%float] H0 H1); [lia | reflexivity].
Defined.

(** C5. For two distinct leaves of equal shape with zero gradients and
    values without NaN, after [backward] on their product the gradient of
    each is [0 + 1 * v] for each element [v] of the value of the other,
    which equals that value elementwise. *)
Theorem multiply_chain_rule h a b da db :
  fresh_leaf h a da → fresh_leaf h b db → a ≠ b → shape da = shape db →
  no_nan da → no_nan db →
  ∃ r h0 h1 ga gb,
    operator_mul a b h = Some (r, h0)
    ∧ backward r h0 = Some (tt, h1)
    ∧ grad_of h1 a = Some ga
    ∧ grad_of h1 b = Some gb
    ∧ ga = map (λ v, (0 + 1 * v)%float) db
    ∧ gb = map (λ v, (0 + 1 * v)%float) da
    ∧ XArray.eqb ga db = true
    ∧ XArray.eqb gb da = true.
Proof.
  intros Ha Hb Hab Hsh Hna Hnb.
  destruct (mul_leaves h a b da db Ha Hb Hab Hsh)
    as (h0 & h1 & h2 & Hop & Hb1 & _ & _ & _ & Hga & Hgb & _).
  exists (length h), h0, h1. eexists _, _.
  repeat split; try done.
  - apply eqb_map_l.
    eapply Forall_impl; [exact Hnb|]. intros x Hx. cbv beta in Hx |- *.
    by rewrite add_0_mul_1, Hx.
  - apply eqb_map_l.
    eapply Forall_impl; [exact Hna|]. intros x Hx. cbv beta in Hx |- *.
    by rewrite add_0_mul_1, Hx.
Qed.

Lemma multiply_chain_rule_witness :
  fresh_leaf [Tensor_leaf [2%float]; Tensor_leaf [3%float]] 0 [2%float]
  ∧ fresh_leaf [Tensor_leaf [2%float]; Tensor_leaf [3%float]] 1 [3%float]
  ∧ 0 ≠ 1
  ∧ shape [2%float] = shape [3%float]
  ∧ no_nan [2%float] ∧ no_nan [3%float]
  ∧ ∃ r h0 h1 ga gb,
      operator_mul 0 1 [Tensor_leaf [2%float]; Tensor_leaf [3%float]]
        = Some (r, h0)
      ∧ backward r h0 = Some (tt, h1)
      ∧ grad_of h1 0 = Some ga
      ∧ grad_of h1 1 = Some gb
      ∧ ga = [3%float]
      ∧ gb = [2%float]
      ∧ XArray.eqb ga [3%float] = true
      ∧ XArray.eqb gb [2%float] = true.
Proof.
  assert (H0 : fresh_leaf [Tensor_leaf [2%float]; Tensor_leaf [3%float]]
                 0 [2%float]) by (by eexists).
  assert (H1 : fresh_leaf [Tensor_leaf [2%float]; Tensor_leaf [3%float]]
                 1 [3%float]) by (by eexists).
  assert (N0 : no_nan [2%float]) by (by repeat constructor).
  assert (N1 : no_nan [3%float]) by (by repeat constructor).
  repeat split; try done.
  apply (multiply_chain_rule _ 0 1 [2%float] [3%float] H0 H1);
    [lia | reflexivity | exact N0 | exact N1].
Defined.

(** C4. For a leaf [x] with a zero gradient and a value [d] without NaN,
    after [backward] on the product of [x] with itself the gradient of
    [x] is [0 + 1 * v + 1 * v] for each element [v] of [d], which equals
    [2 * d] elementwise; for [d = [3.0]] it is [[6.0]]. *)
Theorem diamond_square h x d :
  fresh_leaf h x d → no_nan d →
  ∃ p h0 h1,
    operator_mul x x h = Some (p, h0)
    ∧ backward p h0 = Some (tt, h1)
    ∧ grad_of h1 x = Some (map (λ v, (0 + 1 * v + 1 * v)%float) d)
    ∧ XArray.eqb (map (λ v, (0 + 1 * v + 1 * v)%float) d) (twice d) = true.
Proof.
  intros Hx Hn.
  destruct (square_leaf h x d Hx) as (h0 & h1 & Hop & Hb & Hg).
  exists (length h), h0, h1. repeat split; try done.
  apply eqb_map2. eapply Forall_impl; [exact Hn|].
  intros v Hv. by apply add_twice_eqb.
Qed.

Lemma diamond_square_witness :
  fresh_leaf [Tensor_leaf [3%float]] 0 [3%float]
  ∧ no_nan [3%float]
  ∧ ∃ p h0 h1,
      operator_mul 0 0 [Tensor_leaf [3%float]] = Some (p, h0)
      ∧ backward p h0 = Some (tt, h1)
      ∧ grad_of h1 0 = Some [6%float]
      ∧ XArray.eqb [6%float] (twice [3%float]) = true.
Proof.
  assert (H0 : fresh_leaf [Tensor_leaf [3%float]] 0 [3%float])
    by (by eexists).
  assert (N0 : no_nan [3%float]) by (by repeat constructor).
  repeat split; try done.
  apply (diamond_square [Tensor_leaf [3%float]] 0 [3%float] H0 N0).
Defined.

(** C2, as it is stated, fails on the scenario of [main]: a second
    [backward] on [w] leaves the gradient of [w] at [[1.0]] and takes the
    gradient of [x] from [[7.0]] to [[16.0]], [y] from [[2.0]] to [[6.0]],
    and only [z] from [[2.0]] to its double [[4.0]]. *)
Lemma second_call_not_double :
  wf main_graph
  ∧ backward 3 main_graph = Some (tt, main_with 7 2 2 1)
  ∧ backward 3 (main_with 7 2 2 1) = Some (tt, main_with 16 6 4 1)
  ∧ reachable main_graph 3 3
  ∧ reachable main_graph 3 0
  ∧ XArray.eqb [1%float] (twice [1%float]) = false
  ∧ XArray.eqb [16%float] (twice [7%float]) = false
  ∧ ¬ second_call_doubles.
Proof.
  assert (Hwf : wf main_graph) by apply (wf_main_with 0 0 0 0).
  assert (H1 : backward 3 main_graph = Some (tt, main_with 7 2 2 1))
    by (vm_compute; reflexivity).
  assert (H2 : backward 3 (main_with 7 2 2 1)
               = Some (tt, main_with 16 6 4 1))
    by (vm_compute; reflexivity).
  assert (Hr : reachable main_graph 3 3) by apply rtc_refl.
  repeat split; try done.
  - apply rtc_once. eexists. split; [reflexivity|].
    split; [|by eexists]. cbn. apply elem_of_cons. right.
    by apply list_elem_of_singleton.
  - intros Hclaim.
    specialize (Hclaim main_graph (main_with 7 2 2 1) (main_with 16 6 4 1)
                  3 3 [1%float] [1%float] Hwf H1 H2 Hr eq_refl eq_refl).
    vm_compute in Hclaim. discriminate Hclaim.
Qed.

(** Two calls on the sum and on the product of two leaves.  For two
    distinct leaves of equal shape with zero gradients both calls of
    [backward] return, after each call the gradient of the root is the
    array of ones, and the gradient of each leaf after the second call is
    the double of its gradient after the first. *)
Lemma two_calls_on_leaves h a b da db :
  fresh_leaf h a da → fresh_leaf h b db → a ≠ b → shape da = shape db →
  (∃ r h0 h1 h2 ga gb,
     operator_add a b h = Some (r, h0)
     ∧ backward r h0 = Some (tt, h1)
     ∧ backward r h1 = Some (tt, h2)
     ∧ grad_of h1 r = Some (ones (shape da))
     ∧ grad_of h2 r = Some (ones (shape da))
     ∧ grad_of h1 a = Some ga ∧ grad_of h2 a = Some (twice ga)
     ∧ grad_of h1 b = Some gb ∧ grad_of h2 b = Some (twice gb))
  ∧ (∃ r h0 h1 h2 ga gb,
       operator_mul a b h = Some (r, h0)
       ∧ backward r h0 = Some (tt, h1)
       ∧ backward r h1 = Some (tt, h2)
       ∧ grad_of h1 r = Some (ones (shape da))
       ∧ grad_of h2 r = Some (ones (shape da))
       ∧ grad_of h1 a = Some ga ∧ grad_of h2 a = Some (twice ga)
       ∧ grad_of h1 b = Some gb ∧ grad_of h2 b = Some (twice gb)).
Proof.
  intros Ha Hb Hab Hsh. split.
  - destruct (add_leaves h a b da db Ha Hb Hab Hsh)
      as (h0 & h1 & h2 & Hop & Hb1 & Hb2 & Hr1 & Hr2
          & Ha1 & Hb1' & Ha2 & Hb2').
    exists (length h), h0, h1, h2. eexists _, _. repeat split; done.
  - destruct (mul_leaves h a b da db Ha Hb Hab Hsh)
      as (h0 & h1 & h2 & Hop & Hb1 & Hb2 & Hr1 & Hr2
          & Ha1 & Hb1' & Ha2 & Hb2').
    exists (length h), h0, h1, h2. eexists _, _.
    repeat split; try done.
    + rewrite Ha2. f_equal. unfold twice. rewrite map_map.
      apply map_ext. intros x. apply add_twice_double.
    + rewrite Hb2'. f_equal. unfold twice. rewrite map_map.
      apply map_ext. intros x. apply add_twice_double.
Qed.

(** * What [backward] changes *)

Section Structure.

Implicit Types (h g : heap) (t : Tensor) (p v root q : ptr) (f : closure).

Lemma same_graph_lookup h h' p :
  same_graph h h' → skeleton <$> h !! p = skeleton <$> h' !! p.
Proof.
intros Hs. rewrite <- !list_lookup_fmap. unfold same_graph in Hs.
by rewrite Hs.
Qed.

Lemma same_graph_length h h' : same_graph h h' → length h = length h'.
Proof.
intros Hs. rewrite <- (length_fmap skeleton h), <- (length_fmap skeleton h').
unfold same_graph in Hs. by rewrite Hs.
Qed.

Lemma same_graph_trans h1 h2 h3 :
  same_graph h1 h2 → same_graph h2 h3 → same_graph h1 h3.
Proof. unfold same_graph. congruence. Qed.

Lemma same_graph_set_grad h p t (x : xarray) :
  h !! p = Some t → same_graph h (<[p := set_grad x t]> h).
Proof.
intros Ht. unfold same_graph. rewrite list_fmap_insert.
symmetry. apply list_insert_id. by rewrite list_lookup_fmap, Ht.
Qed.

Lemma same_graph_prev h h' p t :
  same_graph h h' → h !! p = Some t →
  ∃ t', h' !! p = Some t' ∧ skeleton t' = skeleton t.
Proof.
intros Hs Ht. pose proof (same_graph_lookup h h' p Hs) as Hl.
rewrite Ht in Hl. destruct (h' !! p) as [t'|]; [|done].
exists t'. split; [done|]. cbn in Hl. congruence.
Qed.

Lemma same_graph_sym h h' : same_graph h h' → same_graph h' h.
Proof. unfold same_graph. congruence. Qed.

(** What a successful call of a callable consists of. *)
Lemma call_Some f h h' :
  call f h = Some (tt, h') →
  f = Noop ∧ h' = h
  ∨ ∃ out self other (x1 x2 : xarray) h1,
      (f = AddBackward out self other ∨ f = MulBackward out self other)
      ∧ accumulate self x1 h = Some (tt, h1)
      ∧ accumulate other x2 h1 = Some (tt, h').
Proof.
intros Hcall. destruct f as [|out s o|out s o]; cbn [call] in Hcall.
- left. by injection Hcall as <-.
- right.
  apply bind_Some in Hcall as (to & h1 & [_ ->]%deref_Some & Hcall).
  apply bind_Some in Hcall as ([] & h2 & Hacc1 & Hcall).
  apply bind_Some in Hcall as (to' & h3 & [_ ->]%deref_Some & Hacc2).
  exists out, s, o. eexists _, _, h2. eauto.
- right.
  apply bind_Some in Hcall as (to & h1 & [_ ->]%deref_Some & Hcall).
  apply bind_Some in Hcall as (tt1 & h1 & [_ ->]%deref_Some & Hcall).
  apply bind_Some in Hcall as (x1 & h1 & Hl1 & Hcall).
  unfold lift in Hl1. destruct (XArray.mul _ _); [|done].
  injection Hl1 as <- <-.
  apply bind_Some in Hcall as ([] & h2 & Hacc1 & Hcall).
  apply bind_Some in Hcall as (to' & h3 & [_ ->]%deref_Some & Hcall).
  apply bind_Some in Hcall as (ts' & h3 & [_ ->]%deref_Some & Hcall).
  apply bind_Some in Hcall as (x2 & h3 & Hl2 & Hacc2).
  unfold lift in Hl2. destruct (XArray.mul _ _); [|done].
  injection Hl2 as <- <-.
  exists out, s, o. eexists _, _, h2. eauto.
Qed.

Lemma accumulate_same_graph p (x : xarray) h h' :
  accumulate p x h = Some (tt, h') → same_graph h h'.
Proof.
intros (t & g & Ht & _ & ->)%accumulate_Some. by apply same_graph_set_grad.
Qed.

Lemma call_same_graph f h h' : call f h = Some (tt, h') → same_graph h h'.
Proof.
intros [[_ ->] | (out & s & o & x1 & x2 & h1 & _ & H1 & H2)]%call_Some.
- done.
- eapply same_graph_trans; by eapply accumulate_same_graph.
Qed.

Lemma fire_same_graph v h h' : fire v h = Some (tt, h') → same_graph h h'.
Proof.
intros (t & h1 & [_ ->]%deref_Some & Hcall)%bind_Some.
by eapply call_same_graph.
Qed.

Lemma for_each_fire_same_graph (l : list ptr) h h' :
  for_each l fire h = Some (tt, h') → same_graph h h'.
Proof.
revert h. induction l as [|v l IH]; intros h Hrun.
- by injection Hrun as <-.
- cbn [for_each] in Hrun.
  apply bind_Some in Hrun as ([] & h1 & Hfire & Hrun).
  eapply same_graph_trans; [by eapply fire_same_graph | by apply IH].
Qed.

(** [backward] keeps the graph. *)
Lemma backward_graph root h h' :
  backward root h = Some (tt, h') → same_graph h h'.
Proof.
intros (topo & t & _ & Ht & Hrun)%backward_Some.
eapply same_graph_trans; [by apply same_graph_set_grad|].
by eapply for_each_fire_same_graph.
Qed.

Lemma dep_same_graph h h' u c : same_graph h h' → dep h u c → dep h' u c.
Proof.
intros Hs (t & Hu & Hc & [tc Htc]).
destruct (same_graph_prev h h' u t Hs Hu) as (t' & Hu' & Hsk).
destruct (same_graph_prev h h' c tc Hs Htc) as (tc' & Hc' & _).
exists t'. split; [done|]. split; [|by eexists].
unfold skeleton in Hsk. by injection Hsk as _ _ -> _.
Qed.

(** The callable of a node changes its live dependencies only. *)
Lemma fire_changes v h h' q :
  wf h → fire v h = Some (tt, h') → ¬ dep h v q → h' !! q = h !! q.
Proof.
intros Hwf (t & h0 & [Ht ->]%deref_Some & Hcall)%bind_Some Hq.
pose proof (Hwf v t Ht) as Hn. unfold node_wf in Hn.
apply call_Some in Hcall
  as [[_ ->] | (out & s & o & x1 & x2 & h1 & Hf & H1 & H2)]; [done|].
assert (Hp : _prev t = [s; o]).
{ destruct Hf as [Hf | Hf]; rewrite Hf in Hn; by destruct Hn as (_ & ? & _). }
apply accumulate_Some in H1 as (ts & g1 & Hs & _ & ->).
apply accumulate_Some in H2 as (to & g2 & Ho & _ & ->).
assert (Hso : is_Some (h !! o)).
{ apply lookup_lt_is_Some. apply lookup_lt_Some in Ho.
  by rewrite length_insert in Ho. }
assert (q ≠ s).
{ intros ->. apply Hq. exists t. rewrite Hp. split; [done|].
  split; [|by eexists]. apply elem_of_cons. by left. }
assert (q ≠ o).
{ intros ->. apply Hq. exists t. rewrite Hp. split; [done|].
  split; [|done]. apply elem_of_cons. right. by apply list_elem_of_singleton. }
by rewrite !list_lookup_insert_ne.
Qed.

(** A loop of calls changes live dependencies of its nodes only. *)
Lemma for_each_fire_changes (l : list ptr) h h' q :
  wf h → for_each l fire h = Some (tt, h') →
  (∀ v, v ∈ l → ¬ dep h v q) → h' !! q = h !! q.
Proof.
revert h. induction l as [|v l IH]; intros h Hwf Hrun Hq.
- by injection Hrun as <-.
- cbn [for_each] in Hrun.
  apply bind_Some in Hrun as ([] & h1 & Hfire & Hrun).
  destruct (fire_frame v h h1 Hwf Hfire) as [Hwf1 _].
  pose proof (fire_same_graph v h h1 Hfire) as Hs.
  rewrite (IH h1 Hwf1 Hrun).
  + apply (fire_changes v h h1 q Hwf Hfire). apply Hq.
    apply elem_of_cons. by left.
  + intros u Hu Hd. apply (Hq u); [apply elem_of_cons; by right|].
    apply (dep_same_graph h1 h); [by apply same_graph_sym | done].
Qed.

(** X4. On a graph built by the operators, [backward] leaves every node
    that is not reachable from the root exactly as it is. *)
Theorem backward_unreachable root h h' q :
  wf h → backward root h = Some (tt, h') →
  ¬ reachable h root q → h' !! q = h !! q.
Proof.
intros Hwf Hb Hq.
apply backward_Some in Hb as (topo & t & Htopo & Ht & Hrun).
destruct (topo_order_ok h root Hwf) as (topo' & Heq & _ & Hreach & _).
{ by rewrite Ht. }
rewrite Htopo in Heq. injection Heq as <-.
set (g := <[root := _]> h) in Hrun.
assert (Hs : same_graph h g) by (by apply same_graph_set_grad).
assert (Hwfg : wf g) by (by apply wf_set_grad).
rewrite (for_each_fire_changes (reverse topo) g h' q Hwfg Hrun).
- unfold g. apply list_lookup_insert_ne. intros ->. apply Hq, rtc_refl.
- intros v Hv Hd. rewrite elem_of_reverse in Hv. apply Hq.
  eapply rtc_r; [by apply Hreach|].
  apply (dep_same_graph g h); [by apply same_graph_sym | done].
Qed.

(** X5. In the loop of [backward] over the reversed order, the calls
    made after the callable of a node [v] (those of the nodes before [v]
    in the order) do not change [v]: its gradient is final when its
    callable runs. *)
Theorem gradient_final root h (l1 l2 : list ptr) v g g' :
  wf h → is_Some (h !! root) →
  topo_order h root = Some (l1 ++ v :: l2) →
  wf g → same_graph h g →
  for_each (reverse l1) fire g = Some (tt, g') →
  g' !! v = g !! v.
Proof.
intros Hwf Hroot Htopo Hwfg Hs Hrun.
destruct (topo_order_ok h root Hwf Hroot) as (topo & Heq & Hnd & _ & Hord).
rewrite Htopo in Heq. injection Heq as <-.
apply (for_each_fire_changes (reverse l1) g g' v Hwfg Hrun).
intros u Hu Hd. rewrite elem_of_reverse in Hu.
apply (dep_same_graph g h) in Hd; [|by apply same_graph_sym].
apply list_elem_of_lookup in Hu as [j Hj].
pose proof (lookup_lt_Some _ _ _ Hj) as Hjl.
destruct (Hord j u v) as (i & Hi & Hiv); [by rewrite lookup_app_l | done |].
assert (Hv : (l1 ++ v :: l2) !! length l1 = Some v).
{ rewrite lookup_app_r by lia. by rewrite Nat.sub_diag. }
pose proof (NoDup_lookup _ _ _ _ Hnd Hiv Hv). lia.
Qed.

(** The order depends on the dependency lists only. *)
Lemma for_children_ext visit visit' h h' (cs : list ptr) st :
  (∀ p, _prev <$> h !! p = _prev <$> h' !! p) →
  (∀ c st', visit c st' = visit' c st') →
  for_children visit h cs st = for_children visit' h' cs st.
Proof.
intros Hp Hv. revert st. induction cs as [|c cs IH]; intros st; [done|].
cbn [for_children]. specialize (Hp c).
destruct (h !! c), (h' !! c); try done.
rewrite Hv. destruct (visit' c st); [apply IH | done].
Qed.

Lemma build_topo_ext fuel h h' v st :
  (∀ p, _prev <$> h !! p = _prev <$> h' !! p) →
  build_topo fuel h v st = build_topo fuel h' v st.
Proof.
intros Hp. revert v st. induction fuel as [|fuel IH]; intros v st; [done|].
cbn [build_topo]. destruct (decide (v ∈ st.1)); [done|].
assert (Hc : from_option _prev [] (h !! v) = from_option _prev [] (h' !! v)).
{ specialize (Hp v). destruct (h !! v), (h' !! v); cbn in *; congruence. }
rewrite Hc. by rewrite (for_children_ext _ (build_topo fuel h') h h').
Qed.

(** X6. [backward] does not change the order that a later [backward],
    from any node, builds. *)
Theorem backward_keeps_order root h h' r :
  backward root h = Some (tt, h') → topo_order h' r = topo_order h r.
Proof.
intros Hs%backward_graph.
unfold topo_order. rewrite <- (same_graph_length h h' Hs). f_equal.
apply build_topo_ext. intros p.
pose proof (same_graph_lookup h h' p Hs) as Hl.
destruct (h !! p) as [t1|], (h' !! p) as [t2|]; try done.
injection Hl as _ _ Hp _. cbn. by rewrite Hp.
Qed.

(** X3. When [backward] returns, the arena has the same nodes, and
    every node has the value, the callable, the dependencies and the
    operator tag it had: only gradients change. *)
Theorem backward_changes_gradients_only root h h' :
  backward root h = Some (tt, h') →
  length h' = length h
  ∧ ∀ p, data_of h' p = data_of h p
         ∧ _backward <$> h' !! p = _backward <$> h !! p
         ∧ _prev <$> h' !! p = _prev <$> h !! p
         ∧ _op <$> h' !! p = _op <$> h !! p.
Proof.
intros Hs%backward_graph.
split; [symmetry; by apply same_graph_length|].
intros p. pose proof (same_graph_lookup h h' p Hs) as Hl.
unfold data_of. destruct (h !! p) as [t1|], (h' !! p) as [t2|]; try done.
injection Hl as H1 H2 H3 H4. cbn. by rewrite H1, H2, H3, H4.
Qed.

End Structure.

(** * Graphs without broadcasting *)

Section Uniform.

Implicit Types (h g : heap) (t : Tensor) (p v root q : ptr) (f : closure).

Lemma uniform_set_grad n h p t (x : xarray) :
  uniform n h → h !! p = Some t → length x = n →
  uniform n (<[p := set_grad x t]> h).
Proof.
intros Hu Ht Hx q tq Hq. destruct (decide (q = p)) as [-> | Hne].
- rewrite list_lookup_insert_eq in Hq by (by eapply lookup_lt_Some).
  injection Hq as <-. destruct (Hu p t Ht) as [Hd _]. by split.
- rewrite list_lookup_insert_ne in Hq by done. by apply (Hu q).
Qed.

Lemma accumulate_uniform n p (x : xarray) h :
  uniform n h → wf h → is_Some (h !! p) → length x = n →
  ∃ h', accumulate p x h = Some (tt, h')
        ∧ uniform n h' ∧ wf h' ∧ length h' = length h.
Proof.
intros Hu Hwf [t Ht] Hx. destruct (Hu p t Ht) as [_ Hg]. unfold shape in Hg.
exists (<[p := set_grad (zip_with PrimFloat.add (grad t) x) t]> h).
split; [|split; [|split]].
- apply accumulate_eq; [done|]. apply add_assign_same. congruence.
- apply uniform_set_grad; [done..|]. rewrite length_zip_with. lia.
- by apply wf_set_grad.
- apply length_insert.
Qed.

(** A callable whose three nodes are in the arena. *)
Lemma call_uniform n f h :
  uniform n h → wf h →
  match f with
  | Noop => True
  | AddBackward out self other | MulBackward out self other =>
      is_Some (h !! out) ∧ is_Some (h !! self) ∧ is_Some (h !! other)
  end →
  ∃ h', call f h = Some (tt, h')
        ∧ uniform n h' ∧ wf h' ∧ length h' = length h.
Proof.
intros Hu Hwf Hf. destruct f as [|out s o|out s o].
- by exists h.
- destruct Hf as ([to Hto] & Hs & Ho).
  destruct (Hu out to Hto) as [_ Hgo]. unfold shape in Hgo.
  destruct (accumulate_uniform n s (grad to) h Hu Hwf Hs Hgo)
    as (h1 & Ha1 & Hu1 & Hwf1 & Hl1).
  assert (Hto1 : is_Some (h1 !! out)).
  { apply lookup_lt_is_Some. rewrite Hl1. by eapply lookup_lt_Some. }
  destruct Hto1 as [to1 Hto1].
  destruct (Hu1 out to1 Hto1) as [_ Hgo1]. unfold shape in Hgo1.
  destruct (accumulate_uniform n o (grad to1) h1 Hu1 Hwf1) as
    (h2 & Ha2 & Hu2 & Hwf2 & Hl2); [|done|].
  { apply lookup_lt_is_Some. rewrite Hl1. by apply lookup_lt_is_Some. }
  exists h2. split; [|by rewrite Hl2, Hl1].
  cbn [call]. unfold bind, deref. by rewrite Hto, Ha1, Hto1, Ha2.
- destruct Hf as ([to Hto] & [ts Hts] & [tt' Htt]).
  destruct (Hu out to Hto) as [_ Hgo]. unfold shape in Hgo.
  destruct (Hu o tt' Htt) as [Hdo _]. unfold shape in Hdo.
  destruct (accumulate_uniform n s
              (zip_with PrimFloat.mul (grad to) (data tt')) h Hu Hwf)
    as (h1 & Ha1 & Hu1 & Hwf1 & Hl1); [by eexists| |].
  { rewrite length_zip_with. lia. }
  assert (Hto1 : is_Some (h1 !! out)).
  { apply lookup_lt_is_Some. rewrite Hl1. by eapply lookup_lt_Some. }
  destruct Hto1 as [to1 Hto1].
  assert (Hts1 : is_Some (h1 !! s)).
  { apply lookup_lt_is_Some. rewrite Hl1. by eapply lookup_lt_Some. }
  destruct Hts1 as [ts1 Hts1].
  destruct (Hu1 out to1 Hto1) as [_ Hgo1]. unfold shape in Hgo1.
  destruct (Hu1 s ts1 Hts1) as [Hds1 _]. unfold shape in Hds1.
  destruct (accumulate_uniform n o
              (zip_with PrimFloat.mul (grad to1) (data ts1)) h1 Hu1 Hwf1)
    as (h2 & Ha2 & Hu2 & Hwf2 & Hl2).
  { apply lookup_lt_is_Some. rewrite Hl1. by eapply lookup_lt_Some. }
  { rewrite length_zip_with. lia. }
  exists h2. split; [|by rewrite Hl2, Hl1].
  cbn [call]. unfold bind, deref, lift.
  rewrite Hto, Htt, mul_same by congruence. rewrite Ha1.
  rewrite Hto1, Hts1, mul_same by congruence. by rewrite Ha2.
Qed.

Lemma fire_uniform n v h :
  uniform n h → wf h → is_Some (h !! v) →
  ∃ h', fire v h = Some (tt, h')
        ∧ uniform n h' ∧ wf h' ∧ length h' = length h.
Proof.
intros Hu Hwf [t Ht]. pose proof (Hwf v t Ht) as Hn. unfold node_wf in Hn.
pose proof (lookup_lt_Some _ _ _ Ht) as Hlt.
destruct (call_uniform n (_backward t) h Hu Hwf) as (h' & Hc & Hrest).
{ destruct (_backward t) as [|out s o|out s o]; [done|..];
    destruct Hn as (-> & _ & ? & ?);
    (split; [by eexists|]); split; apply lookup_lt_is_Some; lia. }
exists h'. split; [|done]. unfold fire, bind, deref. by rewrite Ht.
Qed.

Lemma for_each_fire_uniform n (l : list ptr) h :
  uniform n h → wf h → (∀ v, v ∈ l → is_Some (h !! v)) →
  ∃ h', for_each l fire h = Some (tt, h')
        ∧ uniform n h' ∧ wf h' ∧ length h' = length h.
Proof.
revert h. induction l as [|v l IH]; intros h Hu Hwf Hl.
{ by exists h. }
destruct (fire_uniform n v h Hu Hwf) as (h1 & Hf & Hu1 & Hwf1 & Hl1).
{ apply Hl, elem_of_cons. by left. }
destruct (IH h1 Hu1 Hwf1) as (h2 & Hr & Hu2 & Hwf2 & Hl2).
{ intros u Hu'. apply lookup_lt_is_Some. rewrite Hl1.
  apply lookup_lt_is_Some, Hl, elem_of_cons. by right. }
exists h2. split; [|by rewrite Hl2, Hl1].
cbn [for_each]. unfold bind. by rewrite Hf.
Qed.

Lemma reachable_in_heap h root v :
  is_Some (h !! root) → reachable h root v → is_Some (h !! v).
Proof.
intros Hroot Hr. unfold reachable in Hr. revert v Hr.
apply (rtc_ind_r (λ v, is_Some (h !! v))); [done|].
intros u c _ (t & _ & _ & Hc) _. done.
Qed.

(** X7. On a graph built by the operators in which every value and
    every gradient has the same shape, [backward] from a node of the
    graph returns, and every gradient keeps that shape. *)
Theorem backward_uniform n root h :
  wf h → uniform n h → is_Some (h !! root) →
  ∃ h', backward root h = Some (tt, h') ∧ uniform n h' ∧ wf h'.
Proof.
intros Hwf Hu Hroot.
destruct (topo_order_ok h root Hwf Hroot) as (topo & Heq & _ & Hreach & _).
destruct Hroot as [t Ht]. destruct (Hu root t Ht) as [Hd _].
set (g := <[root := set_grad (ones (shape (data t))) t]> h).
destruct (for_each_fire_uniform n (reverse topo) g)
  as (h' & Hrun & Hu' & Hwf' & _).
{ apply uniform_set_grad; [done..|]. rewrite length_ones. done. }
{ by apply wf_set_grad. }
{ intros v Hv. rewrite elem_of_reverse in Hv.
  apply lookup_lt_is_Some. unfold g. rewrite length_insert.
  apply lookup_lt_is_Some, (reachable_in_heap h root); [by eexists|].
  by apply Hreach. }
exists h'. split; [|done].
unfold backward, bind at 1, lift. rewrite Heq.
unfold bind at 1, seed, bind, deref, modify. by rewrite Ht, Ht.
Qed.

Lemma uniform_snoc n h t :
  uniform n h → shape (data t) = n → shape (grad t) = n →
  uniform n (h ++ [t]).
Proof.
intros Hu Hd Hg p tp Hp.
apply lookup_app_Some in Hp as [Hp | [_ Hp]]; [by apply (Hu p)|].
by apply list_lookup_singleton_Some in Hp as [_ <-].
Qed.

(** X8. On a graph in which every value and every gradient has the
    same shape, the sum and the product of two nodes never throw, and
    the graph with the new node is again of that shape. *)
Theorem operators_uniform n a b h :
  uniform n h → is_Some (h !! a) → is_Some (h !! b) →
  (∃ h', operator_add a b h = Some (length h, h') ∧ uniform n h')
  ∧ (∃ h', operator_mul a b h = Some (length h, h') ∧ uniform n h').
Proof.
intros Hu [ta Ha] [tb Hb].
destruct (Hu a ta Ha) as [Hda _]. destruct (Hu b tb Hb) as [Hdb _].
unfold shape in *. split.
- rewrite operator_add_eq, Ha, Hb. cbn [mbind option_bind].
  unfold XArray.add. rewrite broadcast_same by congruence.
  cbn [mbind option_bind]. eexists. split; [done|].
  apply uniform_snoc; [done|..]; cbn; unfold shape;
    rewrite ?length_zeros, length_zip_with; lia.
- rewrite operator_mul_eq, Ha, Hb. cbn [mbind option_bind].
  unfold XArray.mul. rewrite broadcast_same by congruence.
  cbn [mbind option_bind]. eexists. split; [done|].
  apply uniform_snoc; [done|..]; cbn; unfold shape;
    rewrite ?length_zeros, length_zip_with; lia.
Qed.

End Uniform.

(** * Shapes, leaves and the two derived operators *)

Section Derived.

Implicit Types (h g : heap) (t : Tensor) (p v root q a b : ptr) (d : xarray).

Lemma broadcast_None (f : float → float → float) (x y : xarray) :
  broadcast f x y = None → broadcast_shape (length x) (length y) = None.
Proof.
unfold broadcast, broadcast_shape.
destruct (length x =? length y) eqn:Hxy; [done|].
destruct x as [|x0 [|x1 x]], y as [|y0 [|y1 y]]; try done.
all: cbn [length] in *; intros _; cbn; by rewrite ?Hxy.
Qed.

(** X9. The sum and the product of two nodes throw exactly when the
    shapes of the values do not broadcast; otherwise one node is
    appended, with the broadcast shape, a zero gradient, the operands as
    dependencies in order, and the nodes before it untouched. *)
Theorem operator_shapes a b h ta tb :
  h !! a = Some ta → h !! b = Some tb →
  match broadcast_shape (shape (data ta)) (shape (data tb)) with
  | None => operator_add a b h = None ∧ operator_mul a b h = None
  | Some n =>
      (∃ t, operator_add a b h = Some (length h, h ++ [t])
            ∧ shape (data t) = n ∧ grad t = zeros n
            ∧ _prev t = [a; b] ∧ _op t = "+")
      ∧ (∃ t, operator_mul a b h = Some (length h, h ++ [t])
              ∧ shape (data t) = n ∧ grad t = zeros n
              ∧ _prev t = [a; b] ∧ _op t = "*")
  end.
Proof.
intros Ha Hb. rewrite operator_add_eq, operator_mul_eq, Ha, Hb.
cbn [mbind option_bind]. unfold XArray.add, XArray.mul, shape.
destruct (broadcast PrimFloat.add (data ta) (data tb)) as [s|] eqn:Hs;
  destruct (broadcast PrimFloat.mul (data ta) (data tb)) as [m|] eqn:Hm.
- rewrite (broadcast_length _ _ _ _ Hs).
  pose proof (broadcast_length _ _ _ _ Hm) as Hlm.
  rewrite (broadcast_length _ _ _ _ Hs) in Hlm. injection Hlm as Hlm.
  cbn [mbind option_bind]. split; eexists; (split; [done|]); cbn;
    unfold shape; by rewrite ?Hlm.
- apply broadcast_None in Hm. apply broadcast_length in Hs. congruence.
- apply broadcast_None in Hs. apply broadcast_length in Hm. congruence.
- by rewrite (broadcast_None _ _ _ Hs).
Qed.

(** The arena after [operator+(double)] on a node. *)
Lemma operator_add_scalar_heap a (x : float) h ta :
  h !! a = Some ta →
  operator_add_scalar a x h
  = Some (S (length h),
          h ++ [ Tensor_leaf [x];
                 {| data := map (λ y, (y + x)%float) (data ta);
                    grad := zeros (shape (data ta));
                    _backward := AddBackward (S (length h)) a (length h);
                    _prev := [a; length h]; _op := "+" |} ]).
Proof.
intros Ha. rewrite operator_add_scalar_eq, operator_add_eq.
pose proof (lookup_lt_Some _ _ _ Ha) as Hlt.
rewrite (lookup_app_l h _ a) by done.
rewrite Ha, lookup_snoc. cbn [mbind option_bind Tensor_leaf data].
unfold XArray.add. rewrite broadcast_one_r. cbn [mbind option_bind].
rewrite length_app, <- (assoc_L (++)). cbn [length app].
unfold shape. rewrite length_map, Nat.add_1_r. reflexivity.
Qed.

(** X10. Adding a scalar to a node never throws: a leaf that holds the
    scalar is appended, then the sum, whose value is the value of the
    node with the scalar added to each element, of the same shape. *)
Theorem add_scalar_value a (x : float) h ta :
  h !! a = Some ta →
  ∃ t, operator_add_scalar a x h
       = Some (S (length h), h ++ [Tensor_leaf [x]; t])
       ∧ data t = map (λ y, (y + x)%float) (data ta)
       ∧ shape (data t) = shape (data ta)
       ∧ grad t = zeros (shape (data ta))
       ∧ _backward t = AddBackward (S (length h)) a (length h)
       ∧ _prev t = [a; length h]
       ∧ _op t = "+".
Proof.
intros Ha. eexists. split; [by apply operator_add_scalar_heap|].
cbn. unfold shape. by rewrite length_map.
Qed.

(** X11. [backward] on a node without dependencies puts ones in its
    gradient and changes nothing else; a second call changes nothing
    more. *)
Theorem backward_leaf p h t :
  h !! p = Some t → _backward t = Noop → _prev t = [] →
  ∃ h', backward p h = Some (tt, h')
        ∧ h' = <[p := set_grad (ones (shape (data t))) t]> h
        ∧ backward p h' = Some (tt, h').
Proof.
assert (Hone : ∀ g tg, g !! p = Some tg → _backward tg = Noop →
                       _prev tg = [] →
          backward p g
          = Some (tt, <[p := set_grad (ones (shape (data tg))) tg]> g)).
{ intros g tg Hg Hb Hp. unfold backward, bind at 1, lift, topo_order.
  cbn [build_topo fst snd].
  rewrite decide_False by apply not_elem_of_empty.
  rewrite Hg. cbn [from_option]. rewrite Hp.
  cbn [for_children fmap option_fmap option_map fst snd app reverse].
  unfold bind at 1, seed, bind at 1, deref, modify. rewrite Hg, Hg.
  change (reverse [p]) with [p]. cbn [for_each]. unfold bind.
  rewrite (fire_leaf p _ (set_grad (ones (shape (data tg))) tg)); [done| |done].
  apply list_lookup_insert_eq. by eapply lookup_lt_Some. }
intros Ht Hb Hp. eexists. split; [by apply Hone|]. split; [done|].
rewrite (Hone _ (set_grad (ones (shape (data t))) t)); try done.
- by rewrite list_insert_insert_eq.
- apply list_lookup_insert_eq. by eapply lookup_lt_Some.
Qed.

End Derived.

Section DerivedGradients.

Implicit Types (h g : heap) (t : Tensor) (p v root q a b : ptr) (d : xarray).

Lemma add_assign_one_l (x : float) (y : xarray) :
  y ≠ [] → add_assign [x] y = Some (map (PrimFloat.add x) y).
Proof.
intros Hy. unfold add_assign, XArray.add. rewrite broadcast_one_l.
rewrite length_map. destruct y; [done|]. reflexivity.
Qed.

Lemma neg_ones n :
  zip_with PrimFloat.add (zeros n) (map (λ x, (x * -1)%float) (ones n))
  = replicate n (-1)%float.
Proof.
unfold zeros, ones. induction n as [|n IH]; [done|]. cbn. by rewrite IH.
Qed.

(** The arena after [operator-()] on a node. *)
Lemma operator_neg_heap a h ta :
  h !! a = Some ta →
  operator_neg a h
  = Some (S (length h),
          h ++ [ Tensor_leaf [(-1)%float];
                 {| data := map (λ y, (y * -1)%float) (data ta);
                    grad := zeros (shape (data ta));
                    _backward := MulBackward (S (length h)) a (length h);
                    _prev := [a; length h]; _op := "*" |} ]).
Proof.
intros Ha. rewrite operator_neg_eq, operator_mul_eq.
pose proof (lookup_lt_Some _ _ _ Ha) as Hlt.
rewrite (lookup_app_l h _ a) by done.
rewrite Ha, lookup_snoc. cbn [mbind option_bind Tensor_leaf data].
unfold XArray.mul. rewrite broadcast_one_r. cbn [mbind option_bind].
rewrite length_app, <- (assoc_L (++)). cbn [length app].
unfold shape. rewrite length_map, Nat.add_1_r. reflexivity.
Qed.

(** X12. The derivative of a negation.  For a leaf with a zero gradient
    and a value that is not empty, after [backward] on its negation every
    element of its gradient is [-1.0]. *)
Theorem neg_gradient h a d :
  fresh_leaf h a d → d ≠ [] →
  ∃ r h0 h1,
    operator_neg a h = Some (r, h0)
    ∧ backward r h0 = Some (tt, h1)
    ∧ grad_of h1 a = Some (replicate (length d) (-1)%float).
Proof.
intros (ta & Ha & Hda & Hga & Hfa & Hpa) Hd.
pose proof (lookup_lt_Some _ _ _ Ha) as Hla.
rewrite (operator_neg_heap a h ta Ha). rewrite Hda. unfold shape in *.
remember (length d) as n eqn:Hn. remember (length h) as m eqn:Hm.
set (tm := Tensor_leaf [(-1)%float]).
set (tr := {| data := map (λ y, (y * -1)%float) d |}).
set (h0 := h ++ [tm; tr]).
assert (Hlen : length h0 = S (S m))
  by (unfold h0; rewrite length_app; cbn; lia).
assert (Hr0 : h0 !! S m = Some tr).
{ unfold h0. rewrite lookup_app_r by lia.
  by replace (S m - length h) with 1 by lia. }
assert (Hm0 : h0 !! m = Some tm).
{ unfold h0. rewrite lookup_app_r by lia.
  by replace (m - length h) with 0 by lia. }
assert (Ha0 : h0 !! a = Some ta) by (unfold h0; by rewrite lookup_app_l by lia).
assert (Hdr : shape (data tr) = n) by (cbn; unfold shape; by rewrite length_map).
set (g0 := <[S m := set_grad (ones n) tr]> h0).
set (va := map (λ x, (x * -1)%float) (ones n)).
set (ga := zip_with PrimFloat.add (zeros n) va).
set (vb := zip_with PrimFloat.mul (ones n) d).
set (gb := map (PrimFloat.add 0) vb).
assert (Hcall : call (MulBackward (S m) a m) g0
                = Some (tt, <[m := set_grad gb tm]>
                              (<[a := set_grad ga ta]> g0))).
{ apply (call_mul_eq g0 (S m) a m (set_grad (ones n) tr) ta tm tm va vb).
  - unfold g0. heap_lookup.
  - unfold g0. heap_lookup.
  - unfold g0. heap_lookup.
  - lia.
  - lia.
  - cbn. unfold XArray.mul. apply broadcast_one_r.
  - rewrite Hga. apply add_assign_same.
    unfold va. by rewrite length_map, length_zeros, length_ones.
  - unfold g0. heap_lookup.
  - cbn. rewrite Hda. apply mul_same. by rewrite length_ones.
  - cbn. apply add_assign_one_l. unfold vb.
    destruct d; [done|]. subst n. done. }
exists (S m), h0, (<[m := set_grad gb tm]> (<[a := set_grad ga ta]> g0)).
split; [done|]. split.
- apply (backward_binary h0 _ (S m) a m tr ta tm); try done; try lia.
  + rewrite Hdr. exact Hcall.
  + assert (a ≠ m) by lia.
    eexists. split; [unfold g0; heap_lookup | exact Hfa].
  + eexists. split; [unfold g0; heap_lookup | done].
- unfold grad_of, g0. assert (a ≠ m) by lia. heap_lookup.
  cbn. unfold ga, va. by rewrite neg_ones.
Qed.

Lemma add_zeros_ones n : zip_with PrimFloat.add (zeros n) (ones n) = ones n.
Proof.
unfold zeros, ones. induction n as [|n IH]; [done|]. cbn. by rewrite IH.
Qed.

(** X13. The derivative of the sum with a scalar.  For a leaf with a zero
    gradient and a value that is not empty, after [backward] on the leaf
    plus a scalar every element of its gradient is [1.0]. *)
Theorem add_scalar_gradient h a d (x : float) :
  fresh_leaf h a d → d ≠ [] →
  ∃ r h0 h1,
    operator_add_scalar a x h = Some (r, h0)
    ∧ backward r h0 = Some (tt, h1)
    ∧ grad_of h1 a = Some (ones (shape d)).
Proof.
intros (ta & Ha & Hda & Hga & Hfa & Hpa) Hd.
pose proof (lookup_lt_Some _ _ _ Ha) as Hla.
rewrite (operator_add_scalar_heap a x h ta Ha). rewrite Hda.
unfold shape in *.
remember (length d) as n eqn:Hn. remember (length h) as m eqn:Hm.
set (tm := Tensor_leaf [x]).
set (tr := {| data := map (λ y, (y + x)%float) d |}).
set (h0 := h ++ [tm; tr]).
assert (Hlen : length h0 = S (S m))
  by (unfold h0; rewrite length_app; cbn; lia).
assert (Hr0 : h0 !! S m = Some tr).
{ unfold h0. rewrite lookup_app_r by lia.
  by replace (S m - length h) with 1 by lia. }
assert (Hm0 : h0 !! m = Some tm).
{ unfold h0. rewrite lookup_app_r by lia.
  by replace (m - length h) with 0 by lia. }
assert (Ha0 : h0 !! a = Some ta) by (unfold h0; by rewrite lookup_app_l by lia).
assert (Hdr : shape (data tr) = n) by (cbn; unfold shape; by rewrite length_map).
set (g0 := <[S m := set_grad (ones n) tr]> h0).
set (ga := zip_with PrimFloat.add (zeros n) (ones n)).
set (gb := map (PrimFloat.add 0) (ones n)).
assert (Ham : a ≠ m) by lia.
assert (Hcall : call (AddBackward (S m) a m) g0
                = Some (tt, <[m := set_grad gb tm]>
                              (<[a := set_grad ga ta]> g0))).
{ apply (call_add_eq g0 (S m) a m (set_grad (ones n) tr) ta tm).
  - unfold g0. heap_lookup.
  - unfold g0. heap_lookup.
  - lia.
  - lia.
  - rewrite Hga. apply add_assign_same. cbn.
    by rewrite length_zeros, length_ones.
  - unfold g0. heap_lookup.
  - cbn. apply add_assign_one_l. destruct d; [done|]. subst n. done. }
exists (S m), h0, (<[m := set_grad gb tm]> (<[a := set_grad ga ta]> g0)).
split; [done|]. split.
- apply (backward_binary h0 _ (S m) a m tr ta tm); try done; try lia.
  + rewrite Hdr. exact Hcall.
  + eexists. split; [unfold g0; heap_lookup | exact Hfa].
  + eexists. split; [unfold g0; heap_lookup | done].
- unfold grad_of, g0. heap_lookup.
  cbn. unfold ga. by rewrite add_zeros_ones.
Qed.

End DerivedGradients.

(** * The forward values commute *)

Section Commute.

Lemma SFmul_comm (x y : spec_float) : SF64mul x y = SF64mul y x.
Proof.
unfold SF64mul, SFmul.
destruct x as [sx|sx| |sx mx ex], y as [sy|sy| |sy my ey];
  try (by destruct sx, sy); try done.
by rewrite Pos.mul_comm, Z.add_comm, xorb_comm.
Qed.

Lemma SFadd_comm (x y : spec_float) : SF64add x y = SF64add y x.
Proof.
unfold SF64add, SFadd.
destruct x as [sx|sx| |sx mx ex], y as [sy|sy| |sy my ey];
  try (by destruct sx, sy); try done.
by rewrite Z.min_comm, Z.add_comm.
Qed.

Lemma float_mul_comm (x y : float) : (x * y)%float = (y * x)%float.
Proof. apply Prim2SF_inj. rewrite !mul_spec. apply SFmul_comm. Qed.

Lemma float_add_comm (x y : float) : (x + y)%float = (y + x)%float.
Proof. apply Prim2SF_inj. rewrite !add_spec. apply SFadd_comm. Qed.

Lemma zip_with_comm (f : float → float → float) (a b : xarray) :
  (∀ x y, f x y = f y x) → zip_with f a b = zip_with f b a.
Proof.
intros Hf. revert b. induction a as [|x a IH]; intros [|y b]; try done.
cbn. by rewrite Hf, IH.
Qed.

Lemma broadcast_comm (f : float → float → float) (a b : xarray) :
  (∀ x y, f x y = f y x) → broadcast f a b = broadcast f b a.
Proof.
intros Hf. unfold broadcast. rewrite (Nat.eqb_sym (length b)).
destruct (length a =? length b) eqn:Hab.
{ by rewrite (zip_with_comm f a b). }
destruct a as [|x [|x' a]], b as [|y [|y' b]]; try done.
all: cbn; f_equal;
  repeat first [ apply Hf | apply map_ext; intros ? | f_equal ].
Qed.

End Commute.


(** X14. The value of a sum, and of a product, does not depend on the
    order of the operands: [a + b] and [b + a] throw together, and
    otherwise are built at the same address with the same value. *)
Theorem operators_commute a b (h : heap) :
  match operator_add a b h with
  | Some (p, h1) =>
      ∃ h2, operator_add b a h = Some (p, h2) ∧ data_of h2 p = data_of h1 p
  | None => operator_add b a h = None
  end
  ∧ match operator_mul a b h with
    | Some (p, h1) =>
        ∃ h2, operator_mul b a h = Some (p, h2)
              ∧ data_of h2 p = data_of h1 p
    | None => operator_mul b a h = None
    end.
Proof.
rewrite !operator_add_eq, !operator_mul_eq.
destruct (h !! a) as [ta|], (h !! b) as [tb|]; try done.
cbn [mbind option_bind]. unfold XArray.add, XArray.mul.
rewrite (broadcast_comm PrimFloat.add (data tb)) by apply float_add_comm.
rewrite (broadcast_comm PrimFloat.mul (data tb)) by apply float_mul_comm.
split.
- destruct (broadcast PrimFloat.add (data ta) (data tb)) as [d|]; [|done].
  cbn [mbind option_bind]. eexists. split; [done|].
  unfold data_of. by rewrite !lookup_snoc.
- destruct (broadcast PrimFloat.mul (data ta) (data tb)) as [d|]; [|done].
  cbn [mbind option_bind]. eexists. split; [done|].
  unfold data_of. by rewrite !lookup_snoc.
Qed.

(** * Termination and acyclicity *)

Section Acyclic.

Implicit Types (h : heap) (st : gset ptr * list ptr) (v u c root : ptr).

Lemma build_topo_last fuel h v st st' :
  v ∉ st.1 → build_topo fuel h v st = Some st' → ∃ l, st'.2 = l ++ [v].
Proof.
intros Hv. destruct fuel as [|fuel]; [done|]. cbn [build_topo].
rewrite decide_False by done.
destruct (for_children _ _ _ _) as [st1|]; [|done].
intros [= <-]. by eexists.
Qed.

Lemma tc_dep_lt h u v : wf h → tc (dep h) u v → v < u.
Proof.
intros Hwf. induction 1 as [u v Hd | u c v Hd _ IH].
- by eapply dep_lt.
- apply (dep_lt h u c Hwf) in Hd. lia.
Qed.

End Acyclic.

(** X1. The topological pass of [backward] returns on every arena,
    cyclic ones included, and the root is the last node of the order it
    builds (so the callable of the root is the first one called). *)
Theorem topological_pass_returns (h : heap) (root : ptr) :
  ∃ l, topo_order h root = Some (l ++ [root]).
Proof.
destruct (topo_order_total h root) as [topo Ht]. unfold topo_order in *.
destruct (build_topo (S (length h)) h root (∅, [])) as [st|] eqn:Hb; [|done].
destruct (build_topo_last _ _ _ _ _ (not_elem_of_empty root) Hb) as [l Hl].
exists l. cbn. by rewrite Hl.
Qed.

(** X2. Every graph that a client can build, by [create], the four
    operators and [backward], keeps the invariant of the operators (a
    callable captures its own node and the two dependencies of the node,
    which were allocated before it), and is acyclic: no node depends on
    itself through one or more dependency edges. *)
Theorem built_acyclic (h : heap) :
  built h → wf h ∧ ∀ u, ¬ tc (dep h) u u.
Proof.
intros Hb. pose proof (built_wf h Hb) as Hwf. split; [done|].
intros u Hu. apply (tc_dep_lt h u u Hwf) in Hu. lia.
Qed.

(** * The properties on the graph of [main] *)

Section Instances.

Lemma built_main_graph : built main_graph.
Proof.
apply (built_mul 2 0 (take 3 main_graph) 3); [|reflexivity].
apply (built_add 0 1 (take 2 main_graph) 2); [|reflexivity].
apply (built_create [3%float] (take 1 main_graph) 1); [|reflexivity].
apply (built_create [2%float] [] 0); [apply built_empty | reflexivity].
Qed.

Lemma uniform_main_with (gx gy gz gw : float) :
  uniform 1 (main_with gx gy gz gw).
Proof.
intros i t Hi.
destruct i as [|[|[|[|i]]]]; cbn in Hi; try done; by injection Hi as <-.
Qed.

Lemma unreachable_above (h : heap) (root q : ptr) :
  wf h → root < q → ¬ reachable h root q.
Proof. intros Hwf Hlt Hr. apply (reachable_le h root q Hwf) in Hr. lia. Qed.

End Instances.

Lemma built_acyclic_witness :
  built main_graph ∧ wf main_graph ∧ ∀ u, ¬ tc (dep main_graph) u u.
Proof.
split; [apply built_main_graph|].
apply (built_acyclic main_graph built_main_graph).
Defined.

Lemma backward_changes_gradients_only_witness :
  backward 3 main_graph = Some (tt, main_with 7 2 2 1)
  ∧ length (main_with 7 2 2 1) = length main_graph
  ∧ ∀ p, data_of (main_with 7 2 2 1) p = data_of main_graph p
         ∧ _backward <$> main_with 7 2 2 1 !! p = _backward <$> main_graph !! p
         ∧ _prev <$> main_with 7 2 2 1 !! p = _prev <$> main_graph !! p
         ∧ _op <$> main_with 7 2 2 1 !! p = _op <$> main_graph !! p.
Proof.
split; [vm_compute; reflexivity|].
apply (backward_changes_gradients_only 3 main_graph (main_with 7 2 2 1)).
vm_compute. reflexivity.
Defined.

Lemma backward_unreachable_witness :
  wf main_graph
  ∧ backward 2 main_graph = Some (tt, main_with 1 1 1 0)
  ∧ ¬ reachable main_graph 2 3
  ∧ main_with 1 1 1 0 !! 3 = main_graph !! 3.
Proof.
assert (Hwf : wf main_graph) by apply (wf_main_with 0 0 0 0).
assert (Hb : backward 2 main_graph = Some (tt, main_with 1 1 1 0))
  by (vm_compute; reflexivity).
assert (Hn : ¬ reachable main_graph 2 3)
  by (apply unreachable_above; [done | lia]).
split; [done|]. split; [done|]. split; [done|].
apply (backward_unreachable 2 main_graph (main_with 1 1 1 0) 3 Hwf Hb Hn).
Defined.

Lemma gradient_final_witness :
  wf main_graph ∧ is_Some (main_graph !! 3)
  ∧ topo_order main_graph 3 = Some ([0; 1; 2] ++ 3 :: [])
  ∧ wf (main_with 5 0 2 1) ∧ same_graph main_graph (main_with 5 0 2 1)
  ∧ for_each (reverse [0; 1; 2]) fire (main_with 5 0 2 1)
    = Some (tt, main_with 7 2 2 1)
  ∧ main_with 7 2 2 1 !! 3 = main_with 5 0 2 1 !! 3.
Proof.
assert (Hwf : wf main_graph) by apply (wf_main_with 0 0 0 0).
assert (Hs : is_Some (main_graph !! 3)) by (by eexists).
assert (Ht : topo_order main_graph 3 = Some ([0; 1; 2] ++ 3 :: []))
  by (vm_compute; reflexivity).
assert (Hwg : wf (main_with 5 0 2 1)) by apply wf_main_with.
assert (Hg : same_graph main_graph (main_with 5 0 2 1)) by reflexivity.
assert (Hr : for_each (reverse [0; 1; 2]) fire (main_with 5 0 2 1)
             = Some (tt, main_with 7 2 2 1)) by (vm_compute; reflexivity).
repeat (split; [done|]).
apply (gradient_final 3 main_graph [0; 1; 2] [] 3 (main_with 5 0 2 1)
         (main_with 7 2 2 1) Hwf Hs Ht Hwg Hg Hr).
Defined.

Lemma backward_keeps_order_witness :
  backward 3 main_graph = Some (tt, main_with 7 2 2 1)
  ∧ topo_order (main_with 7 2 2 1) 2 = topo_order main_graph 2.
Proof.
split; [vm_compute; reflexivity|].
apply (backward_keeps_order 3 main_graph (main_with 7 2 2 1) 2).
vm_compute. reflexivity.
Defined.

Lemma backward_uniform_witness :
  wf (main_with 7 2 2 1) ∧ uniform 1 (main_with 7 2 2 1)
  ∧ is_Some (main_with 7 2 2 1 !! 3)
  ∧ ∃ h', backward 3 (main_with 7 2 2 1) = Some (tt, h')
          ∧ uniform 1 h' ∧ wf h'.
Proof.
split; [apply wf_main_with|]. split; [apply uniform_main_with|].
split; [by eexists|].
apply (backward_uniform 1 3 (main_with 7 2 2 1)).
- apply wf_main_with.
- apply uniform_main_with.
- by eexists.
Defined.

Lemma operators_uniform_witness :
  uniform 1 main_graph ∧ is_Some (main_graph !! 2)
  ∧ is_Some (main_graph !! 3)
  ∧ (∃ h', operator_add 2 3 main_graph = Some (length main_graph, h')
           ∧ uniform 1 h')
  ∧ (∃ h', operator_mul 2 3 main_graph = Some (length main_graph, h')
           ∧ uniform 1 h').
Proof.
split; [apply (uniform_main_with 0 0 0 0)|].
split; [by eexists|]. split; [by eexists|].
apply (operators_uniform 1 2 3 main_graph).
- apply (uniform_main_with 0 0 0 0).
- by eexists.
- by eexists.
Defined.

Lemma operator_shapes_witness :
  main_graph !! 0 = Some (Tensor_leaf [2%float])
  ∧ main_graph !! 1 = Some (Tensor_leaf [3%float])
  ∧ (∃ t, operator_add 0 1 main_graph
          = Some (length main_graph, main_graph ++ [t])
          ∧ shape (data t) = 1 ∧ grad t = zeros 1
          ∧ _prev t = [0; 1] ∧ _op t = "+")
  ∧ (∃ t, operator_mul 0 1 main_graph
          = Some (length main_graph, main_graph ++ [t])
          ∧ shape (data t) = 1 ∧ grad t = zeros 1
          ∧ _prev t = [0; 1] ∧ _op t = "*").
Proof.
split; [reflexivity|]. split; [reflexivity|].
apply (operator_shapes 0 1 main_graph (Tensor_leaf [2%float])
         (Tensor_leaf [3%float]) eq_refl eq_refl).
Defined.

Lemma add_scalar_value_witness :
  main_graph !! 2 = Some
    {| data := [5%float]; grad := [0%float];
       _backward := AddBackward 2 0 1; _prev := [0; 1]; _op := "+" |}
  ∧ ∃ t, operator_add_scalar 2 1%float main_graph
         = Some (5, main_graph ++ [Tensor_leaf [1%float]; t])
         ∧ data t = [6%float]
         ∧ shape (data t) = 1
         ∧ grad t = zeros 1
         ∧ _backward t = AddBackward 5 2 4
         ∧ _prev t = [2; 4]
         ∧ _op t = "+".
Proof.
split; [reflexivity|].
apply (add_scalar_value 2 1%float main_graph _ eq_refl).
Defined.

Lemma backward_leaf_witness :
  main_graph !! 0 = Some (Tensor_leaf [2%float])
  ∧ _backward (Tensor_leaf [2%float]) = Noop
  ∧ _prev (Tensor_leaf [2%float]) = []
  ∧ ∃ h', backward 0 main_graph = Some (tt, h')
          ∧ h' = <[0 := set_grad (ones 1) (Tensor_leaf [2%float])]> main_graph
          ∧ backward 0 h' = Some (tt, h').
Proof.
repeat (split; [reflexivity|]).
apply (backward_leaf 0 main_graph (Tensor_leaf [2%float]));
  reflexivity.
Defined.

Lemma neg_gradient_witness :
  fresh_leaf [Tensor_leaf [1%float; 2%float; 3%float]] 0
    [1%float; 2%float; 3%float]
  ∧ [1%float; 2%float; 3%float] ≠ []
  ∧ ∃ r h0 h1,
      operator_neg 0 [Tensor_leaf [1%float; 2%float; 3%float]] = Some (r, h0)
      ∧ backward r h0 = Some (tt, h1)
      ∧ grad_of h1 0 = Some [(-1)%float; (-1)%float; (-1)%float].
Proof.
assert (H0 : fresh_leaf [Tensor_leaf [1%float; 2%float; 3%float]] 0
               [1%float; 2%float; 3%float]) by (by eexists).
assert (H1 : [1%float; 2%float; 3%float] ≠ []) by done.
split; [done|]. split; [done|].
apply (neg_gradient _ 0 [1%float; 2%float; 3%float] H0 H1).
Defined.

Lemma add_scalar_gradient_witness :
  fresh_leaf [Tensor_leaf [1%float; 2%float; 3%float]] 0
    [1%float; 2%float; 3%float]
  ∧ [1%float; 2%float; 3%float] ≠ []
  ∧ ∃ r h0 h1,
      operator_add_scalar 0 5%float
        [Tensor_leaf [1%float; 2%float; 3%float]] = Some (r, h0)
      ∧ backward r h0 = Some (tt, h1)
      ∧ grad_of h1 0 = Some [1%float; 1%float; 1%float].
Proof.
assert (H0 : fresh_leaf [Tensor_leaf [1%float; 2%float; 3%float]] 0
               [1%float; 2%float; 3%float]) by (by eexists).
assert (H1 : [1%float; 2%float; 3%float] ≠ []) by done.
split; [done|]. split; [done|].
apply (add_scalar_gradient _ 0 [1%float; 2%float; 3%float] 5%float H0 H1).
Defined.

(** * The scenario of [main] for any input *)

Section Composed.

Implicit Types (h g : heap) (t : Tensor) (x y z w : ptr) (d : xarray).

(** The order for [w = z * x] over [z = x + y] over two leaves. *)
Lemma topo_order_composed h x y z w tx ty tz tw :
  h !! x = Some tx → _prev tx = [] →
  h !! y = Some ty → _prev ty = [] →
  h !! z = Some tz → _prev tz = [x; y] →
  h !! w = Some tw → _prev tw = [z; x] →
  x ≠ y → x ≠ z → x ≠ w → y ≠ z → y ≠ w → z ≠ w →
  topo_order h w = Some [x; y; z; w].
Proof.
intros Hx Hpx Hy Hpy Hz Hpz Hw Hpw Hxy Hxz Hxw Hyz Hyw Hzw.
unfold topo_order.
pose proof (lookup_lt_Some _ _ _ Hx) as Hlx.
pose proof (lookup_lt_Some _ _ _ Hy) as Hly.
pose proof (lookup_lt_Some _ _ _ Hz) as Hlz.
pose proof (lookup_lt_Some _ _ _ Hw) as Hlw.
assert (Hlen : 4 ≤ length h) by lia.
destruct (length h) as [|[|[|[|n]]]]; try lia.
cbn [build_topo fst snd].
rewrite decide_False by apply not_elem_of_empty.
rewrite Hw. cbn [from_option]. rewrite Hpw.
cbn [for_children build_topo fst snd]. rewrite Hz.
rewrite decide_False.
2:{ rewrite elem_of_union, elem_of_singleton.
    intros [? | []%not_elem_of_empty]. done. }
cbn [from_option]. rewrite Hpz.
cbn [for_children build_topo fst snd]. rewrite Hx.
rewrite decide_False.
2:{ rewrite !elem_of_union, !elem_of_singleton.
    intros [? | [? | []%not_elem_of_empty]]; done. }
cbn [from_option]. rewrite Hpx.
cbn [for_children build_topo fst snd app]. rewrite Hy.
rewrite decide_False.
2:{ rewrite !elem_of_union, !elem_of_singleton.
    intros [? | [? | [? | []%not_elem_of_empty]]]; done. }
cbn [from_option]. rewrite Hpy.
cbn [for_children build_topo fst snd app].
rewrite decide_True; [done|].
rewrite !elem_of_union, !elem_of_singleton. auto.
Qed.


Lemma zip_mul_add (dx dy : xarray) :
  zip_with PrimFloat.mul (zip_with PrimFloat.add dx dy) dx
  = zip_with (λ xi yi, ((xi + yi) * xi)%float) dx dy.
Proof.
revert dy. induction dx as [|xi dx IH]; intros [|yi dy]; try done.
cbn. by rewrite IH.
Qed.

Lemma push_add_zeros_map (f : float → float) d :
  push_add (zeros (length d)) (map f d) = map (λ v, (0 + f v)%float) d.
Proof.
unfold push_add, zeros. induction d as [|v d IH]; [done|].
cbn. by rewrite IH.
Qed.

Lemma push_mul_zeros d :
  push_mul (zeros (length d)) (ones (length d)) d
  = map (λ v, (0 + 1 * v)%float) d.
Proof. rewrite <- (push_mul_map (λ _, 0%float)). by rewrite zeros_map. Qed.

Lemma push_composed (dx dy : xarray) :
  length dx = length dy →
  push_add
    (push_mul (zeros (length dx)) (ones (length dx))
       (zip_with PrimFloat.add dx dy))
    (map (λ v, (0 + 1 * v)%float) dx)
  = zip_with (λ xi yi, (0 + 1 * (xi + yi) + (0 + 1 * xi))%float) dx dy.
Proof.
unfold push_add, push_mul, zeros, ones. revert dy.
induction dx as [|xi dx IH]; intros [|yi dy] Hl; try done.
cbn. rewrite IH by (cbn in Hl; lia). done.
Qed.

(** X15. The scenario of [main] for any two distinct leaves of equal
    shape with zero gradients: with [z = x + y] and [w = z * x], after
    [backward] on [w] the gradient of [w] is ones, the gradient of [z] is
    [0 + 1 * xi], the gradient of [y] is what [z] forwards,
    [0 + (0 + 1 * xi)], and the gradient of [x] collects both paths,
    [(0 + 1 * (xi + yi)) + (0 + 1 * xi)], elementwise. *)
Theorem composed_chain_rule h x y dx dy :
  fresh_leaf h x dx → fresh_leaf h y dy → x ≠ y → shape dx = shape dy →
  ∃ z w h1 h2 h3,
    operator_add x y h = Some (z, h1)
    ∧ operator_mul z x h1 = Some (w, h2)
    ∧ backward w h2 = Some (tt, h3)
    ∧ data_of h3 z = Some (zip_with PrimFloat.add dx dy)
    ∧ data_of h3 w = Some (zip_with (λ xi yi, ((xi + yi) * xi)%float) dx dy)
    ∧ grad_of h3 w = Some (ones (shape dx))
    ∧ grad_of h3 z = Some (map (λ xi, (0 + 1 * xi)%float) dx)
    ∧ grad_of h3 y = Some (map (λ xi, (0 + (0 + 1 * xi))%float) dx)
    ∧ grad_of h3 x
      = Some (zip_with
                (λ xi yi, (0 + 1 * (xi + yi) + (0 + 1 * xi))%float) dx dy).
Proof.
intros (tx & Hx & Hdx & Hgx & Hfx & Hpx) (ty & Hy & Hdy & Hgy & Hfy & Hpy)
  Hxy Hsh.
pose proof (lookup_lt_Some _ _ _ Hx) as Hlx.
pose proof (lookup_lt_Some _ _ _ Hy) as Hly.
unfold shape in *.
rewrite operator_add_eq, Hx, Hy. cbn [mbind option_bind].
rewrite Hdx, Hdy. unfold XArray.add. rewrite broadcast_same by done.
cbn [mbind option_bind].
remember (length dx) as n eqn:Hn. remember (length h) as z eqn:Hzh.
set (dz := zip_with PrimFloat.add dx dy).
assert (Hldz : length dz = n)
  by (unfold dz; rewrite length_zip_with; lia).
set (tz := {| data := dz; _backward := AddBackward z x y |}).
set (h1 := h ++ [tz]).
assert (Hlen1 : length h1 = S z) by (unfold h1; rewrite length_app; cbn; lia).
assert (Hz1 : h1 !! z = Some tz) by (unfold h1; subst z; apply lookup_snoc).
assert (Hx1 : h1 !! x = Some tx) by (unfold h1; by rewrite lookup_app_l by lia).
exists z, (S z), h1.
rewrite operator_mul_eq, Hz1, Hx1. cbn [mbind option_bind].
rewrite Hdx. change (data tz) with dz.
unfold XArray.mul. rewrite broadcast_same by lia.
cbn [mbind option_bind]. rewrite Hlen1.
set (dw := zip_with PrimFloat.mul dz dx).
assert (Hldw : length dw = n)
  by (unfold dw; rewrite length_zip_with; lia).
set (tw := {| data := dw; _backward := MulBackward (S z) z x |}).
set (h2 := h1 ++ [tw]).
assert (Hlen2 : length h2 = S (S z))
  by (unfold h2; rewrite length_app; cbn; lia).
assert (Hw2 : h2 !! S z = Some tw)
  by (unfold h2; rewrite <- Hlen1; apply lookup_snoc).
assert (Hz2 : h2 !! z = Some tz) by (unfold h2; by rewrite lookup_app_l by lia).
assert (Hx2 : h2 !! x = Some tx) by (unfold h2; by rewrite lookup_app_l by lia).
assert (Hy2 : h2 !! y = Some ty).
{ unfold h2, h1. by rewrite !lookup_app_l by (rewrite ?length_app; cbn; lia). }
assert (Hxz : x ≠ z) by lia. assert (Hyz : y ≠ z) by lia.
assert (Hxw : x ≠ S z) by lia. assert (Hyw : y ≠ S z) by lia.
set (g0 := <[S z := set_grad (ones n) tw]> h2).
set (gz := push_mul (zeros n) (ones n) dx).
set (gx1 := push_mul (zeros n) (ones n) dz).
set (g1 := <[x := set_grad gx1 tx]> (<[z := set_grad gz tz]> g0)).
set (gx2 := push_add gx1 gz).
set (gy := push_add (zeros n) gz).
set (g2 := <[y := set_grad gy ty]> (<[x := set_grad gx2 tx]> g1)).
assert (Hlgz : length gz = n).
{ unfold gz, push_mul. rewrite !length_zip_with, length_zeros, length_ones.
  lia. }
assert (Hlgx1 : length gx1 = n).
{ unfold gx1, push_mul. rewrite !length_zip_with, length_zeros, length_ones.
  lia. }
assert (Hfw : fire (S z) g0 = Some (tt, g1)).
{ unfold fire, bind, deref. unfold g0 at 1. heap_lookup.
  cbn [set_grad _backward tw].
  destruct (push_mul_eq (zeros n) (ones n) dx n)
    as (va & Hva & Hga); [apply length_zeros | apply length_ones | lia |].
  destruct (push_mul_eq (zeros n) (ones n) dz n)
    as (vb & Hvb & Hgb); [apply length_zeros | apply length_ones | lia |].
  apply (call_mul_eq g0 (S z) z x (set_grad (ones n) tw) tz tx tx va vb).
  - unfold g0. heap_lookup.
  - unfold g0. heap_lookup.
  - unfold g0. heap_lookup.
  - lia.
  - lia.
  - cbn. by rewrite Hdx.
  - change (grad tz) with (zeros (length dz)). rewrite Hldz. exact Hga.
  - unfold g0. heap_lookup.
  - exact Hvb.
  - rewrite Hgx. exact Hgb. }
assert (Hfz : fire z g1 = Some (tt, g2)).
{ unfold fire, bind, deref. unfold g1 at 1, g0. heap_lookup.
  cbn [set_grad _backward tz].
  replace g2 with (<[y := set_grad gy ty]>
                     (<[x := set_grad gx2 (set_grad gx1 tx)]> g1)) by done.
  apply (call_add_eq g1 z x y (set_grad gz tz) (set_grad gx1 tx) ty).
  - unfold g1, g0. heap_lookup.
  - unfold g1, g0. heap_lookup.
  - lia.
  - lia.
  - cbn. apply add_assign_same. lia.
  - unfold g1, g0. heap_lookup.
  - cbn. rewrite Hgy, <- Hsh. apply add_assign_same.
    rewrite length_zeros. lia. }
assert (Hfy' : fire y g2 = Some (tt, g2)).
{ apply (fire_leaf y g2 (set_grad gy ty)); [|done].
  unfold g2, g1, g0. heap_lookup. }
assert (Hfx' : fire x g2 = Some (tt, g2)).
{ apply (fire_leaf x g2 (set_grad gx2 tx)); [|done].
  unfold g2, g1, g0. heap_lookup. }
exists h2, g2. split; [done|]. split; [done|]. split.
{ unfold backward, bind at 1, lift.
  rewrite (topo_order_composed h2 x y z (S z) tx ty tz tw) by (done || lia).
  unfold bind at 1, seed, bind at 1, deref, modify.
  rewrite Hw2. cbv beta iota. rewrite Hw2.
  change (shape (data tw)) with (length dw). rewrite Hldw.
  change (reverse [x; y; z; S z]) with [S z; z; y; x].
  cbn [for_each]. unfold bind. fold g0.
  by rewrite Hfw, Hfz, Hfy', Hfx'. }
unfold data_of, grad_of, g2, g1, g0.
repeat split; heap_lookup; cbn [fmap option_fmap option_map set_grad
                                 grad data tz tw].
- by rewrite <- zip_mul_add.
- unfold gz. rewrite Hn. by rewrite push_mul_zeros.
- unfold gy, gz. rewrite Hn, push_mul_zeros. by rewrite push_add_zeros_map.
- unfold gx2, gx1, gz, dz. rewrite Hn, (push_mul_zeros dx).
  f_equal. apply push_composed. congruence.
Qed.

End Composed.


Lemma composed_chain_rule_witness :
  fresh_leaf [Tensor_leaf [2%float]; Tensor_leaf [3%float]] 0 [2%float]
  ∧ fresh_leaf [Tensor_leaf [2%float]; Tensor_leaf [3%float]] 1 [3%float]
  ∧ 0 ≠ 1
  ∧ shape [2%float] = shape [3%float]
  ∧ ∃ z w h1 h2 h3,
      operator_add 0 1 [Tensor_leaf [2%float]; Tensor_leaf [3%float]]
        = Some (z, h1)
      ∧ operator_mul z 0 h1 = Some (w, h2)
      ∧ backward w h2 = Some (tt, h3)
      ∧ data_of h3 z = Some [5%float]
      ∧ data_of h3 w = Some [10%float]
      ∧ grad_of h3 w = Some [1%float]
      ∧ grad_of h3 z = Some [2%float]
      ∧ grad_of h3 1 = Some [2%float]
      ∧ grad_of h3 0 = Some [7%float].
Proof.
assert (H0 : fresh_leaf [Tensor_leaf [2%float]; Tensor_leaf [3%float]]
               0 [2%float]) by (by eexists).
assert (H1 : fresh_leaf [Tensor_leaf [2%float]; Tensor_leaf [3%float]]
               1 [3%float]) by (by eexists).
split; [done|]. split; [done|]. split; [lia|]. split; [reflexivity|].
apply (composed_chain_rule _ 0 1 [2%float] [3%float] H0 H1);
  [lia | reflexivity].
Defined.

(** * Rounding in binary64 *)

Section Rounding.

Local Open Scope Z_scope.

Lemma digits2_size (p : positive) : digits2_pos p = Pos.size p.
Proof. induction p as [p IH | p IH |]; cbn; by rewrite ?IH. Qed.

Lemma digits_log2 (p : positive) :
  Z.pos (digits2_pos p) = Z.log2 (Z.pos p) + 1.
Proof.
rewrite digits2_size. destruct p as [p | p |]; cbn [Pos.size Z.log2]; lia.
Qed.

(** The number of binary digits, from bounds. *)
Lemma digits_bounds (M d : Z) :
  0 < d → 2 ^ (d - 1) ≤ M < 2 ^ d → Zdigits2 M = d.
Proof.
intros Hd [Hlo Hhi].
assert (0 < M) by (pose proof (Z.pow_pos_nonneg 2 (d - 1)); lia).
destruct M as [|p|p]; [lia| |lia]. cbn [Zdigits2]. rewrite digits_log2.
apply Z.log2_lt_pow2 in Hhi; [|lia]. apply Z.log2_le_pow2 in Hlo; lia.
Qed.

(** Bounds from the number of binary digits. *)
Lemma bounds_digits (p : positive) :
  2 ^ (Z.pos (digits2_pos p) - 1) ≤ Z.pos p < 2 ^ Z.pos (digits2_pos p).
Proof.
rewrite digits_log2. pose proof (Z.log2_spec (Z.pos p) ltac:(lia)) as Hs.
replace (Z.log2 (Z.pos p) + 1 - 1) with (Z.log2 (Z.pos p)) by lia.
exact Hs.
Qed.

(** What validity says of a finite number, as bounds. *)
Lemma valid_bounds (s : bool) (m : positive) (e : Z) :
  valid_binary (S754_finite s m e) = true →
  -1074 ≤ e ≤ 971 ∧ Z.pos m < 9007199254740992
  ∧ (4503599627370496 ≤ Z.pos m ∧ Z.pos (digits2_pos m) = 53
     ∨ e = -1074 ∧ Z.pos m < 4503599627370496
       ∧ Z.pos (digits2_pos m) < 53).
Proof.
intros [Hc Hb]%valid_finite. apply Z.leb_le in Hb.
unfold fexp, SpecFloat.emin, prec, emax in *.
pose proof (bounds_digits m) as [Hlo Hhi].
set (d := Z.pos (digits2_pos m)) in *.
assert (Hd : 0 < d ≤ 53) by (unfold d; lia).
assert (Hp : 2 ^ d ≤ 2 ^ 53) by (apply Z.pow_le_mono_r; lia).
change (2 ^ 53) with 9007199254740992 in Hp.
split; [lia|]. split; [lia|].
destruct (decide (d = 53)) as [Hd53 | Hd53].
- left. rewrite Hd53 in Hlo. change (2 ^ (53 - 1)) with 4503599627370496 in Hlo.
  lia.
- right. assert (Hp' : 2 ^ d ≤ 2 ^ 52) by (apply Z.pow_le_mono_r; lia).
  change (2 ^ 52) with 4503599627370496 in Hp'. lia.
Qed.

Lemma valid_intro (s : bool) (m : positive) (e : Z) :
  fexp prec emax (Z.pos (digits2_pos m) + e) = e → e ≤ 971 →
  valid_binary (S754_finite s m e) = true.
Proof.
intros Hc He. unfold SpecFloat.valid_binary, bounded, canonical_mantissa.
apply andb_true_intro. split; [by apply Z.eqb_eq|].
apply Z.leb_le. unfold emax, prec. lia.
Qed.

(** One right shift of a positive mantissa. *)
Lemma shr_1_pos (M : Z) (r s : bool) :
  0 < M →
  shr_1 {| shr_m := M; shr_r := r; shr_s := s |}
  = {| shr_m := M / 2; shr_r := Z.odd M; shr_s := r || s |}.
Proof.
intros HM. destruct M as [|[p|p|]|]; try lia; cbn [shr_1 Z.odd]; f_equal.
- apply (Z.div_unique _ _ _ 1); lia.
- apply (Z.div_unique _ _ _ 0); lia.
Qed.

(** The three steps of [binary_round_aux]. *)
Lemma binary_round_aux_stages (s : bool) (M E : Z) (k : nat) :
  fexp prec emax (Zdigits2 M + E) = E + Z.of_nat k →
  binary_round_aux prec emax s M E loc_Exact
  = finish s (round_shift M k) (E + Z.of_nat k).
Proof.
intros Hk. unfold binary_round_aux, finish, round_shift, shr_fexp at 1.
rewrite Hk. replace (E + Z.of_nat k - E) with (Z.of_nat k) by lia.
cbn [shr_record_of_loc]. unfold shr at 1. destruct k as [|k].
- cbn [Z.of_nat Nat.iter]. rewrite !Z.add_0_r. reflexivity.
- change (Z.of_nat (S k)) with (Z.pos (Pos.of_succ_nat k)).
  cbv beta iota. rewrite iter_pos_nat, SuccNat2Pos.id_succ. reflexivity.
Qed.

(** Parity and halving, in the form linear arithmetic uses. *)
Lemma half_odd (M : Z) : M = 2 * (M / 2) + Z.b2z (Z.odd M).
Proof. rewrite <- Z.div2_div. apply Z.div2_odd. Qed.

Lemma round_shift_0 (M : Z) : round_shift M 0 = M.
Proof. reflexivity. Qed.

(** Rounding to nearest, ties to even, after a shift by one digit. *)
Lemma round_shift_1 (M : Z) :
  0 < M →
  round_shift M 1 = M / 2 + Z.b2z (Z.odd M && Z.odd (M / 2)).
Proof.
intros HM. unfold round_shift. cbn [Nat.iter]. rewrite shr_1_pos by done.
pose proof (Z.negb_odd (M / 2)) as He.
destruct (Z.odd M), (Z.odd (M / 2));
  cbn [shr_m loc_of_shr_record shr_r shr_s orb round_nearest_even negb] in *;
  change (IntDef.Z.even (M / 2)) with (Z.even (M / 2));
  rewrite <- ?He; cbn [andb Z.b2z]; lia.
Qed.

(** Rounding to nearest, ties to even, after a shift by two digits. *)
Lemma round_shift_2 (M : Z) :
  1 < M →
  round_shift M 2
  = M / 2 / 2 + Z.b2z (Z.odd (M / 2) && (Z.odd M || Z.odd (M / 2 / 2))).
Proof.
intros HM. unfold round_shift. cbv [Nat.iter nat_rect]. rewrite shr_1_pos by lia.
assert (0 < M / 2) by (pose proof (half_odd M); destruct (Z.odd M); cbn in *; lia).
rewrite shr_1_pos by done.
pose proof (Z.negb_odd (M / 2 / 2)) as He.
destruct (Z.odd M), (Z.odd (M / 2)), (Z.odd (M / 2 / 2));
  cbn [shr_m loc_of_shr_record shr_r shr_s orb round_nearest_even negb] in *;
  change (IntDef.Z.even (M / 2 / 2)) with (Z.even (M / 2 / 2));
  rewrite <- ?He; cbn [andb orb Z.b2z]; lia.
Qed.

(** Three times [a], rounded at one digit, plus [a], is [4 * a] up to
    less than the half of the last digit. *)
Lemma round_3_1_1 (a : Z) :
  0 < a → round_shift (2 * round_shift (3 * a) 1 + a) 1 = 2 * a.
Proof.
intros Ha. rewrite (round_shift_1 (3 * a)) by lia.
pose proof (half_odd (3 * a)) as H1. pose proof (half_odd (3 * a / 2)) as H2.
set (b1 := Z.odd (3 * a)) in *. set (q1 := 3 * a / 2) in *.
set (b2 := Z.odd q1) in *. set (q2 := q1 / 2) in *.
clearbody b1 q1 b2 q2.
set (M := 2 * (q1 + Z.b2z (b1 && b2)) + a).
assert (HM : 0 < M) by (unfold M; destruct b1, b2; cbn in *; lia).
rewrite (round_shift_1 M) by done.
pose proof (half_odd M) as H3. pose proof (half_odd (M / 2)) as H4.
set (b3 := Z.odd M) in *. set (q3 := M / 2) in *.
set (b4 := Z.odd q3) in *. set (q4 := q3 / 2) in *.
clearbody b3 q3 b4 q4. unfold M in *. clear M.
destruct b1, b2, b3, b4; cbn in *; lia.
Qed.

Lemma round_3_1_2 (a : Z) :
  0 < a → round_shift (2 * round_shift (3 * a) 1 + a) 2 = a.
Proof.
intros Ha. rewrite (round_shift_1 (3 * a)) by lia.
pose proof (half_odd (3 * a)) as H1. pose proof (half_odd (3 * a / 2)) as H2.
set (b1 := Z.odd (3 * a)) in *. set (q1 := 3 * a / 2) in *.
set (b2 := Z.odd q1) in *. set (q2 := q1 / 2) in *.
clearbody b1 q1 b2 q2.
set (M := 2 * (q1 + Z.b2z (b1 && b2)) + a).
assert (HM : 1 < M) by (unfold M; destruct b1, b2; cbn in *; lia).
rewrite (round_shift_2 M) by done.
pose proof (half_odd M) as H3. pose proof (half_odd (M / 2)) as H4.
pose proof (half_odd (M / 2 / 2)) as H5.
set (b3 := Z.odd M) in *. set (q3 := M / 2) in *.
set (b4 := Z.odd q3) in *. set (q4 := q3 / 2) in *.
set (b5 := Z.odd q4) in *. set (q5 := q4 / 2) in *.
clearbody b3 q3 b4 q4 b5 q5. unfold M in *. clear M.
destruct b1, b2, b3, b4, b5; cbn in *; lia.
Qed.

Lemma round_3_2_2 (a : Z) :
  0 < a → round_shift (4 * round_shift (3 * a) 2 + a) 2 = a.
Proof.
intros Ha. rewrite (round_shift_2 (3 * a)) by lia.
pose proof (half_odd (3 * a)) as H1. pose proof (half_odd (3 * a / 2)) as H2.
pose proof (half_odd (3 * a / 2 / 2)) as H0.
set (b1 := Z.odd (3 * a)) in *. set (q1 := 3 * a / 2) in *.
set (b2 := Z.odd q1) in *. set (q2 := q1 / 2) in *.
set (b0 := Z.odd q2) in *. set (q0 := q2 / 2) in *.
clearbody b1 q1 b2 q2 b0 q0.
set (M := 4 * (q2 + Z.b2z (b2 && (b1 || b0))) + a).
assert (HM : 1 < M) by (unfold M; destruct b1, b2, b0; cbn in *; lia).
rewrite (round_shift_2 M) by done.
pose proof (half_odd M) as H3. pose proof (half_odd (M / 2)) as H4.
pose proof (half_odd (M / 2 / 2)) as H5.
set (b3 := Z.odd M) in *. set (q3 := M / 2) in *.
set (b4 := Z.odd q3) in *. set (q4 := q3 / 2) in *.
set (b5 := Z.odd q4) in *. set (q5 := q4 / 2) in *.
clearbody b3 q3 b4 q4 b5 q5. unfold M in *. clear M.
destruct b1, b2, b0, b3, b4, b5; cbn in *; lia.
Qed.

(** A multiple of four and of two is shifted exactly. *)
Lemma round_4_2 (a : Z) : 0 < a → round_shift (4 * a) 2 = a.
Proof.
intros Ha. rewrite round_shift_2 by lia.
pose proof (half_odd (4 * a)) as H3. pose proof (half_odd (4 * a / 2)) as H4.
pose proof (half_odd (4 * a / 2 / 2)) as H5.
set (b3 := Z.odd (4 * a)) in *. set (q3 := 4 * a / 2) in *.
set (b4 := Z.odd q3) in *. set (q4 := q3 / 2) in *.
set (b5 := Z.odd q4) in *. set (q5 := q4 / 2) in *.
clearbody b3 q3 b4 q4 b5 q5.
destruct b3, b4, b5; cbn in *; lia.
Qed.

Lemma round_4_1 (a : Z) : 0 < a → round_shift (4 * a) 1 = 2 * a.
Proof.
intros Ha. rewrite round_shift_1 by lia.
pose proof (half_odd (4 * a)) as H3. pose proof (half_odd (4 * a / 2)) as H4.
set (b3 := Z.odd (4 * a)) in *. set (q3 := 4 * a / 2) in *.
set (b4 := Z.odd q3) in *. set (q4 := q3 / 2) in *.
clearbody b3 q3 b4 q4.
destruct b3, b4; cbn in *; lia.
Qed.

(** The rounded mantissa is next to the shifted one. *)
Lemma round_shift_1_bounds (M : Z) :
  0 < M → 2 * round_shift M 1 - 1 ≤ M ≤ 2 * round_shift M 1 + 1.
Proof.
intros HM. rewrite round_shift_1 by done. pose proof (half_odd M).
destruct (Z.odd M), (Z.odd (M / 2)); cbn in *; lia.
Qed.

Lemma round_shift_2_bounds (M : Z) :
  1 < M → 4 * round_shift M 2 - 2 ≤ M ≤ 4 * round_shift M 2 + 2.
Proof.
intros HM. rewrite round_shift_2 by done.
pose proof (half_odd M). pose proof (half_odd (M / 2)).
destruct (Z.odd M), (Z.odd (M / 2)), (Z.odd (M / 2 / 2)); cbn in *; lia.
Qed.

Lemma digits_53 (M : Z) :
  4503599627370496 ≤ M < 9007199254740992 → Zdigits2 M = 53.
Proof. intros HM. by apply digits_bounds. Qed.

Lemma digits_54 (M : Z) :
  9007199254740992 ≤ M < 18014398509481984 → Zdigits2 M = 54.
Proof. intros HM. by apply digits_bounds. Qed.

Lemma digits_55 (M : Z) :
  18014398509481984 ≤ M < 36028797018963968 → Zdigits2 M = 55.
Proof. intros HM. by apply digits_bounds. Qed.

Lemma digits_le_53 (p : positive) :
  Z.pos p < 9007199254740992 → Z.pos (digits2_pos p) ≤ 53.
Proof.
intros Hp. rewrite digits_log2.
change 9007199254740992 with (2 ^ 53) in Hp.
apply Z.log2_lt_pow2 in Hp; lia.
Qed.

(** The last step on a mantissa that fits the format. *)
Lemma finish_exact (s : bool) (p : positive) (e : Z) :
  fexp prec emax (Z.pos (digits2_pos p) + e) = e →
  finish s (Z.pos p) e
  = if e <=? emax - prec then S754_finite s p e else S754_infinity s.
Proof.
intros Hc. unfold finish, shr_fexp. cbn [Zdigits2]. rewrite Hc, Z.sub_diag.
reflexivity.
Qed.

(** The last step on a mantissa that rounding carried to [2^53]. *)
Lemma finish_carry (s : bool) (e : Z) :
  -1074 ≤ e →
  finish s 9007199254740992 e
  = if e + 1 <=? emax - prec then S754_finite s 4503599627370496 (e + 1)
    else S754_infinity s.
Proof.
intros He. unfold finish, shr_fexp.
change (Zdigits2 9007199254740992) with 54.
replace (fexp prec emax (54 + e) - e) with 1
  by (unfold fexp, SpecFloat.emin, prec, emax; lia).
reflexivity.
Qed.

(** [binary_round] on a mantissa that needs no left shift. *)
Lemma binary_round_stages (s : bool) (M : positive) (e : Z) (k : nat) :
  fexp prec emax (Z.pos (digits2_pos M) + e) = e + Z.of_nat k →
  binary_round prec emax s M e
  = finish s (round_shift (Z.pos M) k) (e + Z.of_nat k).
Proof.
intros Hk. unfold binary_round. rewrite Hk.
assert (Hsh : shl_align M e (e + Z.of_nat k) = (M, e)).
{ unfold shl_align. replace (e + Z.of_nat k - e) with (Z.of_nat k) by lia.
  by destruct k. }
rewrite Hsh. by apply binary_round_aux_stages.
Qed.

(** The sum of two finite numbers of one sign, the first with the larger
    exponent. *)
Lemma SFadd_aligned (s : bool) (m1 m2 : positive) (e1 e2 : Z) (k : nat) :
  e1 = e2 + Z.of_nat k →
  SF64add (S754_finite s m1 e1) (S754_finite s m2 e2)
  = binary_round prec emax s (Nat.iter k xO m1 + m2) e2.
Proof.
intros ->. unfold SF64add, SFadd.
change (IntDef.Z.min (e2 + Z.of_nat k) e2) with (Z.min (e2 + Z.of_nat k) e2).
rewrite Z.min_r by lia.
unfold shl_align. rewrite Z.sub_diag.
assert (Hsh : (match e2 - (e2 + Z.of_nat k) with
               | Z.neg d => (PosDef.Pos.iter xO m1 d, e2)
               | _ => (m1, e2 + Z.of_nat k)
               end).1 = Nat.iter k xO m1).
{ destruct k as [|k].
  - replace (e2 - (e2 + Z.of_nat 0)) with 0 by lia. reflexivity.
  - replace (e2 - (e2 + Z.of_nat (S k))) with (Z.neg (Pos.of_succ_nat k))
      by lia.
    cbn [fst]. change (PosDef.Pos.iter xO m1) with (Pos.iter xO m1).
    rewrite Pos2Nat.inj_iter, SuccNat2Pos.id_succ. reflexivity. }
cbn [fst] in *. rewrite Hsh. cbn [fst].
replace (cond_Zopp s (Z.pos (Nat.iter k xO m1)) + cond_Zopp s (Z.pos m2))
  with (cond_Zopp s (Z.pos (Nat.iter k xO m1 + m2)))
  by (destruct s; cbn [cond_Zopp]; lia).
by destruct s.
Qed.

(** A mantissa that rounds as [4 * m] does gives the same number. *)
Lemma binary_round_like (s : bool) (M m : positive) (e : Z) (k : nat) :
  Z.pos (digits2_pos M) = Z.pos (digits2_pos m~0~0) →
  fexp prec emax (Z.pos (digits2_pos m~0~0) + e) = e + Z.of_nat k →
  round_shift (Z.pos M) k = round_shift (Z.pos m~0~0) k →
  binary_round prec emax s M e = binary_round prec emax s m~0~0 e.
Proof.
intros Hd Hk Hr.
rewrite (binary_round_stages s M e k) by (by rewrite Hd).
rewrite (binary_round_stages s m~0~0 e k) by done.
by rewrite Hr.
Qed.

End Rounding.

(** * Four equal summands *)

Section Quadruple.

Local Open Scope Z_scope.

Implicit Types (s : bool) (m : positive) (e : Z).

Lemma digits_xO m : Z.pos (digits2_pos m~0) = Z.pos (digits2_pos m) + 1.
Proof. cbn [digits2_pos]. lia. Qed.

(** [4 * m] at the exponent of [m], rounded: the double of the double. *)
Lemma round_quad s m e :
  valid_binary (S754_finite s m e) = true →
  (Z.pos (digits2_pos m) = 53 → e + 1 ≤ 971) →
  binary_round prec emax s m~0~0 e = SF64mul SF_two (SF_double s m e).
Proof.
intros Hv Hov.
destruct (valid_bounds s m e Hv) as (He & Hm & Hcase).
assert (H4 : Z.pos m~0~0 = 4 * Z.pos m) by lia.
unfold SF_double.
destruct Hcase as [[Hlo HD] | (He' & Hhi & HD)].
- specialize (Hov HD).
  replace (Z.pos (digits2_pos m) =? prec) with true
    by (symmetry; apply Z.eqb_eq; exact HD).
  replace (e + 1 <=? emax - prec) with true
    by (symmetry; apply Z.leb_le; unfold emax, prec; lia).
  rewrite SFmul_two_finite
    by (apply valid_intro; [rewrite HD; unfold fexp, SpecFloat.emin, prec, emax|]; lia).
  unfold SF_double.
  replace (Z.pos (digits2_pos m) =? prec) with true
    by (symmetry; apply Z.eqb_eq; exact HD).
  rewrite (binary_round_stages s m~0~0 e 2)
    by (rewrite !digits_xO, HD; unfold fexp, SpecFloat.emin, prec, emax; lia).
  rewrite H4, round_4_2 by lia.
  rewrite finish_exact
    by (rewrite HD; unfold fexp, SpecFloat.emin, prec, emax; lia).
  replace (e + Z.of_nat 2) with (e + 1 + 1) by lia. reflexivity.
- replace (Z.pos (digits2_pos m) =? prec) with false
    by (symmetry; apply Z.eqb_neq; unfold prec; lia).
  pose proof (Pos2Z.is_pos (digits2_pos m)) as HDpos.
  rewrite SFmul_two_finite
    by (apply valid_intro; [rewrite digits_xO; unfold fexp, SpecFloat.emin, prec, emax|]; lia).
  unfold SF_double.
  destruct (Z.pos (digits2_pos m~0) =? prec) eqn:HD1.
  + apply Z.eqb_eq in HD1. rewrite digits_xO in HD1. unfold prec in HD1.
    replace (e + 1 <=? emax - prec) with true
      by (symmetry; apply Z.leb_le; unfold emax, prec; lia).
    rewrite (binary_round_stages s m~0~0 e 1)
      by (rewrite !digits_xO; unfold fexp, SpecFloat.emin, prec, emax; lia).
    rewrite H4, round_4_1 by lia.
    replace (2 * Z.pos m) with (Z.pos m~0) by lia.
    rewrite finish_exact
      by (rewrite digits_xO; unfold fexp, SpecFloat.emin, prec, emax; lia).
    replace (e + Z.of_nat 1) with (e + 1) by lia.
    replace (e + 1 <=? emax - prec) with true
      by (symmetry; apply Z.leb_le; unfold emax, prec; lia).
    reflexivity.
  + apply Z.eqb_neq in HD1. rewrite digits_xO in HD1. unfold prec in HD1.
    rewrite (binary_round_stages s m~0~0 e 0)
      by (rewrite !digits_xO; unfold fexp, SpecFloat.emin, prec, emax; lia).
    rewrite round_shift_0.
    rewrite finish_exact
      by (rewrite !digits_xO; unfold fexp, SpecFloat.emin, prec, emax; lia).
    replace (e + Z.of_nat 0 <=? emax - prec) with true
      by (symmetry; apply Z.leb_le; unfold emax, prec; lia).
    by replace (e + Z.of_nat 0) with e by lia.
Qed.

Ltac fexp_lia := unfold fexp, SpecFloat.emin, prec, emax; lia.

(** [3 * a] rounded at one digit, plus [a], stays in the binade of
    [4 * a]. *)
Lemma near_quad_1 (a : Z) :
  0 < a →
  4 * a - 1 ≤ 2 * round_shift (3 * a) 1 + a ≤ 4 * a + 1
  ∧ (18014398509481984 ≤ 4 * a →
     18014398509481984 ≤ 2 * round_shift (3 * a) 1 + a).
Proof.
intros Ha. rewrite round_shift_1 by lia.
pose proof (half_odd (3 * a)) as H1.
destruct (Z.odd (3 * a)), (Z.odd (3 * a / 2)); cbn in *; lia.
Qed.

(** The third addition: [3 * m], rounded, plus [m] is [4 * m], rounded. *)
Lemma third_add s m e :
  valid_binary (S754_finite s m e) = true →
  (Z.pos (digits2_pos m) = 53 → e + 1 ≤ 971) →
  SF64add (binary_round prec emax s (m~0 + m) e) (S754_finite s m e)
  = binary_round prec emax s m~0~0 e.
Proof.
intros Hv Hov.
destruct (valid_bounds s m e Hv) as (He & Hm & Hcase).
assert (Hle : (e <=? emax - prec) = true) by (apply Z.leb_le; unfold emax, prec; lia).
assert (H4 : Z.pos m~0~0 = 4 * Z.pos m) by lia.
assert (H3 : Z.pos (m~0 + m) = 3 * Z.pos m) by lia.
assert (Ha : 0 < Z.pos m) by lia.
assert (HD4 : Z.pos (digits2_pos m~0~0) = Zdigits2 (4 * Z.pos m))
  by (by rewrite <- H4).
destruct (Z_lt_le_dec (3 * Z.pos m) 9007199254740992) as [H53 | H53].
{ (* the sum is exact *)
  assert (He' : e = -1074) by lia.
  pose proof (digits_le_53 (m~0 + m) ltac:(lia)) as HD3.
  pose proof (Pos2Z.is_pos (digits2_pos (m~0 + m))) as HD3pos.
  rewrite (binary_round_stages s (m~0 + m) e 0) by fexp_lia.
  rewrite round_shift_0, Z.add_0_r, finish_exact by fexp_lia.
  rewrite Hle. rewrite (SFadd_aligned s (m~0 + m) m e e 0) by lia.
  cbv [Nat.iter nat_rect].
  replace (m~0 + m + m)%positive with (m~0~0)%positive by lia. reflexivity. }
destruct (Z_lt_le_dec (3 * Z.pos m) 18014398509481984) as [H54 | H54].
{ (* one digit is rounded away *)
  assert (HD3 : Z.pos (digits2_pos (m~0 + m)) = 54).
  { change (Zdigits2 (Z.pos (m~0 + m)) = 54). apply digits_54. lia. }
  rewrite (binary_round_stages s (m~0 + m) e 1) by (rewrite HD3; fexp_lia).
  rewrite H3.
  pose proof (round_shift_1_bounds (3 * Z.pos m) ltac:(lia)) as Hn.
  destruct (near_quad_1 (Z.pos m) Ha) as [Hq Hq54].
  pose proof (round_3_1_1 (Z.pos m) Ha) as Hr1.
  pose proof (round_3_1_2 (Z.pos m) Ha) as Hr2.
  set (n := round_shift (3 * Z.pos m) 1) in *. clearbody n.
  assert (Hlike : ∀ M : positive,
            Z.pos M = 2 * n + Z.pos m →
            binary_round prec emax s M e = binary_round prec emax s m~0~0 e).
  { intros M HM.
    destruct (Z_lt_le_dec (Z.pos m) 4503599627370496) as [Hsub | Hnor].
    - assert (HDM : Z.pos (digits2_pos M) = 54).
      { change (Zdigits2 (Z.pos M) = 54). apply digits_54. lia. }
      assert (HDq : Z.pos (digits2_pos m~0~0) = 54).
      { rewrite HD4. apply digits_54. lia. }
      apply (binary_round_like s M m e 1); [congruence| rewrite HDq; fexp_lia |].
      rewrite HM, Hr1, H4, round_4_1; lia.
    - assert (HDM : Z.pos (digits2_pos M) = 55).
      { change (Zdigits2 (Z.pos M) = 55). apply digits_55. lia. }
      assert (HDq : Z.pos (digits2_pos m~0~0) = 55).
      { rewrite HD4. apply digits_55. lia. }
      apply (binary_round_like s M m e 2); [congruence| rewrite HDq; fexp_lia |].
      rewrite HM, Hr2, H4, round_4_2; lia. }
  destruct (decide (n = 9007199254740992)) as [-> | Hnc].
  - rewrite finish_carry by lia.
    destruct (e + Z.of_nat 1 + 1 <=? emax - prec) eqn:Hov2.
    + rewrite (SFadd_aligned s 4503599627370496 m (e + Z.of_nat 1 + 1) e 2)
        by lia.
      apply Hlike. cbv [Nat.iter nat_rect]. lia.
    + apply Z.leb_gt in Hov2. unfold emax, prec in Hov2.
      assert (HD : Z.pos (digits2_pos m) = 53) by lia.
      rewrite (binary_round_stages s m~0~0 e 2)
        by (rewrite !digits_xO, HD; fexp_lia).
      rewrite H4, round_4_2 by lia.
      rewrite finish_exact by (rewrite HD; fexp_lia).
      replace (e + Z.of_nat 2 <=? emax - prec) with false
        by (symmetry; apply Z.leb_gt; unfold emax, prec; lia).
      reflexivity.
  - destruct n as [|pn|pn]; try lia.
    assert (HDn : Z.pos (digits2_pos pn) = 53).
    { change (Zdigits2 (Z.pos pn) = 53). apply digits_53. lia. }
    rewrite finish_exact by (rewrite HDn; fexp_lia).
    replace (e + Z.of_nat 1 <=? emax - prec) with true
      by (symmetry; apply Z.leb_le; unfold emax, prec; lia).
    rewrite (SFadd_aligned s pn m (e + Z.of_nat 1) e 1) by lia.
    apply Hlike. cbv [Nat.iter nat_rect]. lia. }
(* two digits are rounded away *)
assert (HD : Z.pos (digits2_pos m) = 53) by lia.
specialize (Hov HD).
assert (HD3 : Z.pos (digits2_pos (m~0 + m)) = 55).
{ change (Zdigits2 (Z.pos (m~0 + m)) = 55). apply digits_55. lia. }
rewrite (binary_round_stages s (m~0 + m) e 2) by (rewrite HD3; fexp_lia).
rewrite H3.
pose proof (round_shift_2_bounds (3 * Z.pos m) ltac:(lia)) as Hn.
pose proof (round_3_2_2 (Z.pos m) Ha) as Hr2.
set (n := round_shift (3 * Z.pos m) 2) in *. clearbody n.
destruct n as [|pn|pn]; try lia.
assert (HDn : Z.pos (digits2_pos pn) = 53).
{ change (Zdigits2 (Z.pos pn) = 53). apply digits_53. lia. }
rewrite finish_exact by (rewrite HDn; fexp_lia).
destruct (e + Z.of_nat 2 <=? emax - prec) eqn:Hov2.
- rewrite (SFadd_aligned s pn m (e + Z.of_nat 2) e 2) by lia.
  assert (HM : Z.pos (Nat.iter 2 xO pn + m) = 4 * Z.pos pn + Z.pos m)
    by (cbv [Nat.iter nat_rect]; lia).
  assert (HDM : Z.pos (digits2_pos (Nat.iter 2 xO pn + m)) = 55).
  { change (Zdigits2 (Z.pos (Nat.iter 2 xO pn + m)) = 55).
    apply digits_55. lia. }
  assert (HDq : Z.pos (digits2_pos m~0~0) = 55).
  { rewrite HD4. apply digits_55. lia. }
  apply (binary_round_like s _ m e 2); [congruence| rewrite HDq; fexp_lia |].
  rewrite HM, Hr2, H4, round_4_2; lia.
- rewrite (binary_round_stages s m~0~0 e 2)
    by (rewrite !digits_xO, HD; fexp_lia).
  rewrite H4, round_4_2 by lia.
  rewrite finish_exact by (rewrite HD; fexp_lia).
  rewrite Hov2. reflexivity.
Qed.

(** [x + x + x + x] for a finite [x]: the double of [x + x]. *)
Lemma SFadd_quad s m e :
  valid_binary (S754_finite s m e) = true →
  SF64add (SF64add (SF_double s m e) (S754_finite s m e)) (S754_finite s m e)
  = SF64mul SF_two (SF_double s m e).
Proof.
intros Hv. destruct (valid_bounds s m e Hv) as (He & Hm & Hcase).
destruct (decide (Z.pos (digits2_pos m) = 53 ∧ 971 < e + 1)) as [[HD Hov] | Hfin].
{ unfold SF_double.
  replace (Z.pos (digits2_pos m) =? prec) with true
    by (symmetry; apply Z.eqb_eq; exact HD).
  replace (e + 1 <=? emax - prec) with false
    by (symmetry; apply Z.leb_gt; unfold emax, prec; lia).
  by destruct s. }
assert (Hov : Z.pos (digits2_pos m) = 53 → e + 1 ≤ 971) by lia.
assert (Hy : SF64add (SF_double s m e) (S754_finite s m e)
             = binary_round prec emax s (m~0 + m) e).
{ unfold SF_double. destruct Hcase as [[Hlo HD] | (He' & Hhi & HD)].
  - replace (Z.pos (digits2_pos m) =? prec) with true
      by (symmetry; apply Z.eqb_eq; exact HD).
    replace (e + 1 <=? emax - prec) with true
      by (symmetry; apply Z.leb_le; unfold emax, prec; lia).
    by rewrite (SFadd_aligned s m m (e + 1) e 1) by lia.
  - replace (Z.pos (digits2_pos m) =? prec) with false
      by (symmetry; apply Z.eqb_neq; unfold prec; lia).
    by rewrite (SFadd_aligned s m~0 m e e 0) by lia. }
rewrite Hy, third_add by done. by apply round_quad.
Qed.

End Quadruple.

(** [0 + c + c + c + c] is the double of [0 + c + c], for every binary64
    number: the two roundings of the left side cancel. *)
Lemma add_quad (c : float) : (0 + c + c + c + c)%float = (2 * (0 + c + c))%float.
Proof.
apply Prim2SF_inj. rewrite mul_spec, !add_spec.
pose proof (Prim2SF_valid c) as Hv.
change (Prim2SF 0) with (S754_zero false).
change (Prim2SF 2) with SF_two.
destruct (Prim2SF c) as [s | s | | s m e]; try (by destruct s); try done.
change (SF64add (S754_zero false) (S754_finite s m e))
  with (S754_finite s m e).
rewrite SFadd_diag_finite by exact Hv. by apply SFadd_quad.
Qed.

(** * A second call of [backward] *)

Lemma add_add_double (c : float) : (0 + c + c)%float = (2 * (0 + c))%float.
Proof. rewrite <- (mul_1_l c) at 1 2 3. apply add_twice_double. Qed.

Section Pushes.

Implicit Types (h : heap) (t : Tensor) (p v root q : ptr) (f : closure).
Implicit Types (c g G : xarray).

Lemma add_assign_zeros k c g :
  add_assign (zeros k) c = Some g →
  g = map (λ x, 0 + x)%float c
  ∨ ∃ y, c = [y] ∧ g = replicate k (0 + y)%float.
Proof.
unfold add_assign, XArray.add, zeros.
destruct (decide (k = length c)) as [-> | Hk].
- rewrite broadcast_same by (by rewrite length_replicate).
  rewrite zip_with_replicate_l.
  case_match; [done|]. intros Hg. injection Hg as Hg. subst g. by left.
- destruct k as [|[|k]]; cbn [replicate].
  + destruct c as [|y [|y' c]]; try done.
    intros [= <-]. right. by exists y.
  + rewrite broadcast_one_l. case_match; [done|]. intros [= Hg]; subst g. by left.
  + destruct c as [|y [|y' c]]; try done.
    * rewrite broadcast_one_r.
      case_match; [done|]. intros [= Hg]; subst g. right. exists y. split; [done|].
      cbn. by rewrite fmap_replicate.
    * unfold broadcast. cbn [length]. rewrite length_replicate.
      destruct (S (S k) =? S (S (length c))) eqn:He; [|done].
      apply Nat.eqb_eq in He. cbn in Hk. lia.
Qed.

Lemma add_assign_map (φ : float → float) c g :
  add_assign (map φ c) c = Some g → g = map (λ x, φ x + x)%float c.
Proof.
rewrite add_assign_same by (by rewrite length_map). intros [= <-].
induction c as [|x c IH]; [done|]. cbn. by rewrite IH.
Qed.

Lemma add_assign_replicate k (a y : float) g :
  add_assign (replicate k a) [y] = Some g → g = replicate k (a + y)%float.
Proof.
unfold add_assign, XArray.add. rewrite broadcast_one_r.
case_match; [done|]. intros [= <-]. by rewrite fmap_replicate.
Qed.

(** From a zero gradient, adding the same array again, as many times as
    before, doubles the gradient. *)
Lemma add_all_twice (n k : nat) c g1 g2 :
  n ≤ 2 →
  add_all (zeros k) (replicate n c) = Some g1 →
  add_all g1 (replicate n c) = Some g2 →
  g2 = twice g1.
Proof.
intros Hn. destruct n as [|[|[|n]]]; [| | |lia]; cbn [replicate add_all].
- intros [= <-] [= <-]. unfold twice, zeros. rewrite fmap_replicate.
  reflexivity.
- destruct (add_assign (zeros k) c) as [a1|] eqn:H1; [|done].
  intros [= <-]. destruct (add_assign a1 c) as [a2|] eqn:H2; [|done].
  intros [= <-].
  apply add_assign_zeros in H1 as [-> | (y & -> & ->)].
  + apply add_assign_map in H2 as ->. unfold twice. rewrite map_map.
    apply map_ext. intros x. apply add_add_double.
  + apply add_assign_replicate in H2 as ->. unfold twice.
    rewrite fmap_replicate. f_equal. apply add_add_double.
- destruct (add_assign (zeros k) c) as [a1|] eqn:H1; [|done].
  destruct (add_assign a1 c) as [a2|] eqn:H2; [|done].
  intros [= <-]. destruct (add_assign a2 c) as [a3|] eqn:H3; [|done].
  destruct (add_assign a3 c) as [a4|] eqn:H4; [|done].
  intros [= <-].
  apply add_assign_zeros in H1 as [-> | (y & -> & ->)].
  + apply add_assign_map in H2 as ->. apply add_assign_map in H3 as ->.
    apply add_assign_map in H4 as ->. unfold twice. rewrite map_map.
    apply map_ext. intros x. apply add_quad.
  + apply add_assign_replicate in H2 as ->.
    apply add_assign_replicate in H3 as ->.
    apply add_assign_replicate in H4 as ->. unfold twice.
    rewrite fmap_replicate. f_equal. apply add_quad.
Qed.

End Pushes.

Section SecondCall.

Implicit Types (h : heap) (t : Tensor) (p v root q : ptr) (f : closure).
Implicit Types (c g G : xarray).

Lemma set_grad_id t : set_grad (grad t) t = t.
Proof. by destruct t. Qed.

(** What a call of the callable of [root] does to another node [v]. *)
Lemma call_pushes f h h' root t v tv :
  node_wf root t → _backward t = f → h !! root = Some t →
  v ≠ root → h !! v = Some tv →
  call f h = Some (tt, h') →
  ∃ g, add_all (grad tv) (pushes h f (grad t) v) = Some g
       ∧ h' !! v = Some (set_grad g tv).
Proof.
intros Hn Hf Ht Hv Htv Hcall. unfold node_wf in Hn. rewrite Hf in Hn.
pose proof (lookup_lt_Some _ _ _ Htv) as Hlv.
destruct f as [|out s o|out s o]; cbn [call pushes] in *.
- injection Hcall as <-. exists (grad tv). by rewrite set_grad_id.
- destruct Hn as (-> & _ & Hs & Ho).
  apply bind_Some in Hcall as (t0 & h0 & [Ht0 ->]%deref_Some & Hcall).
  rewrite Ht in Ht0. injection Ht0 as <-.
  apply bind_Some in Hcall as ([] & h1 & Hacc1 & Hcall).
  apply bind_Some in Hcall as (t1 & h2 & [Ht1 ->]%deref_Some & Hacc2).
  apply accumulate_Some in Hacc1 as (ts & g1 & Hts & Hg1 & ->).
  rewrite list_lookup_insert_ne in Ht1 by lia.
  rewrite Ht in Ht1. injection Ht1 as <-.
  apply accumulate_Some in Hacc2 as (to & g2 & Hto & Hg2 & ->).
  destruct (decide (s = v)) as [-> | Hsv], (decide (o = v)) as [-> | Hov];
    cbn [app add_all].
  + rewrite Hts in Htv. injection Htv as ->.
    rewrite list_lookup_insert_eq in Hto by done. injection Hto as <-.
    cbn [grad set_grad] in Hg2. rewrite Hg1, Hg2. exists g2.
    split; [done|]. rewrite list_lookup_insert_eq; [done|].
    by rewrite length_insert.
  + rewrite Hts in Htv. injection Htv as ->. rewrite Hg1. exists g1.
    split; [done|]. rewrite list_lookup_insert_ne by done.
    by rewrite list_lookup_insert_eq.
  + rewrite list_lookup_insert_ne in Hto by done.
    rewrite Htv in Hto. injection Hto as <-. rewrite Hg2. exists g2.
    split; [done|]. rewrite list_lookup_insert_eq; [done|].
    by rewrite length_insert.
  + exists (grad tv). rewrite set_grad_id. split; [done|].
    by rewrite !list_lookup_insert_ne.
- destruct Hn as (-> & _ & Hs & Ho).
  apply bind_Some in Hcall as (t0 & h0 & [Ht0 ->]%deref_Some & Hcall).
  rewrite Ht in Ht0. injection Ht0 as <-.
  apply bind_Some in Hcall as (to0 & h0 & [Hto0 ->]%deref_Some & Hcall).
  apply bind_Some in Hcall as (c1 & h0 & Hc1 & Hcall).
  unfold lift in Hc1.
  destruct (XArray.mul (grad t) (data to0)) as [c1'|] eqn:Hm1; [|done].
  injection Hc1 as <- <-.
  apply bind_Some in Hcall as ([] & h1 & Hacc1 & Hcall).
  apply bind_Some in Hcall as (t1 & h2 & [Ht1 ->]%deref_Some & Hcall).
  apply bind_Some in Hcall as (ts1 & h2 & [Hts1 ->]%deref_Some & Hcall).
  apply bind_Some in Hcall as (c2 & h2 & Hc2 & Hacc2).
  unfold lift in Hc2.
  destruct (XArray.mul (grad t1) (data ts1)) as [c2'|] eqn:Hm2; [|done].
  injection Hc2 as <- <-.
  apply accumulate_Some in Hacc1 as (ts & g1 & Hts & Hg1 & ->).
  rewrite list_lookup_insert_ne in Ht1 by lia.
  rewrite Ht in Ht1. injection Ht1 as <-.
  rewrite list_lookup_insert_eq in Hts1 by (by eapply lookup_lt_Some).
  injection Hts1 as <-. cbn [data set_grad] in Hm2.
  apply accumulate_Some in Hacc2 as (to & g2 & Hto & Hg2 & ->).
  unfold data_of. rewrite Hto0, Hts. cbn [fmap option_fmap option_map mbind option_bind].
  rewrite Hm1, Hm2.
  destruct (decide (s = v)) as [-> | Hsv], (decide (o = v)) as [-> | Hov];
    cbn [option_list option_rect app add_all].
  + rewrite Hts in Htv. injection Htv as ->.
    rewrite Hto0 in Hts. injection Hts as ->.
    rewrite Hm1 in Hm2. injection Hm2 as Hcc. subst c2'.
    rewrite list_lookup_insert_eq in Hto by done. injection Hto as <-.
    cbn [grad set_grad] in Hg2. rewrite Hg1, Hg2. exists g2.
    split; [done|]. rewrite list_lookup_insert_eq; [done|].
    by rewrite length_insert.
  + rewrite Hts in Htv. injection Htv as ->. rewrite Hg1. exists g1.
    split; [done|]. rewrite list_lookup_insert_ne by done.
    by rewrite list_lookup_insert_eq.
  + rewrite list_lookup_insert_ne in Hto by done.
    rewrite Htv in Hto. injection Hto as <-. rewrite Hg2. exists g2.
    split; [done|]. rewrite list_lookup_insert_eq; [done|].
    by rewrite length_insert.
  + exists (grad tv). rewrite set_grad_id. split; [done|].
    by rewrite !list_lookup_insert_ne.
Qed.

(** The arrays pushed depend on the values only. *)
Lemma pushes_same_graph h h' f G v :
  same_graph h h' → pushes h f G v = pushes h' f G v.
Proof.
intros Hs.
assert (Hd : ∀ p, data_of h p = data_of h' p).
{ intros p. pose proof (same_graph_lookup h h' p Hs) as Hl. unfold data_of.
  destruct (h !! p) as [t1|], (h' !! p) as [t2|]; try done.
  injection Hl as H1 _ _ _. cbn. by rewrite H1. }
destruct f; cbn [pushes]; by rewrite ?Hd.
Qed.

(** A callable pushes one array into a node, at most twice. *)
Lemma pushes_replicate h f G v :
  ∃ n c, n ≤ 2 ∧ pushes h f G v = replicate n c.
Proof.
destruct f as [|out s o|out s o]; cbn [pushes].
- exists 0, []; split; [lia | done].
- destruct (decide (s = v)), (decide (o = v)).
  + exists 2, G; split; [lia | done].
  + exists 1, G; split; [lia | done].
  + exists 1, G; split; [lia | done].
  + exists 0, G; split; [lia | done].
- destruct (decide (s = v)) as [-> | ?], (decide (o = v)) as [-> | ?].
  + destruct (data_of h v ≫= XArray.mul G) as [c|].
    * exists 2, c; split; [lia | done].
    * exists 0, G; split; [lia | done].
  + destruct (data_of h o ≫= XArray.mul G) as [c|].
    * exists 1, c; split; [lia | done].
    * exists 0, G; split; [lia | done].
  + destruct (data_of h s ≫= XArray.mul G) as [c|].
    * exists 1, c; split; [lia | done].
    * exists 0, G; split; [lia | done].
  + exists 0, G; split; [lia | done].
Qed.

Lemma topo_order_last h root topo :
  topo_order h root = Some topo → ∃ l, topo = l ++ [root].
Proof.
unfold topo_order.
destruct (build_topo (S (length h)) h root (∅, [])) as [st|] eqn:Hb; [|done].
intros [= <-].
by apply (build_topo_last _ _ _ _ _ (not_elem_of_empty root) Hb).
Qed.

(** What [backward] does to a node that only the root depends on: the
    callable of the root pushes into it, from a gradient of ones, and
    nothing else changes it. *)
Lemma backward_direct root h h' t v tv :
  wf h → backward root h = Some (tt, h') →
  h !! root = Some t → v ≠ root → h !! v = Some tv →
  (∀ u, reachable h root u → dep h u v → u = root) →
  ∃ g, add_all (grad tv)
         (pushes h (_backward t) (ones (shape (data t))) v) = Some g
       ∧ h' !! v = Some (set_grad g tv).
Proof.
intros Hwf Hb Ht Hv Htv Hone.
apply backward_Some in Hb as (topo & t' & Htopo & Ht' & Hrun).
rewrite Ht in Ht'. injection Ht' as <-.
destruct (topo_order_ok h root Hwf) as (topo' & Heq & Hnd & Hreach & _).
{ by rewrite Ht. }
rewrite Htopo in Heq. injection Heq as <-.
destruct (topo_order_last h root topo Htopo) as [l ->].
rewrite reverse_app in Hrun. cbn [reverse rev_append app for_each] in Hrun.
change (rev_append [root] []) with [root] in Hrun.
set (hs := <[root := set_grad (ones (shape (data t))) t]> h) in *.
assert (Hss : same_graph h hs) by (by apply same_graph_set_grad).
assert (Hwfs : wf hs) by (by apply wf_set_grad).
cbn [app for_each] in Hrun.
apply bind_Some in Hrun as ([] & hm & Hfire & Hrun).
assert (Hroot : hs !! root = Some (set_grad (ones (shape (data t))) t)).
{ unfold hs. rewrite list_lookup_insert_eq; [done|]. by eapply lookup_lt_Some. }
pose proof Hfire as Hfire'.
apply bind_Some in Hfire as (ts & h0 & [Hts ->]%deref_Some & Hcall).
rewrite Hroot in Hts. injection Hts as <-.
destruct (call_pushes _ hs hm root _ v tv (Hwfs _ _ Hroot) eq_refl Hroot Hv)
  as (g & Hg & Hgv); [|exact Hcall|].
{ unfold hs. by rewrite list_lookup_insert_ne. }
cbn [_backward set_grad grad] in Hg.
exists g. split.
{ by rewrite (pushes_same_graph h hs). }
rewrite <- Hgv.
destruct (fire_frame root hs hm Hwfs Hfire') as [Hwfm _].
apply (for_each_fire_changes (reverse l) hm h' v Hwfm Hrun).
intros u Hu Hd. rewrite elem_of_reverse in Hu.
assert (Hur : reachable h root u).
{ apply Hreach. apply elem_of_app. by left. }
assert (u = root) as ->.
{ apply Hone; [done|]. apply (dep_same_graph hm h); [|done].
  apply same_graph_sym. eapply same_graph_trans; [exact Hss|].
  by eapply fire_same_graph. }
apply NoDup_app in Hnd as (_ & Hdis & _). apply (Hdis root Hu).
by apply list_elem_of_singleton.
Qed.

End SecondCall.

Lemma reachable_same_graph (h h' : heap) (u v : ptr) :
  same_graph h h' → reachable h u v → reachable h' u v.
Proof.
intros Hs. apply rtc_subrel. intros x y. by apply dep_same_graph.
Qed.

Lemma ones_not_twice (n : nat) :
  n ≠ 0 → XArray.eqb (ones n) (twice (ones n)) = false.
Proof.
intros Hn. destruct n as [|n]; [done|]. unfold XArray.eqb, twice, ones.
rewrite fmap_replicate, !length_replicate, Nat.eqb_refl. reflexivity.
Qed.

(** C2, amended.  On a graph built by the operators, when two calls of
    [backward] on a root return: the gradient of the root is the array of
    ones after each call (the seed is an assignment), which is not its own
    double unless it is empty; and every other node whose gradient was
    all zeros before the first call, and on which no node of the subgraph
    of the root depends but the root itself, has after the second call
    exactly the double of its gradient after the first call.  This holds
    for a leaf and for an interior node, for one operand and for both
    operands of the root, for a sum and for a product, with equal and with
    broadcast shapes. *)
Theorem second_call (h : heap) (root : ptr) (h1 h2 : heap) :
  wf h →
  backward root h = Some (tt, h1) →
  backward root h1 = Some (tt, h2) →
  ∃ t, h !! root = Some t
       ∧ grad_of h1 root = Some (ones (shape (data t)))
       ∧ grad_of h2 root = Some (ones (shape (data t)))
       ∧ (data t ≠ [] →
          XArray.eqb (ones (shape (data t)))
            (twice (ones (shape (data t)))) = false)
       ∧ ∀ v tv,
           v ≠ root → h !! v = Some tv →
           grad tv = zeros (shape (grad tv)) →
           (∀ u, reachable h root u → dep h u v → u = root) →
           ∃ g1, grad_of h1 v = Some g1 ∧ grad_of h2 v = Some (twice g1).
Proof.
intros Hwf Hb1 Hb2.
destruct (backward_root root h h1 Hwf Hb1) as (Hwf1 & t & Ht & Ht1).
destruct (backward_root root h1 h2 Hwf1 Hb2) as (_ & t1 & Ht1' & Ht2).
rewrite Ht1 in Ht1'. injection Ht1' as <-. cbn [data set_grad] in Ht2.
exists t. split; [done|].
split; [unfold grad_of; by rewrite Ht1|].
split; [unfold grad_of; by rewrite Ht2|].
split.
{ intros Hd. apply ones_not_twice. unfold shape. by destruct (data t). }
intros v tv Hv Htv Hz Hone.
destruct (backward_direct root h h1 t v tv Hwf Hb1 Ht Hv Htv Hone)
  as (g1 & Hg1 & Hv1).
pose proof (backward_graph root h h1 Hb1) as Hs.
destruct (backward_direct root h1 h2 _ v _ Hwf1 Hb2 Ht1 Hv Hv1)
  as (g2 & Hg2 & Hv2).
{ intros u Hu Hd. apply Hone.
  - apply (reachable_same_graph h1 h); [by apply same_graph_sym | done].
  - apply (dep_same_graph h1 h); [by apply same_graph_sym | done]. }
cbn [data set_grad _backward grad] in Hg2.
rewrite <- (pushes_same_graph h h1 _ _ _ Hs) in Hg2.
destruct (pushes_replicate h (_backward t) (ones (shape (data t))) v)
  as (n & c & Hn & Hp).
rewrite Hp in Hg1, Hg2. rewrite Hz in Hg1.
exists g1. unfold grad_of. rewrite Hv1, Hv2. cbn.
split; [done|]. f_equal.
exact (add_all_twice n _ c g1 g2 Hn Hg1 Hg2).
Qed.

Lemma wf_square_graph : wf square_graph.
Proof.
intros i t Hi. destruct i as [|[|i]]; cbn in Hi; try done;
  injection Hi as <-; cbn; repeat split; lia.
Qed.

Lemma wf_stretch_graph : wf stretch_graph.
Proof.
intros i t Hi. destruct i as [|[|[|i]]]; cbn in Hi; try done;
  injection Hi as <-; cbn; repeat split; lia.
Qed.

(** The graph of [main]: [w] keeps the gradient [[1.0]], and [z], which
    only [w] depends on, goes from [[2.0]] to [[4.0]].  The square of a
    leaf: the leaf, both operands of the root, goes from [[6.0]] to its
    double.  A product with broadcasting: both leaves double, the
    one-element leaf with the three-element gradient it was given. *)
Lemma second_call_witness :
  (wf main_graph
   ∧ backward 3 main_graph = Some (tt, main_with 7 2 2 1)
   ∧ backward 3 (main_with 7 2 2 1) = Some (tt, main_with 16 6 4 1)
   ∧ grad_of (main_with 7 2 2 1) 3 = Some [1%float]
   ∧ grad_of (main_with 16 6 4 1) 3 = Some [1%float]
   ∧ XArray.eqb [1%float] (twice [1%float]) = false
   ∧ ∃ g1, grad_of (main_with 7 2 2 1) 2 = Some g1
           ∧ grad_of (main_with 16 6 4 1) 2 = Some (twice g1))
  ∧ (wf square_graph
     ∧ ∃ h1 h2,
         backward 1 square_graph = Some (tt, h1)
         ∧ backward 1 h1 = Some (tt, h2)
         ∧ grad_of h1 0 = Some [6%float]
         ∧ ∃ g1, grad_of h1 0 = Some g1 ∧ grad_of h2 0 = Some (twice g1))
  ∧ (wf stretch_graph
     ∧ ∃ h1 h2,
         backward 2 stretch_graph = Some (tt, h1)
         ∧ backward 2 h1 = Some (tt, h2)
         ∧ grad_of h1 0 = Some [5%float; 5%float; 5%float]
         ∧ grad_of h1 1 = Some [1%float; 2%float; 3%float]
         ∧ (∃ g1, grad_of h1 0 = Some g1 ∧ grad_of h2 0 = Some (twice g1))
         ∧ (∃ g1, grad_of h1 1 = Some g1 ∧ grad_of h2 1 = Some (twice g1))).
Proof.
split; [|split].
- assert (Hwf : wf main_graph) by apply (wf_main_with 0 0 0 0).
  assert (H1 : backward 3 main_graph = Some (tt, main_with 7 2 2 1))
    by (vm_compute; reflexivity).
  assert (H2 : backward 3 (main_with 7 2 2 1)
               = Some (tt, main_with 16 6 4 1))
    by (vm_compute; reflexivity).
  split; [exact Hwf|]. split; [exact H1|]. split; [exact H2|].
  destruct (second_call main_graph 3 _ _ Hwf H1 H2)
    as (t & Ht & Hr1 & Hr2 & Hnot & Hall).
  injection Ht as <-.
  split; [exact Hr1|]. split; [exact Hr2|].
  split; [by apply Hnot|].
  apply (Hall 2 _ ltac:(lia) eq_refl eq_refl).
  intros u _ (tu & Hu & Hin & _).
  destruct u as [|[|[|[|u]]]]; cbn in Hu; try done;
    injection Hu as <-; cbn in Hin.
  + by apply elem_of_nil in Hin.
  + by apply elem_of_nil in Hin.
  + apply elem_of_cons in Hin as [Hin | Hin]; [done|].
    apply elem_of_cons in Hin as [Hin | Hin]; [done|].
    by apply elem_of_nil in Hin.
- split; [apply wf_square_graph|].
  eexists _, _.
  split; [vm_compute; reflexivity|].
  split; [vm_compute; reflexivity|].
  split; [reflexivity|].
  match goal with
  | |- ∃ g1, grad_of ?h1 0 = _ ∧ grad_of ?h2 0 = _ =>
      assert (H1 : backward 1 square_graph = Some (tt, h1))
        by (vm_compute; reflexivity);
      assert (H2 : backward 1 h1 = Some (tt, h2))
        by (vm_compute; reflexivity)
  end.
  destruct (second_call square_graph 1 _ _ wf_square_graph H1 H2)
    as (t & Ht & _ & _ & _ & Hall).
  apply (Hall 0 _ ltac:(lia) eq_refl eq_refl).
  intros u _ (tu & Hu & Hin & _).
  destruct u as [|[|u]]; cbn in Hu; try done.
  injection Hu as <-; cbn in Hin. by apply elem_of_nil in Hin.
- split; [apply wf_stretch_graph|].
  eexists _, _.
  split; [vm_compute; reflexivity|].
  split; [vm_compute; reflexivity|].
  split; [reflexivity|]. split; [reflexivity|].
  match goal with
  | |- (∃ g1, grad_of ?h1 0 = _ ∧ grad_of ?h2 0 = _) ∧ _ =>
      assert (H1 : backward 2 stretch_graph = Some (tt, h1))
        by (vm_compute; reflexivity);
      assert (H2 : backward 2 h1 = Some (tt, h2))
        by (vm_compute; reflexivity)
  end.
  destruct (second_call stretch_graph 2 _ _ wf_stretch_graph H1 H2)
    as (t & Ht & _ & _ & _ & Hall).
  split.
  + apply (Hall 0 _ ltac:(lia) eq_refl eq_refl).
    intros u _ (tu & Hu & Hin & _).
    destruct u as [|[|[|u]]]; cbn in Hu; try done;
      injection Hu as <-; cbn in Hin; by apply elem_of_nil in Hin.
  + apply (Hall 1 _ ltac:(lia) eq_refl eq_refl).
    intros u _ (tu & Hu & Hin & _).
    destruct u as [|[|[|u]]]; cbn in Hu; try done;
      injection Hu as <-; cbn in Hin; by apply elem_of_nil in Hin.
Defined.

(** Two calls on a square, on a sum of a leaf with itself, and on a
    product with broadcasting: the gradients after the second call are
    the doubles of those after the first. *)
Example second_call_instances :
  (∃ h1 h2,
     backward_twice (x <~ create [3%float] ;; operator_mul x x)
       = Some (h1, h2)
     ∧ grad_of h1 0 = Some [6%float] ∧ grad_of h2 0 = Some [12%float])
  ∧ (∃ h1 h2,
       backward_twice (x <~ create [3%float] ;; operator_add x x)
         = Some (h1, h2)
       ∧ grad_of h1 0 = Some [2%float] ∧ grad_of h2 0 = Some [4%float])
  ∧ (∃ h1 h2,
       backward_twice (a <~ create [1%float; 2%float; 3%float] ;;
                       b <~ create [5%float] ;;
                       operator_mul a b)
         = Some (h1, h2)
       ∧ grad_of h1 0 = Some [5%float; 5%float; 5%float]
       ∧ grad_of h2 0 = Some [10%float; 10%float; 10%float]
       ∧ grad_of h1 1 = Some [1%float; 2%float; 3%float]
       ∧ grad_of h2 1 = Some [2%float; 4%float; 6%float]).
Proof.
repeat split; eexists _, _; (split; [vm_compute; reflexivity|]);
  repeat split; reflexivity.
Qed.

(** * The calls that [backward] makes *)

Section Calls.

Implicit Types (h g : heap) (t : Tensor) (p v root q : ptr) (l : list ptr).







End Calls.




